(** * loggingMiddleware.js: a shallow embedding and its verification

    The development follows [src/loggingMiddleware.js]: the request logging
    middleware for Express-compatible applications, its pure helpers
    ([redactObjectKeys], [limitSize], [safeSerialize], [shouldSkipPath]),
    the delivery functions ([postToRemote], [sendLog]) and the HS256 token
    creator ([generateJwt]).

    Conventions of the embedding.
    - A JavaScript string is a [string]; each character stands for one
      UTF-16 code unit in the range 0..255.
    - A JavaScript number is an integer [Z] (floating point is not modelled;
      the measured duration is taken from the clock reading as a number).
    - A JavaScript object is the list of its own enumerable properties in
      the order [JSON.stringify] and [for..in] observe: array indices first,
      in ascending order, then the other names in the order of their
      creation. Its prototype is [Object.prototype] unless said otherwise,
      and a function value is opaque.
    - [process.env] is a finite map from names to strings.
    - A computation that may throw returns a [completion]; code that also
      touches the response or performs I/O runs in the monad [M] over a
      [world] that records every observable effect in a trace. *)

From Stdlib Require Import ZArith String Ascii List Bool Lia.
From stdpp Require Import base option list strings pretty gmap.

#[local] Set Warnings "-register-all".

Local Open Scope string_scope.
Local Open Scope list_scope.
Local Open Scope Z_scope.

(** ** JavaScript values *)

Inductive value : Type :=
| VUndefined
| VNull
| VBool (b : bool)
| VNum (n : Z)
| VBigInt (n : Z)
| VStr (s : string)
| VArr (xs : list value)
| VObj (props : list (string * value))
| VFun.

(** Objects: the own properties, in enumeration order. *)
Abbreviation obj := (list (string * value)).

(** Outcome of evaluating an expression: a value or a thrown value. *)
Inductive completion (A : Type) : Type :=
| Normal (a : A)
| Throw (err : value).
Arguments Normal {A} a.
Arguments Throw {A} err.

Definition cbind {A B} (c : completion A) (k : A → completion B) : completion B :=
  match c with
  | Normal a => k a
  | Throw e => Throw e
  end.

(** [try { c } catch (e) { h e }] for pure computations. *)
Definition try_catch {A} (c : completion A) (h : value → completion A) : completion A :=
  match c with
  | Normal a => Normal a
  | Throw e => h e
  end.

(** JavaScript truthiness ([!x], [x || y], [if (x)]). *)
Definition truthy (v : value) : bool :=
  match v with
  | VUndefined | VNull => false
  | VBool b => b
  | VNum n | VBigInt n => negb (n =? 0)
  | VStr s => negb (String.eqb s "")
  | VArr _ | VObj _ | VFun => true
  end.

(** Truthiness of a possibly absent string ([undefined] or a string). *)
Definition truthy_str (o : option string) : bool :=
  match o with
  | Some s => negb (String.eqb s "")
  | None => false
  end.

(** [a || b] on possibly absent strings. *)
Definition or_str (a b : option string) : option string :=
  if truthy_str a then a else b.

(** ** Strings *)

Definition str_length (s : string) : Z := Z.of_nat (String.length s).

Fixpoint str_take (n : nat) (s : string) : string :=
  match n, s with
  | O, _ => ""
  | S n', String c r => String c (str_take n' r)
  | S _, EmptyString => ""
  end.

Fixpoint str_drop (n : nat) (s : string) : string :=
  match n, s with
  | O, _ => s
  | S n', String _ r => str_drop n' r
  | S _, EmptyString => ""
  end.

(** [String.prototype.slice(start, end)] on integer arguments: negative
    positions count from the end, positions are clamped to the string. *)
Definition slice_pos (len i : Z) : Z :=
  if i <? 0 then Z.max (len + i) 0 else Z.min i len.

Definition str_slice (s : string) (from to : Z) : string :=
  let len := str_length s in
  let f := slice_pos len from in
  let t := slice_pos len to in
  str_take (Z.to_nat (Z.max (t - f) 0)) (str_drop (Z.to_nat f) s).

(** [s.slice(start)]. *)
Definition str_slice_from (s : string) (from : Z) : string :=
  str_drop (Z.to_nat (slice_pos (str_length s) from)) s.

Fixpoint startsWith (url p : string) : bool :=
  match p, url with
  | EmptyString, _ => true
  | String c p', String d u' => if Ascii.eqb c d then startsWith u' p' else false
  | String _ _, EmptyString => false
  end.

(** [toLowerCase] on code units 0..255: A-Z and the Latin-1 capitals
    (0xC0..0xDE except the multiplication sign 0xD7) move up by 0x20. *)
Definition lower_char (c : ascii) : ascii :=
  let n := N_of_ascii c in
  if ((65 <=? n) && (n <=? 90))%N then ascii_of_N (n + 32)
  else if ((192 <=? n) && (n <=? 222) && negb (n =? 215))%N then ascii_of_N (n + 32)
  else c.

Fixpoint toLowerCase (s : string) : string :=
  match s with
  | EmptyString => EmptyString
  | String c r => String (lower_char c) (toLowerCase r)
  end.

(** Template-literal and [String(n)] rendering of an integer. *)
Definition show_Z (n : Z) : string := pretty n.

Fixpoint join (sep : string) (l : list string) : string :=
  match l with
  | [] => ""
  | [x] => x
  | x :: r => x +:+ sep +:+ join sep r
  end.

(** Decimal digits to a number; [None] when a character is no digit
    (for [Number(s)] this stands for [NaN]). *)
Fixpoint digits_go (s : string) (acc : N) : option N :=
  match s with
  | EmptyString => Some acc
  | String c r =>
      let n := N_of_ascii c in
      if ((48 <=? n) && (n <=? 57))%N then digits_go r (acc * 10 + (n - 48)) else None
  end.

(** Every character of a text satisfies [p]. *)
Fixpoint all_chars (p : ascii → bool) (s : string) : bool :=
  match s with
  | EmptyString => true
  | String c r => p c && all_chars p r
  end.

(** Bytes are [ascii]. [Buffer.from(s)] is the UTF-8 encoding of the text:
    one byte below 0x80, two bytes for the code units 0x80..0xFF. *)
Definition utf8_char (c : ascii) : list ascii :=
  let n := N_of_ascii c in
  if (n <? 128)%N then [c]
  else [ascii_of_N (192 + n / 64); ascii_of_N (128 + n mod 64)].

Fixpoint utf8 (s : string) : list ascii :=
  match s with
  | EmptyString => []
  | String c r => utf8_char c ++ utf8 r
  end.

(** ** JSON.stringify *)

Definition hex_digit (n : N) : ascii :=
  ascii_of_N (if (n <? 10)%N then 48 + n else 87 + n).

(** The double quote, and a helper that writes it as an apostrophe in the
    expected texts of the examples. *)
Definition dquote : ascii := ascii_of_N 34.

Fixpoint dq (s : string) : string :=
  match s with
  | EmptyString => EmptyString
  | String c r => String (if Ascii.eqb c "'" then dquote else c) (dq r)
  end.

(** QuoteJSONString, one code unit. *)
Definition quote_char (c : ascii) : string :=
  let n := N_of_ascii c in
  if (n =? 34)%N then String "\" (String dquote "")
  else if (n =? 92)%N then "\\"
  else if (n =? 8)%N then "\b"
  else if (n =? 12)%N then "\f"
  else if (n =? 10)%N then "\n"
  else if (n =? 13)%N then "\r"
  else if (n =? 9)%N then "\t"
  else if (n <? 32)%N then
    "\u00" +:+ String (hex_digit (n / 16)) (String (hex_digit (n mod 16)) "")
  else String c "".

Fixpoint quote_body (s : string) : string :=
  match s with
  | EmptyString => ""
  | String c r => quote_char c +:+ quote_body r
  end.

Definition quote (s : string) : string :=
  String dquote (quote_body s +:+ String dquote "").

Definition TypeError (msg : string) : value := VStr ("TypeError: " +:+ msg).
Definition SyntaxError (msg : string) : value := VStr ("SyntaxError: " +:+ msg).

(** [JSON.stringify(v)]: [Normal None] is the result [undefined]; a BigInt
    anywhere in the value throws a TypeError. Inside an array an
    unserializable element prints as [null]; inside an object the property
    is left out. *)
Fixpoint JSON_stringify (v : value) : completion (option string) :=
  match v with
  | VUndefined | VFun => Normal None
  | VNull => Normal (Some "null")
  | VBool true => Normal (Some "true")
  | VBool false => Normal (Some "false")
  | VNum n => Normal (Some (show_Z n))
  | VBigInt _ => Throw (TypeError "Do not know how to serialize a BigInt")
  | VStr s => Normal (Some (quote s))
  | VArr xs =>
      cbind
        ((fix elems (l : list value) : completion (list string) :=
            match l with
            | [] => Normal []
            | x :: r =>
                cbind (JSON_stringify x) (λ o,
                cbind (elems r) (λ ss,
                Normal (default "null" o :: ss)))
            end) xs)
        (λ ss, Normal (Some ("[" +:+ join "," ss +:+ "]")))
  | VObj ps =>
      cbind
        ((fix members (l : obj) : completion (list string) :=
            match l with
            | [] => Normal []
            | (k, x) :: r =>
                cbind (JSON_stringify x) (λ o,
                cbind (members r) (λ ss,
                Normal (match o with
                        | Some t => (quote k +:+ ":" +:+ t) :: ss
                        | None => ss
                        end)))
            end) ps)
        (λ ss, Normal (Some ("{" +:+ join "," ss +:+ "}")))
  end.

(** [JSON.parse(JSON.stringify(v))], the deep-clone idiom of
    [safeSerialize]: the text printed by [JSON_stringify] read back. A value
    that prints as [undefined] makes [JSON.parse] throw a SyntaxError; array
    holes come back as [null]; unserializable properties are gone. *)
Definition is_unserializable (v : value) : bool :=
  match v with
  | VUndefined | VFun => true
  | _ => false
  end.

Fixpoint JSON_parse_stringify (v : value) : completion value :=
  match v with
  | VUndefined | VFun => Throw (SyntaxError "undefined is not valid JSON")
  | VBigInt _ => Throw (TypeError "Do not know how to serialize a BigInt")
  | VNull | VBool _ | VNum _ | VStr _ => Normal v
  | VArr xs =>
      cbind
        ((fix elems (l : list value) : completion (list value) :=
            match l with
            | [] => Normal []
            | x :: r =>
                cbind (if is_unserializable x then Normal VNull
                       else JSON_parse_stringify x) (λ y,
                cbind (elems r) (λ ys, Normal (y :: ys)))
            end) xs)
        (λ ys, Normal (VArr ys))
  | VObj ps =>
      cbind
        ((fix members (l : obj) : completion obj :=
            match l with
            | [] => Normal []
            | (k, x) :: r =>
                if is_unserializable x then members r
                else
                  cbind (JSON_parse_stringify x) (λ y,
                  cbind (members r) (λ ys, Normal ((k, y) :: ys)))
            end) ps)
        (λ ys, Normal (VObj ys))
  end.

(** ** Objects *)

(** [o[k]] for an own property; [None] is an absent one. *)
Fixpoint obj_get (k : string) (o : obj) : option value :=
  match o with
  | [] => None
  | (k', v) :: r => if String.eqb k k' then Some v else obj_get k r
  end.

(** An array index: the canonical decimal text of an integer below
    [2^32 - 1]. *)
Definition array_index (k : string) : option N :=
  match k with
  | EmptyString => None
  | String c r =>
      if Ascii.eqb c "0" && negb (String.eqb r "") then None
      else match digits_go k 0 with
           | Some n => if (n <? 4294967295)%N then Some n else None
           | None => None
           end
  end.

(** The order of own property keys: an array index comes before every
    larger index and before every other name; other names keep the order of
    their creation. *)
Definition key_before (k k' : string) : bool :=
  match array_index k, array_index k' with
  | Some n, Some n' => (n <? n')%N
  | Some _, None => true
  | None, _ => false
  end.

(** Defining the own property [k] (an object literal, a spread, or an
    assignment that reaches no accessor): an existing property keeps its
    place, a new one goes to its place in the order of the keys. *)
Fixpoint obj_set (k : string) (v : value) (o : obj) : obj :=
  match o with
  | [] => [(k, v)]
  | (k', v') :: r =>
      if String.eqb k k' then (k', v) :: r
      else if key_before k k' then (k, v) :: (k', v') :: r
      else (k', v') :: obj_set k v r
  end.

(** [{ ...o, ...src }]: copy the properties of [src] into [o] in order. *)
Definition obj_spread (o src : obj) : obj :=
  fold_left (λ acc kv, obj_set kv.1 kv.2 acc) src o.

Definition obj_keys (o : obj) : list string := map fst o.

(** A list of keys is in enumeration order: no key stands after one it
    should come before. *)
Fixpoint keys_ordered (ks : list string) : bool :=
  match ks with
  | [] => true
  | k :: r => forallb (λ k', negb (key_before k' k)) r && keys_ordered r
  end.

(** The list is the own properties of an object: distinct keys, in
    enumeration order. *)
Definition own_properties (o : obj) : Prop :=
  NoDup (obj_keys o) ∧ keys_ordered (obj_keys o) = true.

(** The value is an object or [null] (what the [__proto__] accessor takes
    as a prototype). *)
Definition is_object_or_null (v : value) : bool :=
  match v with
  | VNull | VArr _ | VObj _ | VFun => true
  | _ => false
  end.

(** An object created by [{}] while a loop assigns to it: its own
    properties, and its prototype when that has been replaced ([None] is
    [Object.prototype]). *)
Record copy : Type := {
  own : obj;
  proto : option value
}.

(** [out[k] = v] on such an object. The name [__proto__] reaches the
    accessor of [Object.prototype]: an object or [null] becomes the
    prototype, any other value is ignored, and no own property is created.
    Every other name defines an own property. (A [for..in] loop visits each
    name once, so the accessor is still in reach when the name comes up.) *)
Definition obj_assign (k : string) (v : value) (out : copy) : copy :=
  if String.eqb k "__proto__"
  then (if is_object_or_null v then {| own := own out; proto := Some v |} else out)
  else {| own := obj_set k v (own out); proto := proto out |}.

(** ** The pure helpers of the middleware *)

Definition REDACTED : value := VStr "[REDACTED]".

(** [redactObjectKeys(obj, keysToRedact)]. Both arguments may be absent:
    [keysToRedact || []], and [for (k in undefined)] runs no iteration. *)
Definition lowered_set (keysToRedact : option (list string)) : gset string :=
  list_to_set (toLowerCase <$> default [] keysToRedact).

Definition redact_value (lowered : gset string) (k : string) (v : value) : value :=
  if bool_decide (toLowerCase k ∈ lowered) then REDACTED else v.

(** The loop [for (const k in obj) out[k] = ...] from [out = {}]. *)
Definition redact_loop (o : option obj) (keysToRedact : option (list string)) : copy :=
  let lowered := lowered_set keysToRedact in
  fold_left (λ out kv, obj_assign kv.1 (redact_value lowered kv.1 kv.2) out)
            (default [] o) {| own := []; proto := None |}.

(** The own properties of the object [redactObjectKeys] returns. *)
Definition redactObjectKeys (o : option obj) (keysToRedact : option (list string)) : obj :=
  own (redact_loop o keysToRedact).

(** [typeof value === 'string' ? value : JSON.stringify(value)] *)
Definition to_text (v : value) : completion (option string) :=
  match v with
  | VStr s => Normal (Some s)
  | _ => JSON_stringify v
  end.

(** [limitSize(value, max)]; the result is a string or [undefined]. *)
Definition limitSize (v : value) (max : Z) : completion value :=
  try_catch
    (cbind (to_text v) (λ str,
     match str with
     | None => Normal VUndefined
     | Some s =>
         if negb (truthy (VStr s)) then Normal VUndefined
         else if str_length s >? max
              then Normal (VStr (str_slice s 0 max +:+ "...("
                                 +:+ show_Z (str_length s - max) +:+ " more bytes)"))
              else Normal (VStr s)
     end))
    (λ _, Normal VUndefined).

(** [safeSerialize(value)] *)
Definition safeSerialize (v : value) : completion value :=
  match v with
  | VUndefined => Normal VUndefined
  | _ => try_catch (JSON_parse_stringify v) (λ _, Normal VUndefined)
  end.

(** An entry of [skipPaths]: a string (literal prefix), a [RegExp] (given
    by what its [test] answers on a string) or any other value. *)
Inductive rule : Type :=
| RString (p : string)
| RRegExp (test : string → bool)
| ROther (v : value).

Definition rule_matches (url : string) (r : rule) : bool :=
  match r with
  | RString p => startsWith url p
  | RRegExp test => test url
  | ROther _ => false
  end.

(** The [for..of] loop of [shouldSkipPath]: the answer and the number of
    rules it looked at before leaving. *)
Fixpoint skip_loop (url : string) (rules : list rule) : bool * nat :=
  match rules with
  | [] => (false, O)
  | r :: rest =>
      if rule_matches url r then (true, 1%nat)
      else let '(b, n) := skip_loop url rest in (b, S n)
  end.

(** [shouldSkipPath(url, skipPaths)]. With [url] a string and [test] a
    predicate nothing in the loop throws, so the [catch] clause is never
    entered. *)
Definition shouldSkipPath (url : string) (skipPaths : option (list rule)) : bool :=
  match skipPaths with
  | None => false
  | Some [] => false
  | Some rules => (skip_loop url rules).1
  end.

(** [Number.prototype.toString(36)] on a natural number. *)
Definition digit36 (n : N) : ascii :=
  ascii_of_N (if (n <? 10)%N then 48 + n else 87 + n).

Fixpoint base36_go (fuel : nat) (n : N) (acc : string) : string :=
  match fuel with
  | O => acc
  | S f =>
      let acc' := String (digit36 (n mod 36)) acc in
      if (n <? 36)%N then acc' else base36_go f (n / 36) acc'
  end.

Definition toString36 (n : N) : string := base36_go (S (N.size_nat n)) n "".

(** [defaultIdGenerator()]: [random36] is the text of
    [Math.random().toString(36)], [now_ms] is [Date.now()]. *)
Definition defaultIdGenerator (random36 : string) (now_ms : Z) : string :=
  str_slice_from random36 2 +:+ toString36 (Z.to_N now_ms).

(** ** Conversions used by the middleware *)

(** [a || b] on values. *)
Definition vor (a b : value) : value := if truthy a then a else b.

Definition of_opt (o : option value) : value := default VUndefined o.

Definition of_opt_str (o : option string) : value :=
  match o with
  | Some s => VStr s
  | None => VUndefined
  end.

(** [String(v)] and template-literal interpolation. The text of a function
    is its source, which the model does not have; it is a fixed text here. *)
Fixpoint ToString (v : value) : string :=
  match v with
  | VUndefined => "undefined"
  | VNull => "null"
  | VBool true => "true"
  | VBool false => "false"
  | VNum n | VBigInt n => show_Z n
  | VStr s => s
  | VArr xs =>
      join "," ((fix elems (l : list value) : list string :=
                   match l with
                   | [] => []
                   | x :: r =>
                       (match x with
                        | VUndefined | VNull => ""
                        | _ => ToString x
                        end) :: elems r
                   end) xs)
  | VObj _ => "[object Object]"
  | VFun => "function () { [native code] }"
  end.

(** [Number(v)] for the values a header can hold: a number, or a string of
    decimal digits; anything else is [NaN] here. *)
Definition ToNumber (v : value) : option Z :=
  match v with
  | VNum n => Some n
  | VStr EmptyString => Some 0
  | VStr s => Z.of_N <$> digits_go s 0
  | _ => None
  end.

(** [Number(x) || undefined] *)
Definition number_or_undefined (v : value) : value :=
  match ToNumber v with
  | Some n => if n =? 0 then VUndefined else VNum n
  | None => VUndefined
  end.

(** ** The response, the world and its effects *)

Inductive evname : Type := finish | close.

Definition evname_eqb (a b : evname) : bool :=
  match a, b with
  | finish, finish | close, close => true
  | _, _ => false
  end.

(** What [process.hrtime], [new Date], [Date.now] and [Math.random] answer
    at one moment. [elapsed_ms] is the number that
    [Number((s * 1e3 + ns / 1e6).toFixed(3))] evaluates to for the time since
    the request started. *)
Record clock : Type := {
  now_iso : string;
  now_ms : Z;
  elapsed_ms : Z;
  random36 : string
}.

(** The network side of the runtime: whether a global [fetch] exists, how a
    [fetch] call settles, and whether [new URL(url)] accepts a text. *)
Record runtime : Type := {
  has_fetch : bool;
  fetch_result : completion unit;
  URL_ok : string → bool
}.

(** The response as a callback reads it; its listener table is kept in
    the world beside it. *)
Record response : Type := {
  statusCode : Z;
  res_headers : obj;
  headersSent : bool
}.

Record request : Type := {
  method : string;
  req_originalUrl : option string;
  req_url : string;
  req_ip : option string;
  headers : obj;
  remoteAddress : option string;
  body : value
}.

(** Options of [loggingMiddleware(opts)]; [None] is an absent property.
    The callbacks are given by what a call answers; the call itself is an
    effect of the world. *)
Record options : Type := {
  opt_logger : option (value → completion unit);
  opt_format : option (obj → completion value);
  opt_skip : option (obj → request → response → completion value);
  opt_json : option bool;
  opt_includeHeaders : option bool;
  opt_includeBody : option bool;
  opt_redactKeys : option (list string);
  opt_maxBodyLength : option Z;
  opt_requestIdHeader : option string;
  opt_generateId : option (clock → value);
  opt_skipPaths : option (list rule);
  opt_remoteLogUrl : option string;
  opt_authToken : option string;
  opt_remoteStack : option string;
  opt_remotePackage : option string;
  opt_defaultLevel : option string;
  opt_logClientId : option string
}.

(** The constants bound by the destructuring of [opts]. *)
Record config : Type := {
  logger : value → completion unit;
  format : option (obj → completion value);
  skip : option (obj → request → response → completion value);
  json : bool;
  includeHeaders : bool;
  includeBody : bool;
  redactKeys : list string;
  maxBodyLength : Z;
  requestIdHeader : string;
  generateId : clock → value;
  skipPaths : list rule;
  remoteLogUrl : option string;
  authToken : option string;
  remoteStack : string;
  remotePackage : string;
  defaultLevel : string;
  logClientId : option string
}.

(** What the closure [onFinish] captures from the request handler. *)
Record closure : Type := {
  cl_cfg : config;
  cl_req : request;
  cl_originalUrl : string;
  cl_ip : value;
  cl_requestId : value
}.

(** A listener registered on the response: the [onFinish] closure of this
    request, or a listener of somebody else. A response object serves one
    request, so at most one [onFinish] closure lives on it and the
    constructor stands for the identity of the function. *)
Inductive listener : Type :=
| L_onFinish (c : closure)
| L_other (n : nat).

Definition is_onFinish (l : listener) : bool :=
  match l with
  | L_onFinish _ => true
  | L_other _ => false
  end.

(** Observable effects, in the order they happen. [EEntry] is a ghost
    effect: it marks the point where [onFinish] has completed the entry
    object (after the optional header and body fields). [EPostToRemote]
    marks the call of [postToRemote] by a caller. *)
Inductive effect : Type :=
| ESetHeader (name : string) (v : value)
| ENext
| EEntry (entry : obj)
| ELogger (message : value)
| EPostToRemote (url token : string) (payload : obj)
| EFetch (url : string) (hdrs : obj) (body : option string)
| EHttpRequest (url : string) (hdrs : obj) (body : string)
| EConsoleError (err : value)
| EOtherListener (n : nat).

Record world : Type := {
  res : response;
  listeners : list (evname * listener);
  now : clock;
  net : runtime;
  trace : list effect
}.

(** ** The monad of effectful code *)

Definition M (A : Type) : Type := world → completion A * world.

#[global] Instance M_ret : MRet M := λ A a w, (Normal a, w).

#[global] Instance M_bind : MBind M := λ A B k m w,
  match m w with
  | (Normal a, w') => k a w'
  | (Throw e, w') => (Throw e, w')
  end.

Definition ret {A} (a : A) : M A := mret a.

Definition throw {A} (e : value) : M A := λ w, (Throw e, w).

Definition lift {A} (c : completion A) : M A := λ w, (c, w).

Definition tell (e : effect) : M unit :=
  λ w, (Normal tt, {| res := res w; listeners := listeners w; now := now w;
                      net := net w; trace := trace w ++ [e] |}).

Definition get_world : M world := λ w, (Normal w, w).

Definition set_res (r : response) : M unit :=
  λ w, (Normal tt, {| res := r; listeners := listeners w; now := now w;
                      net := net w; trace := trace w |}).

Definition set_listeners (ls : list (evname * listener)) : M unit :=
  λ w, (Normal tt, {| res := res w; listeners := ls; now := now w;
                      net := net w; trace := trace w |}).

(** [try { m } catch (e) { h e }] *)
Definition try_catch_M {A} (m : M A) (h : value → M A) : M A :=
  λ w, match m w with
       | (Normal a, w') => (Normal a, w')
       | (Throw e, w') => h e w'
       end.

(** [try { m } finally { f }]: [f] always runs; when it completes normally
    the outcome of [m] stands. *)
Definition try_finally_M {A} (m : M A) (f : M unit) : M A :=
  λ w, match m w with
       | (c, w') =>
           match f w' with
           | (Normal _, w'') => (c, w'')
           | (Throw e, w'') => (Throw e, w'')
           end
       end.

(** ** The response object *)

(** [res.getHeader(name)]: names are case-insensitive. *)
Definition getHeader (r : response) (name : string) : value :=
  of_opt (obj_get (toLowerCase name) (res_headers r)).

(** The checks of Node's [setHeader] ([validateHeaderName] and
    [validateHeaderValue] of [_http_outgoing]): a header name is a
    non-empty HTTP token, and the text of a header value holds only a tab,
    printable ASCII or the code units 0x80..0xFF. *)
Definition is_token_char (c : ascii) : bool :=
  let n := N_of_ascii c in
  (((48 <=? n) && (n <=? 57)) || ((65 <=? n) && (n <=? 90)) || ((97 <=? n) && (n <=? 122))
   || existsb (N.eqb n) [33; 35; 36; 37; 38; 39; 42; 43; 45; 46; 94; 95; 96; 124; 126])%N.

Definition is_http_token (name : string) : bool :=
  negb (String.eqb name "") && all_chars is_token_char name.

Definition is_header_char (c : ascii) : bool :=
  let n := N_of_ascii c in
  ((n =? 9) || ((32 <=? n) && (n <=? 126)) || (128 <=? n))%N.

Definition is_header_text (s : string) : bool := all_chars is_header_char s.

(** [res.setHeader(name, v)]: throws once the headers are sent, for a name
    that is not a token, for the value [undefined], and for a value whose
    text holds an invalid character; otherwise the value is stored as it
    is, under the lower-cased name. *)
Definition setHeader (name : string) (v : value) : M unit :=
  w ← get_world;
  if headersSent (res w)
  then throw (VStr "Error [ERR_HTTP_HEADERS_SENT]")
  else if negb (is_http_token name)
  then throw (TypeError "[ERR_INVALID_HTTP_TOKEN]")
  else
    match v with
    | VUndefined => throw (TypeError "[ERR_HTTP_INVALID_HEADER_VALUE]")
    | _ =>
        if negb (is_header_text (ToString v))
        then throw (TypeError "[ERR_INVALID_CHAR]")
        else
          set_res {| statusCode := statusCode (res w);
                     res_headers := obj_set (toLowerCase name) v (res_headers (res w));
                     headersSent := false |};;
          tell (ESetHeader name v)
    end.

(** [res.on(ev, l)]: the listener goes to the end of the list. *)
Definition res_on (ev : evname) (l : listener) : M unit :=
  w ← get_world;
  set_listeners (listeners w ++ [(ev, l)]).

(** Remove the last element that satisfies [p] (Node looks from the end). *)
Fixpoint remove_last {A} (p : A → bool) (l : list A) : list A :=
  match l with
  | [] => []
  | x :: r =>
      if p x && negb (existsb p r) then r else x :: remove_last p r
  end.

(** [res.removeListener(ev, onFinish)] *)
Definition removeListener_onFinish (ev : evname) : M unit :=
  w ← get_world;
  set_listeners (remove_last (λ p, evname_eqb p.1 ev && is_onFinish p.2) (listeners w)).

(** ** Remote delivery *)

(** The headers of the [fetch] call. *)
Definition remote_headers (token : string) : obj :=
  [("content-type", VStr "application/json");
   ("authorization", VStr ("Bearer " +:+ token))].

(** The headers of the [node:http(s)] request: the same, and
    [content-length: Buffer.byteLength(body)], the length of the body in
    UTF-8. *)
Definition http_headers (token body : string) : obj :=
  [("content-type", VStr "application/json");
   ("authorization", VStr ("Bearer " +:+ token));
   ("content-length", VNum (Z.of_nat (length (utf8 body))))].

(** [postToRemote(url, token, payload)]: the promise it returns, as the
    outcome the caller sees when it settles. Everything inside is under one
    [try], whose [catch] is empty. [EFetch] is the call of [fetch];
    [EHttpRequest] is the request that [mod.request] has accepted and
    [req.end(body)] has sent off. Without [fetch], [new URL(url)] throws
    for a text that is no URL, [Buffer.byteLength] throws for a body that
    is [undefined], and [mod.request] throws for an [authorization] value
    that is no header text. *)
Definition postToRemote (url token : string) (payload : value) : M unit :=
  try_catch_M
    (body ← lift (JSON_stringify payload);
     w ← get_world;
     if has_fetch (net w) then
       tell (EFetch url (remote_headers token) body);;
       lift (fetch_result (net w))
     else
       if URL_ok (net w) url then
         match body with
         | Some b =>
             if is_header_text ("Bearer " +:+ token)
             then tell (EHttpRequest url (http_headers token b) b)
             else throw (TypeError "[ERR_INVALID_CHAR]")
         | None => throw (TypeError "The string argument must be of type string")
         end
       else throw (TypeError "Invalid URL"))
    (λ _, ret tt).

(** [sendLog(stack, level, pkg, message, extra)] (exported as [Log]): the
    value its promise settles with. *)
Definition sendLog (env : gmap string string)
    (stack level pkg message : value) (extra : obj) : M value :=
  let url := env !! "LOG_API_URL" in
  let token := env !! "LOG_API_TOKEN" in
  if negb (truthy_str url) || negb (truthy_str token) then ret (VBool false)
  else
    let u := default "" url in
    let t := default "" token in
    let payload :=
      obj_set "logId"
        (vor (of_opt_str (env !! "LOG_CLIENT_ID")) (of_opt (obj_get "logId" extra)))
        (obj_spread
           [("stack", VStr (toLowerCase (ToString (vor stack (VStr "")))));
            ("level", VStr (toLowerCase (ToString (vor level (VStr "info")))));
            ("package", VStr (ToString (vor pkg (VStr ""))));
            ("message", VStr (ToString (vor message (VStr ""))))]
           extra) in
    try_catch_M
      (tell (EPostToRemote u t payload);;
       postToRemote u t (VObj payload);;
       ret (VBool true))
      (λ _, ret (VBool false)).

(** ** The middleware *)

Definition default_redactKeys : list string :=
  ["authorization"; "cookie"; "set-cookie"; "clientsecret"; "password";
   "access_token"; "refresh_token"].

Definition console_log : value → completion unit := λ _, Normal tt.

(** The destructuring of [opts] with its defaults. A default applies when
    the property is absent; the environment is only read inside defaults. *)
Definition resolve_options (env : gmap string string) (opts : options) : config :=
  {| logger := default console_log (opt_logger opts);
     format := opt_format opts;
     skip := opt_skip opts;
     json := default false (opt_json opts);
     includeHeaders := default false (opt_includeHeaders opts);
     includeBody := default false (opt_includeBody opts);
     redactKeys := default default_redactKeys (opt_redactKeys opts);
     maxBodyLength := default 2048 (opt_maxBodyLength opts);
     requestIdHeader := default "x-request-id" (opt_requestIdHeader opts);
     generateId :=
       default (λ c, VStr (defaultIdGenerator (random36 c) (now_ms c)))
               (opt_generateId opts);
     skipPaths := default [] (opt_skipPaths opts);
     remoteLogUrl :=
       match opt_remoteLogUrl opts with
       | Some u => Some u
       | None => or_str (env !! "LOG_API_URL") None
       end;
     authToken :=
       match opt_authToken opts with
       | Some t => Some t
       | None => or_str (env !! "LOG_API_TOKEN") None
       end;
     remoteStack :=
       match opt_remoteStack opts with
       | Some x => x
       | None => toLowerCase (default "" (or_str (env !! "LOG_STACK") (Some "")))
       end;
     remotePackage :=
       match opt_remotePackage opts with
       | Some x => x
       | None => toLowerCase (default "" (or_str (env !! "LOG_PACKAGE") (Some "")))
       end;
     defaultLevel :=
       match opt_defaultLevel opts with
       | Some x => x
       | None => toLowerCase (default "info" (or_str (env !! "LOG_LEVEL") (Some "info")))
       end;
     logClientId :=
       match opt_logClientId opts with
       | Some x => Some x
       | None => or_str (env !! "LOG_CLIENT_ID") None
       end |}.

(** The condition of the delivery branch:
    [remoteLogUrl && authToken && remoteStack && remotePackage]. *)
Definition remote_configured (cfg : config) : bool :=
  truthy_str (remoteLogUrl cfg) && truthy_str (authToken cfg)
  && truthy (VStr (remoteStack cfg)) && truthy (VStr (remotePackage cfg)).

(** The entry of [onFinish]: the literal, then the optional header and
    body fields. It reads the response and the clock. *)
Definition base_entry (c : closure) (r : response) (clk : clock) : obj :=
  [("time", VStr (now_iso clk));
   ("requestId", cl_requestId c);
   ("method", VStr (method (cl_req c)));
   ("url", VStr (cl_originalUrl c));
   ("status", VNum (statusCode r));
   ("duration", VNum (elapsed_ms clk));
   ("ip", cl_ip c);
   ("userAgent", vor (of_opt (obj_get "user-agent" (headers (cl_req c)))) (VStr "-"));
   ("contentLength", number_or_undefined (getHeader r "content-length"))].

Definition build_entry (c : closure) (r : response) (clk : clock) : completion obj :=
  let cfg := cl_cfg c in
  let req := cl_req c in
  let entry := base_entry c r clk in
  let entry :=
    if includeHeaders cfg
    then obj_set "requestHeaders"
           (VObj (redactObjectKeys (Some (headers req)) (Some (redactKeys cfg)))) entry
    else entry in
  if includeBody cfg
  then cbind (safeSerialize (body req)) (λ v,
       cbind (limitSize v (maxBodyLength cfg)) (λ b,
       Normal (obj_set "requestBody" b entry)))
  else Normal entry.

(** The default one-line message. *)
Definition default_line (entry : obj) : string :=
  let f k := ToString (of_opt (obj_get k entry)) in
  f "time" +:+ " " +:+ f "method" +:+ " " +:+ f "url" +:+ " " +:+ f "status"
  +:+ " " +:+ f "duration" +:+ "ms - " +:+ f "ip".

(** The message of an entry: custom formatter, JSON text or default line. *)
Definition format_message (cfg : config) (entry : obj) : completion value :=
  match format cfg with
  | Some fmt => fmt entry
  | None =>
      if json cfg
      then cbind (JSON_stringify (VObj entry)) (λ o, Normal (of_opt_str o))
      else Normal (VStr (default_line entry))
  end.

Definition remote_payload (cfg : config) (message : value) (entry : obj) : obj :=
  [("stack", VStr (remoteStack cfg));
   ("level", VStr (defaultLevel cfg));
   ("package", VStr (remotePackage cfg));
   ("message", message);
   ("context", VObj entry);
   ("logId", of_opt_str (or_str (logClientId cfg) None))].

(** The delivery branch of [onFinish]: remote when all four settings are
    truthy, the local sink otherwise. The promise of [postToRemote] is not
    awaited and its rejection handler is empty. *)
Definition deliver (cfg : config) (message : value) (entry : obj) : M unit :=
  if remote_configured cfg then
    let u := default "" (remoteLogUrl cfg) in
    let t := default "" (authToken cfg) in
    let payload := remote_payload cfg message entry in
    tell (EPostToRemote u t payload);;
    try_catch_M (postToRemote u t (VObj payload)) (λ _, ret tt)
  else
    tell (ELogger message);;
    lift (logger cfg message).

(** The [try] block of [onFinish]. *)
Definition onFinish_body (c : closure) : M unit :=
  let cfg := cl_cfg c in
  w ← get_world;
  entry ← lift (build_entry c (res w) (now w));
  tell (EEntry entry);;
  skipped ←
    match skip cfg with
    | Some sk => v ← lift (sk entry (cl_req c) (res w)); ret (truthy v)
    | None => ret false
    end;
  if skipped : bool then ret tt
  else
    message ← lift (format_message cfg entry);
    deliver cfg message entry.

(** [onFinish]: the body under [try], the report to [console.error] under
    [catch], the removal of both listeners under [finally]. *)
Definition onFinish (c : closure) : M unit :=
  try_finally_M
    (try_catch_M
       (onFinish_body c)
       (λ err, try_catch_M (tell (EConsoleError err)) (λ _, ret tt)))
    (removeListener_onFinish finish;;
     removeListener_onFinish close).

(** [next()] *)
Definition next : M unit := tell ENext.

(** [req.originalUrl || req.url] *)
Definition request_url (req : request) : string :=
  default (req_url req) (or_str (req_originalUrl req) (Some (req_url req))).

(** [req.ip || req.headers['x-forwarded-for'] || req.connection?.remoteAddress || '-'] *)
Definition request_ip (req : request) : value :=
  vor (vor (vor (of_opt_str (req_ip req))
                (of_opt (obj_get "x-forwarded-for" (headers req))))
           (of_opt_str (remoteAddress req)))
      (VStr "-").

(** [req.headers[requestIdHeader]] *)
Definition inbound_id (cfg : config) (req : request) : value :=
  of_opt (obj_get (requestIdHeader cfg) (headers req)).

(** The identifier of the request: the inbound one, or a generated one that
    is put on the response ([setHeader] under an empty [catch]). *)
Definition resolve_request_id (cfg : config) (req : request) : M value :=
  w ← get_world;
  let requestId := inbound_id cfg req in
  if negb (truthy requestId)
  then
    let requestId := generateId cfg (now w) in
    try_catch_M (setHeader (requestIdHeader cfg) requestId) (λ _, ret tt);;
    ret requestId
  else ret requestId.

(** The function [loggingMiddleware(opts)] returns, called on a request
    whose response is in the world. *)
Definition handle_request (cfg : config) (req : request) : M unit :=
  let originalUrl := request_url req in
  let ip := request_ip req in
  requestId ← resolve_request_id cfg req;
  if shouldSkipPath originalUrl (Some (skipPaths cfg)) then next
  else
    let c := {| cl_cfg := cfg; cl_req := req; cl_originalUrl := originalUrl;
                cl_ip := ip; cl_requestId := requestId |} in
    res_on finish (L_onFinish c);;
    res_on close (L_onFinish c);;
    next.

Definition loggingMiddleware (env : gmap string string) (opts : options)
  : request → M unit :=
  handle_request (resolve_options env opts).

(** ** The event emitter of the response and the life of a request *)

Definition call_listener (l : listener) : M unit :=
  match l with
  | L_onFinish c => onFinish c
  | L_other n => tell (EOtherListener n)
  end.

Fixpoint call_all (ls : list listener) : M unit :=
  match ls with
  | [] => ret tt
  | l :: r => call_listener l;; call_all r
  end.

(** [res.emit(ev)]: the listeners registered for [ev] at this moment are
    called in registration order. *)
Definition emit (ev : evname) : M unit :=
  w ← get_world;
  call_all (map snd (filter (λ p, evname_eqb p.1 ev = true) (listeners w))).

(** What can happen to the response after the middleware has run: an
    event fires, a later handler sets the status or a header, the headers
    go out, time passes. *)
Inductive action : Type :=
| AEmit (ev : evname)
| ASetStatus (n : Z)
| ASetHeader (name : string) (v : value)
| AFlushHeaders
| ATick (c : clock).

Definition run_action (a : action) : M unit :=
  match a with
  | AEmit ev => emit ev
  | ASetStatus n =>
      w ← get_world;
      set_res {| statusCode := n; res_headers := res_headers (res w);
                 headersSent := headersSent (res w) |}
  | ASetHeader name v => try_catch_M (setHeader name v) (λ _, ret tt)
  | AFlushHeaders =>
      w ← get_world;
      set_res {| statusCode := statusCode (res w); res_headers := res_headers (res w);
                 headersSent := true |}
  | ATick c =>
      λ w, (Normal tt, {| res := res w; listeners := listeners w; now := c;
                          net := net w; trace := trace w |})
  end.

Fixpoint run_script (s : list action) : M unit :=
  match s with
  | [] => ret tt
  | a :: r => run_action a;; run_script r
  end.

(** A request from the call of the middleware to the end of the script. *)
Definition lifecycle (cfg : config) (req : request) (s : list action) : M unit :=
  handle_request cfg req;; run_script s.

(** A fresh response: status 200, no headers; the listeners on it are
    those of other parties. *)
Definition fresh_response : response :=
  {| statusCode := 200; res_headers := []; headersSent := false |}.

Definition initial_world (others : list (evname * nat)) (c : clock) (rt : runtime) : world :=
  {| res := fresh_response; listeners := map (λ p, (p.1, L_other p.2)) others;
     now := c; net := rt; trace := [] |}.

(** Counting in a trace. *)
Definition is_entry (e : effect) : bool :=
  match e with EEntry _ => true | _ => false end.

Definition is_emission (e : effect) : bool :=
  match e with ELogger _ | EPostToRemote _ _ _ => true | _ => false end.

Definition is_network (e : effect) : bool :=
  match e with EFetch _ _ _ | EHttpRequest _ _ _ => true | _ => false end.

Definition count (p : effect → bool) (t : list effect) : nat :=
  length (filter (λ e, p e = true) t).

(** ** The token creator *)

(** The base64 alphabet. *)
Definition b64_char (n : N) : ascii :=
  ascii_of_N (if (n <? 26)%N then 65 + n
              else if (n <? 52)%N then 97 + (n - 26)
              else if (n <? 62)%N then 48 + (n - 52)
              else if (n =? 62)%N then 43 else 47).

(** [buf.toString('base64')]: three bytes give four characters; one or two
    bytes at the end are padded with [=]. *)
Fixpoint base64 (bs : list ascii) : string :=
  match bs with
  | [] => ""
  | [a] =>
      let x := N_of_ascii a in
      String (b64_char (x / 4)) (String (b64_char (x mod 4 * 16)) "==")
  | [a; b] =>
      let x := N_of_ascii a in
      let y := N_of_ascii b in
      String (b64_char (x / 4))
        (String (b64_char (x mod 4 * 16 + y / 16))
           (String (b64_char (y mod 16 * 4)) "="))
  | a :: b :: c :: r =>
      let x := N_of_ascii a in
      let y := N_of_ascii b in
      let z := N_of_ascii c in
      String (b64_char (x / 4))
        (String (b64_char (x mod 4 * 16 + y / 16))
           (String (b64_char (y mod 16 * 4 + z / 64))
              (String (b64_char (z mod 64)) (base64 r))))
  end.

(** [.replace(/=+$/g, '')] *)
Fixpoint strip_padding (s : string) : string :=
  match s with
  | EmptyString => EmptyString
  | String c r =>
      match strip_padding r with
      | EmptyString => if Ascii.eqb c "=" then EmptyString else String c EmptyString
      | r' => String c r'
      end
  end.

(** [.replace(/x/g, y)] for one character. *)
Fixpoint replace_char (x y : ascii) (s : string) : string :=
  match s with
  | EmptyString => EmptyString
  | String c r => String (if Ascii.eqb c x then y else c) (replace_char x y r)
  end.

(** The three [replace] calls that follow every base64 text. *)
Definition url_safe (s : string) : string :=
  replace_char "/" "_" (replace_char "+" "-" (strip_padding s)).

(** [Buffer.from(x)] on the result of [JSON.stringify]: [undefined] is a
    TypeError. *)
Definition Buffer_from (o : option string) : completion (list ascii) :=
  match o with
  | Some s => Normal (utf8 s)
  | None => Throw (TypeError "The first argument must be of type string")
  end.

(** [enc] of [generateJwt]. *)
Definition enc (o : obj) : completion string :=
  cbind (JSON_stringify (VObj o)) (λ t,
  cbind (Buffer_from t) (λ bytes, Normal (url_safe (base64 bytes)))).

Definition jwt_header : obj := [("alg", VStr "HS256"); ("typ", VStr "JWT")].

(** The payload object: [{ iat: nowSec, ...claims }], then [exp] when the
    expiry is a positive finite number. *)
Definition jwt_body (claims : obj) (expiresInSeconds : option Z) (nowSec : Z) : obj :=
  let body := obj_spread [("iat", VNum nowSec)] claims in
  match expiresInSeconds with
  | Some e => if 0 <? e then obj_set "exp" (VNum (nowSec + e)) body else body
  | None => body
  end.

(** The default of the [secret] parameter:
    [process.env.JWT_SECRET || 'dev-secret']. *)
Definition resolve_secret (env : gmap string string) (secret : option string) : string :=
  match secret with
  | Some s => s
  | None => default "dev-secret" (or_str (env !! "JWT_SECRET") (Some "dev-secret"))
  end.

(** The character after [.replace(/\+/g, '-').replace(/\//g, '_')]. *)
Definition url_char (c : ascii) : ascii :=
  let c' := if Ascii.eqb c "+" then "-"%char else c in
  if Ascii.eqb c' "/" then "_"%char else c'.

Section Signer.

(** [createHmac('sha256', key).update(data).digest()] of [node:crypto]:
    key bytes, data bytes, digest bytes. *)
Variable hmac_sha256 : list ascii → list ascii → list ascii.

(** [generateJwt(claims, secret, { expiresInSeconds })]. [None] is an
    absent argument; [expiresInSeconds] is [None] when it is absent or
    not a finite number. [now_ms] is [Date.now()]. *)
Definition generateJwt (env : gmap string string) (now_ms : Z)
    (claims : option obj) (secret : option string)
    (expiresInSeconds : option Z) : completion string :=
  let claims := default [] claims in
  let secret := resolve_secret env secret in
  let nowSec := now_ms `div` 1000 in
  let body := jwt_body claims expiresInSeconds nowSec in
  cbind (enc jwt_header) (λ h,
  cbind (enc body) (λ b,
  let data := h +:+ "." +:+ b in
  let sig := url_safe (base64 (hmac_sha256 (utf8 secret) (utf8 data))) in
  Normal (data +:+ "." +:+ sig))).

(** [generateJwt] called with any value in the place of the secret. The
    default applies to [undefined] only and a text is the key;
    [createHmac] throws a TypeError for every other value of the model,
    after both segments have been encoded. *)
Definition generateJwt_with (env : gmap string string) (now_ms : Z)
    (claims : option obj) (secret : value)
    (expiresInSeconds : option Z) : completion string :=
  match secret with
  | VUndefined => generateJwt env now_ms claims None expiresInSeconds
  | VStr s => generateJwt env now_ms claims (Some s) expiresInSeconds
  | _ =>
      cbind (enc jwt_header) (λ _,
      cbind (enc (jwt_body (default [] claims) expiresInSeconds (now_ms `div` 1000))) (λ _,
      Throw (TypeError "[ERR_INVALID_ARG_TYPE]: The key argument must be of type string")))
  end.
End Signer.

(** *** Reading a token back (what a verifier does) *)

Definition b64url_value (c : ascii) : option N :=
  let n := N_of_ascii c in
  if ((65 <=? n) && (n <=? 90))%N then Some (n - 65)%N
  else if ((97 <=? n) && (n <=? 122))%N then Some (n - 97 + 26)%N
  else if ((48 <=? n) && (n <=? 57))%N then Some (n - 48 + 52)%N
  else if (n =? 45)%N then Some 62%N
  else if (n =? 95)%N then Some 63%N
  else None.

Definition is_b64url_char (c : ascii) : bool :=
  match b64url_value c with Some _ => true | None => false end.

(** Unpadded URL-safe base64 to bytes. *)
Fixpoint b64url_decode (s : string) : option (list ascii) :=
  match s with
  | EmptyString => Some []
  | String c1 (String c2 EmptyString) =>
      match b64url_value c1, b64url_value c2 with
      | Some s1, Some s2 => Some [ascii_of_N (s1 * 4 + s2 / 16)%N]
      | _, _ => None
      end
  | String c1 (String c2 (String c3 EmptyString)) =>
      match b64url_value c1, b64url_value c2, b64url_value c3 with
      | Some s1, Some s2, Some s3 =>
          Some [ascii_of_N (s1 * 4 + s2 / 16)%N; ascii_of_N (s2 mod 16 * 16 + s3 / 4)%N]
      | _, _, _ => None
      end
  | String c1 (String c2 (String c3 (String c4 r))) =>
      match b64url_value c1, b64url_value c2, b64url_value c3, b64url_value c4,
            b64url_decode r with
      | Some s1, Some s2, Some s3, Some s4, Some bs =>
          Some (ascii_of_N (s1 * 4 + s2 / 16)%N
                :: ascii_of_N (s2 mod 16 * 16 + s3 / 4)%N
                :: ascii_of_N (s3 mod 4 * 64 + s4)%N :: bs)
      | _, _, _, _, _ => None
      end
  | String _ EmptyString => None
  end.

(** [token.split('.')] *)
Fixpoint split_dots (s : string) : list string :=
  match s with
  | EmptyString => [EmptyString]
  | String c r =>
      if Ascii.eqb c "." then EmptyString :: split_dots r
      else match split_dots r with
           | x :: xs => String c x :: xs
           | [] => [String c EmptyString]
           end
  end.

(** ** Vocabulary of the statements *)

(** The world with more effects at the end of its trace. *)
Definition add_trace (d : list effect) (w : world) : world :=
  {| res := res w; listeners := listeners w; now := now w; net := net w;
     trace := trace w ++ d |}.

(** [setHeader] accepts a name and a value on a response: the headers
    are not sent, the name is a token, the value is not [undefined] and its
    text is a header text. *)
Definition header_accepted (r : response) (name : string) (v : value) : bool :=
  negb (headersSent r) && is_http_token name
  && match v with
     | VUndefined => false
     | _ => is_header_text (ToString v)
     end.

(** The response with one more header. *)
Definition with_header (name : string) (v : value) (r : response) : response :=
  {| statusCode := statusCode r;
     res_headers := obj_set (toLowerCase name) v (res_headers r);
     headersSent := false |}.

(** A setting is present: a string that is not empty. *)
Definition nonempty (o : option string) : Prop := ∃ s, o = Some s ∧ s ≠ "".

(** A key matches a sensitive name when both are equal up to case. *)
Definition ci_match (k : string) (names : list string) : Prop :=
  ∃ n, n ∈ names ∧ toLowerCase n = toLowerCase k.

(** Sample data for the examples. *)
Definition sample_clock : clock :=
  {| now_iso := "2024-11-02T08:00:00.000Z"; now_ms := 1730534400000;
     elapsed_ms := 12; random36 := "0.4fzyo82mvyr" |}.

Definition sample_runtime : runtime :=
  {| has_fetch := true; fetch_result := Normal tt; URL_ok := λ _, true |}.

(** A runtime whose [fetch] rejects (the network is down). *)
Definition sample_runtime_down : runtime :=
  {| has_fetch := true; fetch_result := Throw (TypeError "fetch failed");
     URL_ok := λ _, true |}.

Definition sample_env : gmap string string :=
  {[ "LOG_API_URL" := "http://logs.example/ingest"; "LOG_API_TOKEN" := "tok" ]}.

Definition no_options : options :=
  {| opt_logger := None; opt_format := None; opt_skip := None; opt_json := None;
     opt_includeHeaders := None; opt_includeBody := None; opt_redactKeys := None;
     opt_maxBodyLength := None; opt_requestIdHeader := None; opt_generateId := None;
     opt_skipPaths := None; opt_remoteLogUrl := None; opt_authToken := None;
     opt_remoteStack := None; opt_remotePackage := None; opt_defaultLevel := None;
     opt_logClientId := None |}.

Definition sample_request : request :=
  {| method := "GET"; req_originalUrl := Some "/status/abc"; req_url := "/status/abc";
     req_ip := Some "10.0.0.7";
     headers := [("user-agent", VStr "curl/8.0"); ("x-request-id", VStr "abc-1")];
     remoteAddress := None; body := VUndefined |}.

(** Both removals of the [finally] block of [onFinish]. *)
Definition unregister (w : world) : world :=
  {| res := res w;
     listeners :=
       remove_last (λ p, evname_eqb p.1 close && is_onFinish p.2)
         (remove_last (λ p, evname_eqb p.1 finish && is_onFinish p.2) (listeners w));
     now := now w; net := net w; trace := trace w |}.

(** No [onFinish] closure is registered. *)
Definition others_only (ls : list (evname * listener)) : Prop :=
  Forall (λ p, is_onFinish p.2 = false) ls.

(** The closure [c] is registered once on each channel, after the
    listeners of other parties. *)
Definition armed (c : closure) (w : world) : Prop :=
  ∃ ls, others_only ls
        ∧ listeners w = ls ++ [(finish, L_onFinish c); (close, L_onFinish c)].

(** Effects that are neither an entry, nor an emission, nor a network
    request, nor a diagnostic. *)
Definition is_quiet (e : effect) : bool :=
  match e with
  | ESetHeader _ _ | ENext | EOtherListener _ => true
  | _ => false
  end.

Definition is_emit (a : action) : bool :=
  match a with AEmit _ => true | _ => false end.

(** The message that reaches the delivery branch for an entry, if any:
    none when the skip predicate answers a truthy value, and none when the
    predicate or the formatter throws. *)
Definition delivered_message (c : closure) (entry : obj) (r : response) : option value :=
  let cfg := cl_cfg c in
  match (match skip cfg with
         | Some sk => sk entry (cl_req c) r
         | None => Normal (VBool false)
         end) with
  | Normal v =>
      if truthy v then None
      else match format_message cfg entry with
           | Normal m => Some m
           | Throw _ => None
           end
  | Throw _ => None
  end.

(** The identifier the handler settles on: the inbound one when it is
    truthy, else what the generator answers at that moment. *)
Definition request_id (cfg : config) (req : request) (clk : clock) : value :=
  if truthy (inbound_id cfg req) then inbound_id cfg req else generateId cfg clk.

(** The closure that the handler registers for a request. *)
Definition mk_closure (cfg : config) (req : request) (clk : clock) : closure :=
  {| cl_cfg := cfg; cl_req := req; cl_originalUrl := request_url req;
     cl_ip := request_ip req; cl_requestId := request_id cfg req clk |}.

(** A path matches an exemption rule: by literal prefix, or by the test
    of the pattern. *)
Definition rule_applies (url : string) (r : rule) : Prop :=
  match r with
  | RString p => ∃ rest, url = p +:+ rest
  | RRegExp test => test url = true
  | ROther _ => False
  end.

(** The configuration with every option absent and an empty environment,
    and variations of it. *)
Definition default_config : config := resolve_options ∅ no_options.

Definition with_skip (sk : obj → request → response → completion value)
    (cfg : config) : config :=
  {| logger := logger cfg; format := format cfg; skip := Some sk; json := json cfg;
     includeHeaders := includeHeaders cfg; includeBody := includeBody cfg;
     redactKeys := redactKeys cfg; maxBodyLength := maxBodyLength cfg;
     requestIdHeader := requestIdHeader cfg; generateId := generateId cfg;
     skipPaths := skipPaths cfg; remoteLogUrl := remoteLogUrl cfg;
     authToken := authToken cfg; remoteStack := remoteStack cfg;
     remotePackage := remotePackage cfg; defaultLevel := defaultLevel cfg;
     logClientId := logClientId cfg |}.

Definition with_format (fmt : obj → completion value) (cfg : config) : config :=
  {| logger := logger cfg; format := Some fmt; skip := skip cfg; json := json cfg;
     includeHeaders := includeHeaders cfg; includeBody := includeBody cfg;
     redactKeys := redactKeys cfg; maxBodyLength := maxBodyLength cfg;
     requestIdHeader := requestIdHeader cfg; generateId := generateId cfg;
     skipPaths := skipPaths cfg; remoteLogUrl := remoteLogUrl cfg;
     authToken := authToken cfg; remoteStack := remoteStack cfg;
     remotePackage := remotePackage cfg; defaultLevel := defaultLevel cfg;
     logClientId := logClientId cfg |}.

Definition with_skipPaths (rules : list rule) (cfg : config) : config :=
  {| logger := logger cfg; format := format cfg; skip := skip cfg; json := json cfg;
     includeHeaders := includeHeaders cfg; includeBody := includeBody cfg;
     redactKeys := redactKeys cfg; maxBodyLength := maxBodyLength cfg;
     requestIdHeader := requestIdHeader cfg; generateId := generateId cfg;
     skipPaths := rules; remoteLogUrl := remoteLogUrl cfg;
     authToken := authToken cfg; remoteStack := remoteStack cfg;
     remotePackage := remotePackage cfg; defaultLevel := defaultLevel cfg;
     logClientId := logClientId cfg |}.

Definition with_includeBody (cfg : config) : config :=
  {| logger := logger cfg; format := format cfg; skip := skip cfg; json := json cfg;
     includeHeaders := includeHeaders cfg; includeBody := true;
     redactKeys := redactKeys cfg; maxBodyLength := maxBodyLength cfg;
     requestIdHeader := requestIdHeader cfg; generateId := generateId cfg;
     skipPaths := skipPaths cfg; remoteLogUrl := remoteLogUrl cfg;
     authToken := authToken cfg; remoteStack := remoteStack cfg;
     remotePackage := remotePackage cfg; defaultLevel := defaultLevel cfg;
     logClientId := logClientId cfg |}.

(** A request without an inbound identifier and with an empty text body. *)
Definition anonymous_request : request :=
  {| method := "POST"; req_originalUrl := None; req_url := "/shorten";
     req_ip := None; headers := [("user-agent", VStr "curl/8.0")];
     remoteAddress := Some "127.0.0.1"; body := VStr "" |}.

Definition health_request : request :=
  {| method := "GET"; req_originalUrl := Some "/health"; req_url := "/health";
     req_ip := None; headers := []; remoteAddress := None; body := VUndefined |}.

(** ** Vocabulary of the further properties *)

(** A value that [JSON.parse] can produce: no [undefined], function or
    BigInt anywhere inside. *)
Fixpoint json_clean (v : value) : bool :=
  match v with
  | VUndefined | VFun | VBigInt _ => false
  | VNull | VBool _ | VNum _ | VStr _ => true
  | VArr xs => forallb json_clean xs
  | VObj ps => forallb (λ kv, json_clean kv.2) ps
  end.

(** The value can serve as the key of [createHmac]: it is absent (the
    default is taken) or a text. *)
Definition usable_secret (v : value) : bool :=
  match v with
  | VUndefined | VStr _ => true
  | _ => false
  end.

(** The fields of the entry literal of [onFinish], in their order. *)
Definition base_keys : list string :=
  ["time"; "requestId"; "method"; "url"; "status"; "duration"; "ip"; "userAgent";
   "contentLength"].

(** A configuration with [includeHeaders: true]. *)
Definition with_includeHeaders (cfg : config) : config :=
  {| logger := logger cfg; format := format cfg; skip := skip cfg; json := json cfg;
     includeHeaders := true; includeBody := includeBody cfg;
     redactKeys := redactKeys cfg; maxBodyLength := maxBodyLength cfg;
     requestIdHeader := requestIdHeader cfg; generateId := generateId cfg;
     skipPaths := skipPaths cfg; remoteLogUrl := remoteLogUrl cfg;
     authToken := authToken cfg; remoteStack := remoteStack cfg;
     remotePackage := remotePackage cfg; defaultLevel := defaultLevel cfg;
     logClientId := logClientId cfg |}.

(** A request with a credential in a header and one in the body. *)
Definition login_request : request :=
  {| method := "POST"; req_originalUrl := Some "/auth"; req_url := "/auth";
     req_ip := Some "10.0.0.7";
     headers := [("Authorization", VStr "Bearer abc"); ("accept", VStr "*/*")];
     remoteAddress := None;
     body := VObj [("password", VStr "p@ss")] |}.

(** The emissions of a trace, in order. *)
Definition emissions (t : list effect) : list effect :=
  filter (λ e, is_emission e = true) t.

(** The network requests of a trace, in order. *)
Definition network_requests (t : list effect) : list effect :=
  filter (λ e, is_network e = true) t.

(** What the delivery branch hands over for a message: the call of
    [postToRemote] in remote mode, the call of the local sink otherwise. *)
Definition emission_of (cfg : config) (message : value) (entry : obj) : effect :=
  if remote_configured cfg
  then EPostToRemote (default "" (remoteLogUrl cfg)) (default "" (authToken cfg))
         (remote_payload cfg message entry)
  else ELogger message.


(** Reading a base-36 text back. *)
Definition digit36_value (c : ascii) : option N :=
  let n := N_of_ascii c in
  if ((48 <=? n) && (n <=? 57))%N then Some (n - 48)%N
  else if ((97 <=? n) && (n <=? 122))%N then Some (n - 87)%N
  else None.

Fixpoint parse36_go (s : string) (acc : N) : option N :=
  match s with
  | EmptyString => Some acc
  | String c r =>
      match digit36_value c with
      | Some d => parse36_go r (acc * 36 + d)
      | None => None
      end
  end.

Definition parse36 (s : string) : option N :=
  match s with
  | EmptyString => None
  | _ => parse36_go s 0
  end.

(** The options of [backend/server.js]:
    [logging({ includeHeaders: true, includeBody: true })]. *)
Definition server_options : options :=
  {| opt_logger := None; opt_format := None; opt_skip := None; opt_json := None;
     opt_includeHeaders := Some true; opt_includeBody := Some true;
     opt_redactKeys := None; opt_maxBodyLength := None; opt_requestIdHeader := None;
     opt_generateId := None; opt_skipPaths := None; opt_remoteLogUrl := None;
     opt_authToken := None; opt_remoteStack := None; opt_remotePackage := None;
     opt_defaultLevel := None; opt_logClientId := None |}.

(** * Properties *)

(** ** Strings and objects *)

Example stringify_sample :
  JSON_stringify (VObj [("a", VNum 1); ("u", VUndefined); ("b", VArr [VStr "x"; VFun; VNull])])
  = Normal (Some (dq "{'a':1,'b':['x',null,null]}")).
Proof. vm_compute. reflexivity. Qed.

Example base36_sample : toString36 1730534400000 = "m2zvi0w0".
Proof. vm_compute. reflexivity. Qed.

Example generateJwt_sample :
  generateJwt (λ _ _, []) ∅ 1730534400123 (Some [("sub", VStr "user-123")]) (Some "s") (Some 3600)
  = Normal ("eyJhbGciOiJIUzI1NiIsInR5cCI6IkpXVCJ9"
            +:+ ".eyJpYXQiOjE3MzA1MzQ0MDAsInN1YiI6InVzZXItMTIzIiwiZXhwIjoxNzMwNTM4MDAwfQ"
            +:+ ".").
Proof. vm_compute. reflexivity. Qed.

Lemma append_cons (c : ascii) (s t : string) : String c s +:+ t = String c (s +:+ t).
Proof. reflexivity. Qed.

Lemma append_nil_l (t : string) : "" +:+ t = t.
Proof. reflexivity. Qed.

Lemma append_nil_r (s : string) : s +:+ "" = s.
Proof. induction s as [|c s IH]; [reflexivity|]. now rewrite append_cons, IH. Qed.

Lemma append_assoc (a b c : string) : (a +:+ b) +:+ c = a +:+ (b +:+ c).
Proof. induction a as [|x a IH]; [reflexivity|]. now rewrite !append_cons, IH. Qed.

Lemma length_append (a b : string) :
  String.length (a +:+ b) = (String.length a + String.length b)%nat.
Proof. induction a as [|x a IH]; [reflexivity|]. rewrite append_cons. simpl. now rewrite IH. Qed.

Lemma str_take_drop (n : nat) (s : string) : str_take n s +:+ str_drop n s = s.
Proof.
  revert s; induction n as [|n IH]; intros [|c r]; simpl; try reflexivity.
  change (String c (str_take n r +:+ str_drop n r) = String c r).
  f_equal. apply IH.
Qed.

Lemma str_take_length (n : nat) (s : string) :
  (n ≤ String.length s)%nat → String.length (str_take n s) = n.
Proof.
  revert s; induction n as [|n IH]; intros [|c r]; simpl; intros H; try lia.
  rewrite IH; lia.
Qed.

Lemma str_length_nonneg (s : string) : 0 ≤ str_length s.
Proof. unfold str_length; lia. Qed.

Lemma str_slice_prefix (s : string) (max : Z) :
  0 ≤ max ≤ str_length s → str_slice s 0 max = str_take (Z.to_nat max) s.
Proof.
  intros [H0 H1]. unfold str_slice, slice_pos.
  pose proof (str_length_nonneg s) as Hl.
  replace (0 <? 0) with false by reflexivity.
  destruct (max <? 0) eqn:E; [apply Z.ltb_lt in E; lia|].
  rewrite (Z.min_l 0) by lia. rewrite (Z.min_l max) by lia.
  simpl. f_equal. lia.
Qed.


Example obj_set_sample :
  obj_keys (obj_spread [("iat", VNum 1)] [("1", VStr "x"); ("sub", VStr "u"); ("01", VNull)])
  = ["1"; "iat"; "sub"; "01"]
  ∧ obj_keys (obj_set "2" VNull (obj_set "10" VNull (obj_set "b" VNull (obj_set "3" VNull []))))
    = ["2"; "3"; "10"; "b"]
  ∧ array_index "4294967294" = Some 4294967294%N
  ∧ array_index "4294967295" = None
  ∧ array_index "" = None ∧ array_index "00" = None ∧ array_index "0" = Some 0%N
  ∧ array_index "-1" = None.
Proof. vm_compute. repeat split. Qed.

Example redact_proto_sample :
  redactObjectKeys (Some [("__proto__", VStr "x"); ("a", VStr "y")]) None = [("a", VStr "y")]
  ∧ redact_loop (Some [("__proto__", VObj [("b", VNum 1)]); ("a", VStr "y")]) None
    = {| own := [("a", VStr "y")]; proto := Some (VObj [("b", VNum 1)]) |}.
Proof. vm_compute. repeat split. Qed.

Lemma obj_get_set_eq (k : string) (v : value) (o : obj) :
  obj_get k (obj_set k v o) = Some v.
Proof.
  induction o as [|[k' v'] r IH]; simpl.
  - now rewrite String.eqb_refl.
  - destruct (String.eqb k k') eqn:E; simpl; [now rewrite E|].
    destruct (key_before k k'); simpl; [now rewrite String.eqb_refl|].
    now rewrite E.
Qed.

Lemma obj_get_set_ne (k k' : string) (v : value) (o : obj) :
  k ≠ k' → obj_get k' (obj_set k v o) = obj_get k' o.
Proof.
  intros Hne. induction o as [|[k2 v2] r IH]; simpl.
  - destruct (String.eqb_spec k' k); congruence.
  - destruct (String.eqb_spec k k2) as [->|]; simpl.
    + destruct (String.eqb_spec k' k2); congruence.
    + destruct (key_before k k2); simpl.
      * destruct (String.eqb_spec k' k); [congruence | reflexivity].
      * now rewrite IH.
Qed.

(** A new key that comes before no key of the object goes last. *)
Lemma obj_set_last (k : string) (v : value) (o : obj) :
  k ∉ obj_keys o → (∀ k', k' ∈ obj_keys o → key_before k k' = false) →
  obj_set k v o = o ++ [(k, v)].
Proof.
  induction o as [|[k' v'] r IH]; simpl; intros Hk Hb; [reflexivity|].
  apply not_elem_of_cons in Hk as [Hne Hk].
  destruct (String.eqb_spec k k'); [congruence|].
  rewrite (Hb k') by (apply elem_of_cons; now left).
  rewrite IH; [reflexivity | assumption |].
  intros k2 H2. apply Hb. apply elem_of_cons; now right.
Qed.

Lemma key_before_name (k k' : string) : array_index k = None → key_before k k' = false.
Proof. unfold key_before. now intros ->. Qed.

(** A name that is no array index: a new one goes last, an old one keeps
    its place. *)
Lemma obj_set_fresh (k : string) (v : value) (o : obj) :
  array_index k = None → k ∉ obj_keys o → obj_set k v o = o ++ [(k, v)].
Proof.
  intros Hi Hk. apply obj_set_last; [assumption|].
  intros k' _. now apply key_before_name.
Qed.

Lemma obj_keys_set_name (k : string) (v : value) (o : obj) :
  array_index k = None →
  obj_keys (obj_set k v o) = if bool_decide (k ∈ obj_keys o) then obj_keys o else obj_keys o ++ [k].
Proof.
  intros Hi. induction o as [|[k' v'] r IH]; simpl.
  - reflexivity.
  - rewrite (key_before_name k k' Hi).
    destruct (String.eqb_spec k k') as [->|Hne]; simpl.
    + rewrite bool_decide_eq_true_2 by (apply elem_of_cons; now left). reflexivity.
    + rewrite IH. destruct (decide (k ∈ obj_keys r)) as [Hin|Hin].
      * rewrite !bool_decide_eq_true_2; [reflexivity | apply elem_of_cons; now right | assumption].
      * rewrite !bool_decide_eq_false_2; [reflexivity | | assumption].
        rewrite elem_of_cons. tauto.
Qed.

(** A new key goes before the first key it comes before. *)
Lemma obj_set_insert (k kb : string) (v vb : value) (a r : obj) :
  k ∉ obj_keys a → (∀ k', k' ∈ obj_keys a → key_before k k' = false) →
  k ≠ kb → key_before k kb = true →
  obj_set k v (a ++ (kb, vb) :: r) = a ++ (k, v) :: (kb, vb) :: r.
Proof.
  induction a as [|[k' v'] a IH]; simpl; intros Hk Hb Hne Hkb.
  - destruct (String.eqb_spec k kb); [congruence|]. now rewrite Hkb.
  - apply not_elem_of_cons in Hk as [Hne' Hk].
    destruct (String.eqb_spec k k'); [congruence|].
    rewrite (Hb k') by (apply elem_of_cons; now left).
    rewrite IH; auto. intros k2 H2. apply Hb. apply elem_of_cons; now right.
Qed.

Lemma keys_ordered_app (a b : list string) :
  keys_ordered (a ++ b) = true ↔
  keys_ordered a = true ∧ keys_ordered b = true
  ∧ ∀ x y, x ∈ a → y ∈ b → key_before y x = false.
Proof.
  induction a as [|k a IH]; simpl.
  - split; [intros H; repeat split; auto; intros x y Hx; now apply elem_of_nil in Hx | tauto].
  - rewrite !andb_true_iff, !forallb_forall, IH. setoid_rewrite <- list_elem_of_In.
    split.
    + intros (H1 & H2 & H3 & H4). repeat split; auto.
      * intros x Hx. apply H1. apply elem_of_app; now left.
      * intros x y Hx Hy. apply elem_of_cons in Hx as [->|Hx]; [|now apply H4].
        apply negb_true_iff. apply H1. apply elem_of_app; now right.
    + intros ((H1 & H2) & H3 & H4). repeat split; auto.
      * intros x Hx. apply elem_of_app in Hx as [Hx|Hx]; [now apply H1|].
        apply negb_true_iff. apply H4; [apply elem_of_cons; now left | assumption].
      * intros x y Hx Hy. apply H4; [apply elem_of_cons; now right | assumption].
Qed.

Lemma obj_get_None (k : string) (o : obj) : obj_get k o = None ↔ k ∉ obj_keys o.
Proof.
  induction o as [|[k' v'] r IH]; simpl.
  - split; [intros _; apply not_elem_of_nil | reflexivity].
  - rewrite not_elem_of_cons. destruct (String.eqb_spec k k'); split.
    + discriminate.
    + intros [? _]; congruence.
    + intros H; split; [assumption | now apply IH].
    + intros [_ H]; now apply IH.
Qed.

Lemma obj_get_map (f : string → value → value) (k : string) (o : obj) :
  obj_get k (map (λ kv, (kv.1, f kv.1 kv.2)) o) = f k <$> obj_get k o.
Proof.
  induction o as [|[k' v'] r IH]; simpl; [reflexivity|].
  destruct (String.eqb_spec k k') as [->|]; [reflexivity | exact IH].
Qed.

Lemma obj_keys_app (a b : obj) : obj_keys (a ++ b) = obj_keys a ++ obj_keys b.
Proof. unfold obj_keys. apply map_app. Qed.

(** In a list of own properties, a key comes before none of the keys that
    precede it, and is none of them. *)
Lemma own_properties_mid (a r : obj) (k : string) (v : value) :
  NoDup (obj_keys a ++ k :: obj_keys r) →
  keys_ordered (obj_keys a ++ k :: obj_keys r) = true →
  (k ∉ obj_keys a) ∧ (∀ k', k' ∈ obj_keys a → key_before k k' = false)
  ∧ (k ∉ obj_keys r)
  ∧ NoDup (obj_keys a ++ obj_keys r)
  ∧ keys_ordered (obj_keys a ++ obj_keys r) = true.
Proof.
  intros Hnd Ho.
  apply NoDup_app in Hnd as (Ha & Hd & Hr). apply NoDup_cons in Hr as [Hk Hr].
  apply keys_ordered_app in Ho as (Hoa & Hor & Hx).
  simpl in Hor. apply andb_true_iff in Hor as [Hf Hor].
  split; [|split; [|split; [|split]]].
  - intros Hin. apply (Hd k Hin). apply elem_of_cons; now left.
  - intros k' Hk'. apply Hx; [assumption | apply elem_of_cons; now left].
  - exact Hk.
  - apply NoDup_app. split; [assumption|split; [|assumption]].
    intros x Hx1 Hx2. apply (Hd x Hx1). apply elem_of_cons; now right.
  - apply keys_ordered_app. split; [assumption|split; [assumption|]].
    intros x y Hx1 Hy. apply Hx; [assumption | apply elem_of_cons; now right].
Qed.

(** A loop [for (k in o) out[k] = f(k, o[k])] by own-property definition
    copies the mapped properties in order. *)
Lemma fold_obj_set_map (f : string → value → value) (o acc : obj) :
  NoDup (obj_keys acc ++ obj_keys o) →
  keys_ordered (obj_keys acc ++ obj_keys o) = true →
  fold_left (λ out kv, obj_set kv.1 (f kv.1 kv.2) out) o acc
  = acc ++ map (λ kv, (kv.1, f kv.1 kv.2)) o.
Proof.
  revert acc; induction o as [|[k v] r IH]; intros acc Hnd Ho; simpl.
  - now rewrite app_nil_r.
  - simpl in Hnd, Ho.
    destruct (own_properties_mid acc r k v Hnd Ho) as (Hk & Hb & _).
    rewrite obj_set_last by assumption.
    rewrite IH.
    + now rewrite <- app_assoc.
    + rewrite obj_keys_app. simpl. now rewrite <- app_assoc.
    + rewrite obj_keys_app. simpl. now rewrite <- app_assoc.
Qed.

(** ** The redactor *)

Lemma lowered_set_spec (k : string) (keys : option (list string)) :
  toLowerCase k ∈ lowered_set keys ↔ ci_match k (default [] keys).
Proof.
  unfold lowered_set, ci_match. rewrite elem_of_list_to_set, list_elem_of_fmap.
  split; intros (n & H1 & H2); exists n; split; auto.
Qed.

(** The loop of the redactor on the own properties of an object: every
    property but [__proto__] is copied in order, and an object or [null]
    assigned at [__proto__] becomes the prototype of the copy. *)
Lemma redact_loop_spec (o : obj) (keys : option (list string)) :
  own_properties o →
  redact_loop (Some o) keys
  = {| own := map (λ kv, (kv.1, redact_value (lowered_set keys) kv.1 kv.2))
                (filter (λ kv, kv.1 ≠ "__proto__") o);
       proto := match obj_get "__proto__" o with
                | Some v =>
                    if is_object_or_null (redact_value (lowered_set keys) "__proto__" v)
                    then Some (redact_value (lowered_set keys) "__proto__" v)
                    else None
                | None => None
                end |}.
Proof.
  intros [Hnd Ho]. unfold redact_loop. simpl default.
  set (g := λ kv : string * value, (kv.1, redact_value (lowered_set keys) kv.1 kv.2)).
  set (rv := redact_value (lowered_set keys) "__proto__").
  assert (H : ∀ c : copy,
    NoDup (obj_keys (own c) ++ obj_keys o) →
    keys_ordered (obj_keys (own c) ++ obj_keys o) = true →
    fold_left (λ out kv, obj_assign kv.1 (redact_value (lowered_set keys) kv.1 kv.2) out) o c
    = {| own := own c ++ map g (filter (λ kv, kv.1 ≠ "__proto__") o);
         proto := match obj_get "__proto__" o with
                  | Some v => if is_object_or_null (rv v) then Some (rv v) else proto c
                  | None => proto c
                  end |}).
  { clear Hnd Ho. induction o as [|[k v] r IH]; intros c Hnd Ho.
    - simpl. rewrite app_nil_r. now destruct c.
    - simpl in Hnd, Ho.
      destruct (own_properties_mid (own c) r k v Hnd Ho) as (Hk & Hb & Hkr & Hnd' & Ho').
      cbn [fold_left]. unfold obj_assign at 2. cbn [fst snd].
      destruct (String.eqb_spec k "__proto__") as [->|Hne].
      + rewrite filter_cons_False; [|simpl; intros H; now apply H].
        change (obj_get "__proto__" (("__proto__", v) :: r)) with (Some v).
        apply obj_get_None in Hkr. fold rv. cbv beta iota.
        destruct (is_object_or_null (rv v)) eqn:E.
        * rewrite IH by assumption. simpl. now rewrite Hkr.
        * rewrite IH by assumption. now rewrite Hkr.
      + rewrite filter_cons_True by exact Hne.
        rewrite obj_set_last by assumption.
        rewrite IH.
        * cbn [own proto obj_get fst snd]. rewrite <- app_assoc.
          destruct (String.eqb_spec "__proto__" k); [congruence|].
          reflexivity.
        * simpl. rewrite obj_keys_app. simpl. now rewrite <- app_assoc.
        * simpl. rewrite obj_keys_app. simpl. now rewrite <- app_assoc. }
  rewrite H by assumption. reflexivity.
Qed.

Lemma filter_no_proto (o : obj) :
  "__proto__" ∉ obj_keys o → filter (λ kv : string * value, kv.1 ≠ "__proto__") o = o.
Proof.
  induction o as [|[k v] r IH]; intros Hk; [reflexivity|].
  simpl in Hk. apply not_elem_of_cons in Hk as [Hne Hk].
  rewrite filter_cons_True by (simpl; congruence). now rewrite IH.
Qed.

Lemma redact_loop_plain (o : obj) (keys : option (list string)) :
  own_properties o → "__proto__" ∉ obj_keys o →
  redact_loop (Some o) keys
  = {| own := map (λ kv, (kv.1, redact_value (lowered_set keys) kv.1 kv.2)) o;
       proto := None |}.
Proof.
  intros Ho Hk. rewrite redact_loop_spec by assumption.
  rewrite filter_no_proto by assumption.
  apply obj_get_None in Hk. now rewrite Hk.
Qed.

Lemma redactObjectKeys_filter (o : obj) (keys : option (list string)) :
  own_properties o →
  redactObjectKeys (Some o) keys
  = map (λ kv, (kv.1, redact_value (lowered_set keys) kv.1 kv.2))
      (filter (λ kv, kv.1 ≠ "__proto__") o).
Proof. intros Ho. unfold redactObjectKeys. now rewrite redact_loop_spec. Qed.

Lemma redactObjectKeys_map (o : obj) (keys : option (list string)) :
  own_properties o → "__proto__" ∉ obj_keys o →
  redactObjectKeys (Some o) keys
  = map (λ kv, (kv.1, redact_value (lowered_set keys) kv.1 kv.2)) o.
Proof. intros Ho Hk. unfold redactObjectKeys. now rewrite redact_loop_plain. Qed.

Lemma obj_get_filter_proto (k : string) (o : obj) :
  obj_get k (filter (λ kv : string * value, kv.1 ≠ "__proto__") o)
  = if String.eqb k "__proto__" then None else obj_get k o.
Proof.
  induction o as [|[k' v'] r IH]; simpl.
  - now destruct (String.eqb k "__proto__").
  - destruct (decide (k' = "__proto__")) as [->|Hne].
    + rewrite filter_cons_False by (simpl; intros H; now apply H).
      rewrite IH. destruct (String.eqb_spec k "__proto__"); reflexivity.
    + rewrite filter_cons_True by exact Hne. simpl. rewrite IH.
      destruct (String.eqb_spec k k') as [->|]; [|reflexivity].
      destruct (String.eqb_spec k' "__proto__"); [congruence | reflexivity].
Qed.

(** C5, as the code has it. For the own properties of an object that has
    no property named [__proto__] and every list of sensitive names,
    [redactObjectKeys] returns a new object with the same keys in the same
    order and the prototype of an object literal; a key that matches a
    sensitive name up to case holds [[REDACTED]], every other key holds the
    value of the input; an absent or empty input gives the empty mapping.
    The function is total, so nothing is raised. *)
Theorem redactObjectKeys_spec (o : obj) (keys : option (list string)) :
  own_properties o →
  "__proto__" ∉ obj_keys o →
  obj_keys (redactObjectKeys (Some o) keys) = obj_keys o
  ∧ proto (redact_loop (Some o) keys) = None
  ∧ (∀ k v, obj_get k o = Some v → ci_match k (default [] keys) →
       obj_get k (redactObjectKeys (Some o) keys) = Some (VStr "[REDACTED]"))
  ∧ (∀ k v, obj_get k o = Some v → ¬ ci_match k (default [] keys) →
       obj_get k (redactObjectKeys (Some o) keys) = Some v)
  ∧ redactObjectKeys None keys = []
  ∧ redactObjectKeys (Some []) keys = [].
Proof.
  intros Ho Hp. unfold redactObjectKeys at 1 2 3.
  rewrite redact_loop_plain by assumption. cbn [own proto].
  split; [|split; [reflexivity|split; [|split; [|split; reflexivity]]]].
  - unfold obj_keys. rewrite map_map. reflexivity.
  - intros k v Hget Hm. rewrite obj_get_map, Hget. simpl.
    unfold redact_value. rewrite bool_decide_eq_true_2; [reflexivity|].
    now apply lowered_set_spec.
  - intros k v Hget Hm. rewrite obj_get_map, Hget. simpl.
    unfold redact_value. rewrite bool_decide_eq_false_2; [reflexivity|].
    now rewrite lowered_set_spec.
Qed.

Lemma redactObjectKeys_witness :
  let o := [("Authorization", VStr "Bearer x"); ("accept", VStr "*/*")] in
  obj_keys (redactObjectKeys (Some o) (Some ["authorization"])) = obj_keys o
  ∧ obj_get "Authorization" (redactObjectKeys (Some o) (Some ["authorization"]))
    = Some (VStr "[REDACTED]")
  ∧ obj_get "accept" (redactObjectKeys (Some o) (Some ["authorization"]))
    = Some (VStr "*/*").
Proof.
  intros o.
  assert (Ho : own_properties o).
  { unfold o. split; [compute_done | reflexivity]. }
  assert (Hp : "__proto__" ∉ obj_keys o).
  { unfold o. compute_done. }
  destruct (redactObjectKeys_spec o (Some ["authorization"]) Ho Hp)
    as (H1 & _ & H2 & H3 & _).
  split; [exact H1|split].
  - apply (H2 "Authorization" (VStr "Bearer x")); [reflexivity|].
    exists "authorization". split; [set_solver | reflexivity].
  - apply (H3 "accept" (VStr "*/*")); [reflexivity|].
    intros (n & Hn & Hl). apply list_elem_of_singleton in Hn. subst n. discriminate Hl.
Defined.

(** The claim as written fails for a mapping with a property named
    [__proto__]: the assignment [out[k] = v] reaches the accessor of
    [Object.prototype], so the copy has no such key, and an object found
    there becomes the prototype of the copy. *)
Lemma redactObjectKeys_counterexample :
  (obj_keys [("__proto__", VStr "x"); ("a", VStr "y")] = ["__proto__"; "a"]
   ∧ redactObjectKeys (Some [("__proto__", VStr "x"); ("a", VStr "y")]) (Some [])
     = [("a", VStr "y")])
  ∧ redact_loop (Some [("__proto__", VObj [("admin", VBool true)]); ("a", VStr "y")])
      (Some [])
    = {| own := [("a", VStr "y")]; proto := Some (VObj [("admin", VBool true)]) |}.
Proof. vm_compute. repeat split. Qed.

(** ** The truncator *)

Lemma limitSize_total (v : value) (max : Z) :
  ∃ r, limitSize v max = Normal r ∧ (r = VUndefined ∨ ∃ s, s ≠ "" ∧ r = VStr s).
Proof.
  unfold limitSize. destruct (to_text v) as [[s|]|e]; simpl.
  - destruct (String.eqb_spec s "") as [->|Hne]; simpl.
    + eexists; split; [reflexivity | now left].
    + destruct (str_length s >? max); eexists; (split; [reflexivity|right]).
      * eexists; split; [|reflexivity]. intros H.
        destruct (str_slice s 0 max); discriminate H.
      * now exists s.
  - eexists; split; [reflexivity | now left].
  - eexists; split; [reflexivity | now left].
Qed.

Lemma limitSize_absent (v : value) (max : Z) :
  to_text v = Normal None ∨ to_text v = Normal (Some "") ∨ (∃ e, to_text v = Throw e) →
  limitSize v max = Normal VUndefined.
Proof.
  unfold limitSize. intros [H|[H|[e H]]]; rewrite H; reflexivity.
Qed.

Lemma limitSize_under (v : value) (max : Z) (s : string) :
  to_text v = Normal (Some s) → s ≠ "" → str_length s ≤ max →
  limitSize v max = Normal (VStr s).
Proof.
  intros Ht Hne Hle. unfold limitSize. rewrite Ht; simpl.
  destruct (String.eqb_spec s ""); [congruence|]. simpl.
  destruct (str_length s >? max) eqn:E; [|reflexivity].
  apply Z.gtb_lt in E. lia.
Qed.

Lemma limitSize_over (v : value) (max : Z) (s : string) :
  to_text v = Normal (Some s) → 0 ≤ max < str_length s →
  limitSize v max
  = Normal (VStr (str_take (Z.to_nat max) s +:+ "...("
                  +:+ show_Z (str_length s - max) +:+ " more bytes)")).
Proof.
  intros Ht [H0 Hlt]. unfold limitSize. rewrite Ht; simpl.
  destruct (String.eqb_spec s "") as [->|Hne]; [unfold str_length in Hlt; simpl in Hlt; lia|].
  simpl. destruct (str_length s >? max) eqn:E.
  - rewrite str_slice_prefix by lia. reflexivity.
  - rewrite Z.gtb_ltb in E. apply Z.ltb_ge in E. lia.
Qed.

(** C4, as the code has it. For every value and integer threshold,
    [limitSize] returns normally (a string or [undefined]). When the text
    of the value (the value itself for a string, its JSON text otherwise) is
    not empty: at or under the threshold the result is that text exactly;
    over a threshold that is not negative the result is the first [max]
    characters followed by [...(n more bytes)], where [n] is the number of
    characters left out. An empty text, a text that is [undefined] and a
    failing serialization give [undefined]. *)
Theorem limitSize_spec (v : value) (max : Z) :
  (∃ r, limitSize v max = Normal r)
  ∧ (∀ s, to_text v = Normal (Some s) → s ≠ "" → str_length s ≤ max →
       limitSize v max = Normal (VStr s))
  ∧ (∀ s, to_text v = Normal (Some s) → 0 ≤ max < str_length s →
       ∃ kept dropped,
         s = kept +:+ dropped
         ∧ str_length kept = max
         ∧ str_length dropped = str_length s - max
         ∧ limitSize v max
           = Normal (VStr (kept +:+ "...(" +:+ show_Z (str_length dropped)
                           +:+ " more bytes)")))
  ∧ (to_text v = Normal None ∨ to_text v = Normal (Some "") ∨ (∃ e, to_text v = Throw e) →
       limitSize v max = Normal VUndefined).
Proof.
  split; [|split; [|split]].
  - destruct (limitSize_total v max) as (r & Hr & _). now exists r.
  - intros s. apply limitSize_under.
  - intros s Ht Hm.
    exists (str_take (Z.to_nat max) s), (str_drop (Z.to_nat max) s).
    assert (Hk : str_length (str_take (Z.to_nat max) s) = max).
    { unfold str_length in *. rewrite str_take_length; lia. }
    assert (Hs : s = str_take (Z.to_nat max) s +:+ str_drop (Z.to_nat max) s)
      by (symmetry; apply str_take_drop).
    assert (Hd : str_length (str_drop (Z.to_nat max) s) = str_length s - max).
    { rewrite Hs at 2. unfold str_length in *.
      rewrite length_append. lia. }
    repeat split; try assumption.
    rewrite Hd. now apply limitSize_over.
  - apply limitSize_absent.
Qed.

Lemma limitSize_witness :
  limitSize (VStr "ab") 5 = Normal (VStr "ab")
  ∧ (∃ kept dropped,
       "hello world" = kept +:+ dropped
       ∧ str_length kept = 5
       ∧ str_length dropped = str_length "hello world" - 5
       ∧ limitSize (VStr "hello world") 5
         = Normal (VStr (kept +:+ "...(" +:+ show_Z (str_length dropped)
                         +:+ " more bytes)")))
  ∧ limitSize (VBigInt 1) 5 = Normal VUndefined.
Proof.
  split; [|split].
  - apply (limitSize_spec (VStr "ab") 5); [reflexivity | discriminate | vm_compute; discriminate].
  - apply (limitSize_spec (VStr "hello world") 5); [reflexivity | vm_compute; split; [discriminate | reflexivity]].
  - apply (limitSize_spec (VBigInt 1) 5). right; right. eexists; reflexivity.
Defined.

Example limitSize_sample :
  limitSize (VObj [("k", VStr "0123456789")]) 8
  = Normal (VStr (dq "{'k':'01...(10 more bytes)")).
Proof. vm_compute. reflexivity. Qed.

(** The claim as written fails on the empty text, which is at or under
    every threshold that is not negative and comes back as [undefined], and
    on a negative threshold, where [slice] counts from the end. *)
Lemma limitSize_counterexample :
  (to_text (VStr "") = Normal (Some "")
   ∧ str_length "" ≤ 10
   ∧ limitSize (VStr "") 10 = Normal VUndefined
   ∧ limitSize (VStr "") 10 ≠ Normal (VStr ""))
  ∧ (str_length "hello" > -2
     ∧ limitSize (VStr "hello") (-2) = Normal (VStr "hel...(7 more bytes)")).
Proof.
  repeat split; try reflexivity; try discriminate.
Qed.

(** C10. For every threshold [limitSize] gives [undefined] for the empty
    string and for every value whose text is empty, is [undefined] or cannot
    be produced; so when [includeBody] is set and the request body
    serializes to the empty text, the entry that [onFinish] builds has
    [undefined] in [requestBody] (its JSON text has no such field), also
    when the threshold is not exceeded. *)
Theorem limitSize_empty_absent (max : Z) :
  limitSize (VStr "") max = Normal VUndefined
  ∧ limitSize VUndefined max = Normal VUndefined
  ∧ (∀ v, to_text v = Normal None ∨ to_text v = Normal (Some "")
          ∨ (∃ e, to_text v = Throw e) →
          limitSize v max = Normal VUndefined)
  ∧ (∀ c r clk,
       includeBody (cl_cfg c) = true →
       maxBodyLength (cl_cfg c) = max →
       safeSerialize (body (cl_req c)) = Normal (VStr "") →
       ∃ entry,
         build_entry c r clk = Normal entry
         ∧ obj_get "requestBody" entry = Some VUndefined
         ∧ JSON_stringify (VObj entry)
           = JSON_stringify (VObj (filter (λ kv, kv.1 ≠ "requestBody") entry))).
Proof.
  split; [reflexivity|split; [reflexivity|split; [intros v; apply limitSize_absent|]]].
  intros c r clk Hb Hm Hs. unfold build_entry. rewrite Hb, Hs. simpl.
  eexists; split; [reflexivity|]. split.
  - apply obj_get_set_eq.
  - unfold base_entry. destruct (includeHeaders (cl_cfg c)); reflexivity.
Qed.

(** ** Effectful code: unfolding and the trace *)

Ltac munfold :=
  unfold mbind, M_bind, mret, M_ret, ret, lift, tell, get_world, set_res,
    set_listeners, throw, try_catch_M, try_finally_M in *.

Lemma truthy_str_spec (o : option string) : truthy_str o = true ↔ nonempty o.
Proof.
  unfold nonempty. destruct o as [s|]; simpl.
  - destruct (String.eqb_spec s ""); simpl; split.
    + discriminate.
    + intros (s' & [= <-] & H). congruence.
    + intros _. eauto.
    + reflexivity.
  - split; [discriminate | intros (s & H & _); discriminate].
Qed.

Lemma add_trace_nil (w : world) : add_trace [] w = w.
Proof. destruct w; unfold add_trace; simpl. now rewrite app_nil_r. Qed.

Lemma add_trace_add (d1 d2 : list effect) (w : world) :
  add_trace d2 (add_trace d1 w) = add_trace (d1 ++ d2) w.
Proof. unfold add_trace; simpl. now rewrite app_assoc. Qed.

(** ** Remote delivery *)

(** [postToRemote] settles normally whatever the network does, after at
    most one request. *)
Lemma postToRemote_spec (url token : string) (payload : value) (w : world) :
  ∃ d, postToRemote url token payload w = (Normal tt, add_trace d w)
       ∧ Forall (λ e, is_network e = true) d ∧ (length d ≤ 1)%nat.
Proof.
  unfold postToRemote. munfold.
  destruct (JSON_stringify payload) as [body|e]; simpl.
  - destruct (has_fetch (net w)); simpl.
    + exists [EFetch url (remote_headers token) body].
      split; [|split; [repeat constructor | simpl; lia]].
      destruct (fetch_result (net w)) as [[]|]; reflexivity.
    + destruct (URL_ok (net w) url);
        [destruct body as [b|]; [destruct (is_header_text ("Bearer " +:+ token))|]|]; simpl.
      * exists [EHttpRequest url (http_headers token b) b].
        split; [reflexivity|split; [repeat constructor | simpl; lia]].
      * exists []. rewrite add_trace_nil. split; [reflexivity|split; [constructor|simpl; lia]].
      * exists []. rewrite add_trace_nil. split; [reflexivity|split; [constructor|simpl; lia]].
      * exists []. rewrite add_trace_nil. split; [reflexivity|split; [constructor|simpl; lia]].
  - exists []. rewrite add_trace_nil. split; [reflexivity|split; [constructor|simpl; lia]].
Qed.

(** The two branches of [deliver]. *)
Lemma deliver_cases (cfg : config) (message : value) (entry : obj) (w : world) :
  if remote_configured cfg then
    ∃ u t d,
      remoteLogUrl cfg = Some u ∧ authToken cfg = Some t
      ∧ deliver cfg message entry w
        = (Normal tt,
           add_trace (EPostToRemote u t (remote_payload cfg message entry) :: d) w)
      ∧ Forall (λ e, is_network e = true) d
  else
    deliver cfg message entry w
    = (logger cfg message, add_trace [ELogger message] w).
Proof.
  unfold deliver. destruct (remote_configured cfg) eqn:E.
  - unfold remote_configured in E. rewrite !andb_true_iff in E.
    destruct E as [[[Hu Ht] _] _].
    apply truthy_str_spec in Hu as (u & Hu & _).
    apply truthy_str_spec in Ht as (t & Ht & _).
    rewrite Hu, Ht. simpl.
    destruct (postToRemote_spec u t (VObj (remote_payload cfg message entry))
                (add_trace [EPostToRemote u t (remote_payload cfg message entry)] w))
      as (d & Hd & Hnet & _).
    exists u, t, d. split; [reflexivity|split; [reflexivity|]].
    split; [|exact Hnet].
    munfold. fold (add_trace [EPostToRemote u t (remote_payload cfg message entry)] w).
    rewrite Hd. now rewrite add_trace_add.
  - munfold. reflexivity.
Qed.



(** [sendLog] never raises, and its answer only says whether the endpoint
    and the token are set. *)
Lemma sendLog_result (env : gmap string string)
    (stack level pkg message : value) (extra : obj) (w : world) :
  ∃ d,
    sendLog env stack level pkg message extra w
    = (Normal (VBool (truthy_str (env !! "LOG_API_URL")
                      && truthy_str (env !! "LOG_API_TOKEN"))),
       add_trace d w).
Proof.
  unfold sendLog.
  destruct (truthy_str (env !! "LOG_API_URL")); simpl.
  2:{ exists []. now rewrite add_trace_nil. }
  destruct (truthy_str (env !! "LOG_API_TOKEN")); simpl.
  2:{ exists []. now rewrite add_trace_nil. }
  munfold.
  match goal with |- context [postToRemote ?u ?t ?p ?w'] =>
    destruct (postToRemote_spec u t p w') as (d & Hd & _); rewrite Hd end.
  eexists. unfold add_trace; simpl. rewrite <- app_assoc. reflexivity.
Qed.

(** C7, the code at the failing input: endpoint and token are set, the
    network is down ([fetch] rejects), and [sendLog] still answers [true]:
    [postToRemote] has swallowed the failure, so the [catch] of [sendLog]
    that answers [false] is never reached. *)
Theorem sendLog_failed_delivery_true :
  fetch_result sample_runtime_down = Throw (TypeError "fetch failed")
  ∧ (sendLog sample_env (VStr "backend") (VStr "error") (VStr "handler") (VStr "boom") []
       (initial_world [] sample_clock sample_runtime_down)).1
    = Normal (VBool true)
  ∧ ∀ env stack level pkg message extra w,
      nonempty (env !! "LOG_API_URL") → nonempty (env !! "LOG_API_TOKEN") →
      (sendLog env stack level pkg message extra w).1 = Normal (VBool true).
Proof.
  split; [reflexivity|split; [vm_compute; reflexivity|]].
  intros env stack level pkg message extra w Hu Ht.
  destruct (sendLog_result env stack level pkg message extra w) as (d & ->).
  apply truthy_str_spec in Hu, Ht. now rewrite Hu, Ht.
Qed.


(** ** The completion handler *)

Lemma safeSerialize_total (v : value) : ∃ v', safeSerialize v = Normal v'.
Proof.
  unfold safeSerialize.
  destruct v; try (eexists; reflexivity);
    match goal with |- context [try_catch ?c _] => destruct c; simpl; eexists; reflexivity end.
Qed.

Lemma build_entry_total (c : closure) (r : response) (clk : clock) :
  ∃ entry, build_entry c r clk = Normal entry
           ∧ obj_get "requestId" entry = Some (cl_requestId c).
Proof.
  unfold build_entry. cbv zeta.
  destruct (includeBody (cl_cfg c)).
  - destruct (safeSerialize_total (body (cl_req c))) as (v' & ->).
    unfold cbind at 1.
    destruct (limitSize_total v' (maxBodyLength (cl_cfg c))) as (b & -> & _).
    unfold cbind.
    eexists; split; [reflexivity|].
    rewrite obj_get_set_ne by discriminate.
    destruct (includeHeaders (cl_cfg c)); [rewrite obj_get_set_ne by discriminate|]; reflexivity.
  - eexists; split; [reflexivity|].
    destruct (includeHeaders (cl_cfg c)); [rewrite obj_get_set_ne by discriminate|]; reflexivity.
Qed.

Lemma count_app (p : effect → bool) (a b : list effect) :
  count p (a ++ b) = (count p a + count p b)%nat.
Proof. unfold count. now rewrite filter_app, length_app. Qed.

Lemma count_cons (p : effect → bool) (e : effect) (t : list effect) :
  count p (e :: t) = ((if p e then 1 else 0) + count p t)%nat.
Proof.
  unfold count. rewrite filter_cons. destruct (p e) eqn:E.
  - rewrite decide_True by reflexivity. reflexivity.
  - rewrite decide_False by discriminate. reflexivity.
Qed.

Lemma count_nil (p : effect → bool) : count p [] = 0%nat.
Proof. reflexivity. Qed.

Lemma count_zero (p q : effect → bool) (d : list effect) :
  (∀ e, q e = true → p e = false) → Forall (λ e, q e = true) d → count p d = 0%nat.
Proof.
  intros Hpq H. induction H as [|e d He _ IH]; [reflexivity|].
  rewrite count_cons, (Hpq e He), IH. reflexivity.
Qed.

Lemma quiet_counts (d : list effect) :
  Forall (λ e, is_quiet e = true) d →
  count is_entry d = 0%nat ∧ count is_emission d = 0%nat ∧ count is_network d = 0%nat.
Proof.
  intros H. repeat split; apply (count_zero _ is_quiet); auto; intros []; simpl; congruence.
Qed.

Lemma deliver_counts (cfg : config) (message : value) (entry : obj) (w : world) :
  ∃ r d, deliver cfg message entry w = (r, add_trace d w)
         ∧ count is_emission d = 1%nat ∧ count is_entry d = 0%nat.
Proof.
  pose proof (deliver_cases cfg message entry w) as H.
  destruct (remote_configured cfg).
  - destruct H as (u & t & d & _ & _ & Hd & Hnet).
    eexists _, _. split; [exact Hd|].
    rewrite !count_cons; simpl.
    rewrite !(count_zero _ is_network d); auto; intros []; simpl; congruence.
  - eexists _, _. split; [exact H|]. split; reflexivity.
Qed.

(** The [try] block: the entry is built first; what follows holds one
    emission when a message reaches the delivery branch and none
    otherwise. *)
Lemma onFinish_body_spec (c : closure) (w : world) :
  ∃ entry r d,
    build_entry c (res w) (now w) = Normal entry
    ∧ onFinish_body c w = (r, add_trace (EEntry entry :: d) w)
    ∧ count is_entry d = 0%nat
    ∧ count is_emission d
      = (if delivered_message c entry (res w) is Some _ then 1 else 0)%nat.
Proof.
  destruct (build_entry_total c (res w) (now w)) as (entry & Hb & _).
  exists entry. unfold onFinish_body, delivered_message. munfold. rewrite Hb.
  fold (add_trace [EEntry entry] w).
  destruct (skip (cl_cfg c)) as [sk|].
  - simpl. destruct (sk entry (cl_req c) (res w)) as [v|e].
    + destruct (truthy v).
      * exists (Normal tt), []. repeat split; reflexivity.
      * destruct (format_message (cl_cfg c) entry) as [m|e].
        -- destruct (deliver_counts (cl_cfg c) m entry (add_trace [EEntry entry] w))
             as (r & d & Hd & H1 & H2).
           exists r, d. munfold; simpl. rewrite Hd, add_trace_add. repeat split; assumption.
        -- exists (Throw e), []. repeat split; reflexivity.
    + exists (Throw e), []. repeat split; reflexivity.
  - simpl. destruct (format_message (cl_cfg c) entry) as [m|e].
    + destruct (deliver_counts (cl_cfg c) m entry (add_trace [EEntry entry] w))
        as (r & d & Hd & H1 & H2).
      exists r, d. munfold; simpl. rewrite Hd, add_trace_add. repeat split; assumption.
    + exists (Throw e), []. repeat split; reflexivity.
Qed.

(** [onFinish] as a whole: it completes normally; an exception of the
    [try] block goes to [console.error]; both removals always run. *)
Lemma onFinish_unfold (c : closure) (w : world) :
  onFinish c w
  = (Normal tt,
     unregister (match onFinish_body c w with
                 | (Normal _, w1) => w1
                 | (Throw e, w1) => add_trace [EConsoleError e] w1
                 end)).
Proof.
  unfold onFinish, removeListener_onFinish. munfold.
  destruct (onFinish_body c w) as [[[]|e] w1]; reflexivity.
Qed.

Lemma unregister_add_trace (d : list effect) (w : world) :
  unregister (add_trace d w) = add_trace d (unregister w).
Proof. reflexivity. Qed.

Lemma onFinish_spec (c : closure) (w : world) :
  ∃ entry d,
    build_entry c (res w) (now w) = Normal entry
    ∧ onFinish c w = (Normal tt, add_trace (EEntry entry :: d) (unregister w))
    ∧ count is_entry d = 0%nat
    ∧ count is_emission d
      = (if delivered_message c entry (res w) is Some _ then 1 else 0)%nat.
Proof.
  destruct (onFinish_body_spec c w) as (entry & r & d & Hb & Hbody & H1 & H2).
  exists entry. rewrite onFinish_unfold, Hbody.
  destruct r as [[]|e].
  - exists d. rewrite unregister_add_trace. repeat split; assumption.
  - exists (d ++ [EConsoleError e]). rewrite add_trace_add, unregister_add_trace.
    repeat split; try assumption.
    + now rewrite count_app, H1.
    + rewrite count_app, H2. simpl. unfold count; simpl. lia.
Qed.


(** ** The event emitter *)

Lemma remove_last_none {A} (p : A → bool) (l : list A) :
  existsb p l = false → remove_last p l = l.
Proof.
  induction l as [|x r IH]; simpl; [reflexivity|].
  intros H. apply orb_false_iff in H as [Hx Hr]. rewrite Hx. simpl. now rewrite IH.
Qed.

Lemma remove_last_app {A} (p : A → bool) (l1 l2 : list A) (x : A) :
  p x = true → existsb p l2 = false → remove_last p (l1 ++ x :: l2) = l1 ++ l2.
Proof.
  intros Hx H2. induction l1 as [|a r IH]; simpl.
  - now rewrite Hx, H2.
  - rewrite existsb_app. simpl. rewrite Hx, orb_true_r, andb_false_r. now rewrite IH.
Qed.

Lemma others_only_existsb (ev : evname) (ls : list (evname * listener)) :
  others_only ls → existsb (λ p, evname_eqb p.1 ev && is_onFinish p.2) ls = false.
Proof.
  intros H. induction H as [|x l Hx _ IH]; simpl; [reflexivity|].
  now rewrite Hx, andb_false_r, IH.
Qed.

Lemma unregister_armed (c : closure) (w : world) :
  armed c w → others_only (listeners (unregister w)).
Proof.
  intros (ls & Hls & Hl). unfold unregister; simpl. rewrite Hl.
  rewrite (remove_last_app _ ls [(close, L_onFinish c)] (finish, L_onFinish c))
    by reflexivity.
  rewrite (remove_last_app _ ls [] (close, L_onFinish c)) by reflexivity.
  now rewrite app_nil_r.
Qed.

Lemma unregister_others (w : world) :
  others_only (listeners w) → unregister w = w.
Proof.
  intros H. unfold unregister.
  rewrite (remove_last_none _ (listeners w)) by now apply others_only_existsb.
  rewrite (remove_last_none _ (listeners w)) by now apply others_only_existsb.
  now destruct w.
Qed.

Lemma call_all_app (a b : list listener) (w : world) :
  call_all (a ++ b) w
  = match call_all a w with
    | (Normal _, w') => call_all b w'
    | (Throw e, w') => (Throw e, w')
    end.
Proof.
  revert w; induction a as [|l a IH]; intros w; simpl; [reflexivity|].
  munfold. destruct (call_listener l w) as [[[]|e] w1]; [apply IH | reflexivity].
Qed.

Lemma call_all_others (ls : list (evname * listener)) (w : world) :
  others_only ls →
  ∃ d, call_all (map snd ls) w = (Normal tt, add_trace d w)
       ∧ Forall (λ e, is_quiet e = true) d.
Proof.
  intros H. revert w. induction H as [|[ev l] r Hl _ IH]; intros w; simpl.
  - exists []. now rewrite add_trace_nil.
  - destruct l as [c|n]; [discriminate Hl|]. munfold. simpl.
    destruct (IH (add_trace [EOtherListener n] w)) as (d & Hd & Hq).
    exists (EOtherListener n :: d). fold (add_trace [EOtherListener n] w).
    rewrite Hd, add_trace_add. split; [reflexivity | now constructor].
Qed.

Lemma others_only_filter (P : evname * listener → Prop) `{∀ x, Decision (P x)}
    (ls : list (evname * listener)) :
  others_only ls → others_only (filter P ls).
Proof.
  unfold others_only. rewrite !Forall_forall. intros Hl x Hx.
  apply list_elem_of_filter in Hx as [_ Hx]. now apply Hl.
Qed.

Lemma emit_others (ev : evname) (w : world) :
  others_only (listeners w) →
  ∃ d, emit ev w = (Normal tt, add_trace d w) ∧ Forall (λ e, is_quiet e = true) d.
Proof.
  intros H. unfold emit. munfold.
  apply call_all_others. now apply others_only_filter.
Qed.

(** An event on a response where [onFinish] is registered: the listeners
    of others run, then [onFinish] runs once and leaves no registration. *)
Lemma emit_armed (ev : evname) (c : closure) (w : world) :
  armed c w →
  ∃ entry q d w',
    build_entry c (res w) (now w) = Normal entry
    ∧ emit ev w = (Normal tt, w')
    ∧ res w' = res w ∧ now w' = now w ∧ net w' = net w
    ∧ others_only (listeners w')
    ∧ trace w' = trace w ++ q ++ EEntry entry :: d
    ∧ Forall (λ e, is_quiet e = true) q
    ∧ count is_entry d = 0%nat
    ∧ count is_emission d
      = (if delivered_message c entry (res w) is Some _ then 1 else 0)%nat.
Proof.
  intros Harm. pose proof Harm as (ls & Hls & Hl).
  unfold emit. munfold. rewrite Hl, filter_app, map_app, call_all_app.
  destruct (call_all_others (filter (λ p, evname_eqb p.1 ev = true) ls) w)
    as (q & Hq & Hquiet); [now apply others_only_filter|].
  rewrite Hq.
  assert (Hsnap : map snd (filter (λ p : evname * listener, evname_eqb p.1 ev = true)
                             [(finish, L_onFinish c); (close, L_onFinish c)])
                  = [L_onFinish c]) by (destruct ev; reflexivity).
  rewrite Hsnap. simpl. munfold.
  destruct (onFinish_spec c (add_trace q w)) as (entry & d & Hb & Hf & H1 & H2).
  rewrite Hf. exists entry, q, d. eexists. split; [exact Hb|].
  split; [reflexivity|]. simpl.
  repeat split; try assumption.
  - apply (unregister_armed c (add_trace q w)). now exists ls.
  - now rewrite <- app_assoc.
Qed.

(** ** The response object *)

(** [setHeader] stores the value and records the call when it accepts,
    and throws without touching anything when it does not. *)
Lemma setHeader_cases (name : string) (v : value) (w : world) :
  if header_accepted (res w) name v
  then setHeader name v w
       = (Normal tt,
          {| res := with_header name v (res w); listeners := listeners w;
             now := now w; net := net w; trace := trace w ++ [ESetHeader name v] |})
  else ∃ e, setHeader name v w = (Throw e, w).
Proof.
  unfold header_accepted, setHeader, with_header. munfold.
  destruct (headersSent (res w)); simpl; [eauto|].
  destruct (is_http_token name); simpl; [|eauto].
  destruct v; simpl; eauto;
    match goal with |- context [is_header_text ?t] => destruct (is_header_text t) end;
    simpl; eauto.
Qed.


(** ** Scripts *)

Lemma run_action_quiet (a : action) (w : world) :
  is_emit a = false →
  ∃ w' d, run_action a w = (Normal tt, w')
          ∧ listeners w' = listeners w ∧ net w' = net w
          ∧ trace w' = trace w ++ d ∧ Forall (λ e, is_quiet e = true) d.
Proof.
  destruct a as [ev|n|name v|?|c]; intros Ha; try discriminate Ha; simpl.
  - munfold. eexists _, []. simpl. rewrite app_nil_r. repeat split; constructor.
  - munfold. pose proof (setHeader_cases name v w) as H.
    destruct (header_accepted (res w) name v).
    + rewrite H. eexists _, [_]. simpl. repeat split. repeat constructor.
    + destruct H as (e & ->). eexists _, []. rewrite app_nil_r. repeat split; constructor.
  - munfold. eexists _, []. simpl. rewrite app_nil_r. repeat split; constructor.
  - eexists _, []. simpl. rewrite app_nil_r. repeat split; constructor.
Qed.

Lemma run_script_quiet (s : list action) (w : world) :
  Forall (λ a, is_emit a = false) s →
  ∃ w' d, run_script s w = (Normal tt, w')
          ∧ listeners w' = listeners w ∧ net w' = net w
          ∧ trace w' = trace w ++ d ∧ Forall (λ e, is_quiet e = true) d.
Proof.
  intros H. revert w. induction H as [|a s Ha _ IH]; intros w; simpl.
  - exists w, []. rewrite app_nil_r. repeat split; constructor.
  - destruct (run_action_quiet a w Ha) as (w1 & d1 & H1 & Hl1 & Hn1 & Ht1 & Hq1).
    destruct (IH w1) as (w2 & d2 & H2 & Hl2 & Hn2 & Ht2 & Hq2).
    exists w2, (d1 ++ d2). munfold. rewrite H1, H2.
    repeat split; try congruence.
    + now rewrite Ht2, Ht1, app_assoc.
    + now apply Forall_app.
Qed.

Lemma run_action_others (a : action) (w : world) :
  others_only (listeners w) →
  ∃ w' d, run_action a w = (Normal tt, w')
          ∧ others_only (listeners w')
          ∧ trace w' = trace w ++ d ∧ Forall (λ e, is_quiet e = true) d.
Proof.
  intros H. destruct (is_emit a) eqn:Ha.
  - destruct a as [ev| | | |]; try discriminate Ha. simpl.
    destruct (emit_others ev w H) as (d & Hd & Hq).
    exists (add_trace d w), d. repeat split; assumption.
  - destruct (run_action_quiet a w Ha) as (w' & d & H1 & Hl & _ & Ht & Hq).
    exists w', d. rewrite Hl. repeat split; assumption.
Qed.

Lemma run_script_others (s : list action) (w : world) :
  others_only (listeners w) →
  ∃ w' d, run_script s w = (Normal tt, w')
          ∧ others_only (listeners w')
          ∧ trace w' = trace w ++ d ∧ Forall (λ e, is_quiet e = true) d.
Proof.
  revert w. induction s as [|a s IH]; intros w H; simpl.
  - exists w, []. rewrite app_nil_r. repeat split; [assumption | constructor].
  - destruct (run_action_others a w H) as (w1 & d1 & H1 & Hl1 & Ht1 & Hq1).
    destruct (IH w1 Hl1) as (w2 & d2 & H2 & Hl2 & Ht2 & Hq2).
    exists w2, (d1 ++ d2). munfold. rewrite H1, H2.
    repeat split; try assumption.
    + now rewrite Ht2, Ht1, app_assoc.
    + now apply Forall_app.
Qed.

Lemma run_script_app (s1 s2 : list action) (w : world) :
  run_script (s1 ++ s2) w
  = match run_script s1 w with
    | (Normal _, w') => run_script s2 w'
    | (Throw e, w') => (Throw e, w')
    end.
Proof.
  revert w; induction s1 as [|a s IH]; intros w; simpl; [reflexivity|].
  munfold. destruct (run_action a w) as [[[]|e] w1]; [apply IH | reflexivity].
Qed.


(** ** The request handler *)

Lemma resolve_request_id_spec (cfg : config) (req : request) (w : world) :
  ∃ w' d,
    resolve_request_id cfg req w = (Normal (request_id cfg req (now w)), w')
    ∧ listeners w' = listeners w ∧ now w' = now w ∧ net w' = net w
    ∧ trace w' = trace w ++ d ∧ Forall (λ e, is_quiet e = true) d
    ∧ (truthy (inbound_id cfg req) = true → w' = w)
    ∧ (truthy (inbound_id cfg req) = false →
       if header_accepted (res w) (requestIdHeader cfg) (generateId cfg (now w))
       then res w' = with_header (requestIdHeader cfg) (generateId cfg (now w)) (res w)
            ∧ d = [ESetHeader (requestIdHeader cfg) (generateId cfg (now w))]
       else w' = w).
Proof.
  unfold resolve_request_id, request_id. munfold.
  destruct (truthy (inbound_id cfg req)) eqn:E; simpl.
  - exists w, []. rewrite app_nil_r. repeat split; try constructor; discriminate.
  - pose proof (setHeader_cases (requestIdHeader cfg) (generateId cfg (now w)) w) as H.
    destruct (header_accepted (res w) (requestIdHeader cfg) (generateId cfg (now w))).
    + rewrite H. eexists _, [_]. simpl.
      repeat split; try (repeat constructor); discriminate.
    + destruct H as (e & ->). exists w, []. rewrite app_nil_r.
      repeat split; try constructor; discriminate.
Qed.

Lemma handle_request_registers (cfg : config) (req : request) (w : world) :
  shouldSkipPath (request_url req) (Some (skipPaths cfg)) = false →
  ∃ w' d,
    handle_request cfg req w = (Normal tt, w')
    ∧ listeners w'
      = listeners w ++ [(finish, L_onFinish (mk_closure cfg req (now w)));
                        (close, L_onFinish (mk_closure cfg req (now w)))]
    ∧ now w' = now w ∧ net w' = net w
    ∧ res w' = res (resolve_request_id cfg req w).2
    ∧ trace w' = trace w ++ d ∧ Forall (λ e, is_quiet e = true) d.
Proof.
  intros Hs. unfold handle_request. munfold.
  destruct (resolve_request_id_spec cfg req w) as (w1 & d & H1 & Hl & Hn & Hnet & Ht & Hq & _).
  rewrite H1, Hs. unfold res_on, next. munfold. simpl.
  eexists _, (d ++ [ENext]). split; [reflexivity|]. simpl.
  rewrite Hl, Hn, Hnet, Ht, <- !app_assoc. repeat split.
  apply Forall_app; split; [assumption | repeat constructor].
Qed.

Lemma handle_request_exempt (cfg : config) (req : request) (w : world) :
  shouldSkipPath (request_url req) (Some (skipPaths cfg)) = true →
  ∃ w' d,
    handle_request cfg req w = (Normal tt, w')
    ∧ listeners w' = listeners w
    ∧ trace w' = trace w ++ d ++ [ENext] ∧ Forall (λ e, is_quiet e = true) d.
Proof.
  intros Hs. unfold handle_request. munfold.
  destruct (resolve_request_id_spec cfg req w) as (w1 & d & H1 & Hl & Hn & Hnet & Ht & Hq & _).
  rewrite H1, Hs. unfold next. munfold. simpl.
  eexists _, d. split; [reflexivity|]. simpl.
  rewrite Hl, Ht, <- !app_assoc. repeat split. assumption.
Qed.

Lemma initial_others (others : list (evname * nat)) (clk : clock) (rt : runtime) :
  others_only (listeners (initial_world others clk rt)).
Proof.
  unfold initial_world, others_only; simpl.
  apply Forall_forall. intros x Hx. apply list_elem_of_fmap in Hx as (y & -> & _).
  reflexivity.
Qed.

(** ** Exactly one entry per request *)

Lemma lifecycle_unfold (cfg : config) (req : request) (s : list action) (w : world) :
  lifecycle cfg req s w
  = match handle_request cfg req w with
    | (Normal _, w') => run_script s w'
    | (Throw e, w') => (Throw e, w')
    end.
Proof. unfold lifecycle. munfold. destruct (handle_request cfg req w) as [[[]|] ?]; reflexivity. Qed.

(** The life of an instrumented request up to and after its first
    completion event. *)
Lemma first_event_spec (cfg : config) (req : request)
    (others : list (evname * nat)) (clk : clock) (rt : runtime)
    (pre post : list action) (ev : evname) :
  shouldSkipPath (request_url req) (Some (skipPaths cfg)) = false →
  Forall (λ a, is_emit a = false) pre →
  let w0 := initial_world others clk rt in
  let c := mk_closure cfg req clk in
  let w1 := (lifecycle cfg req pre w0).2 in
  let w2 := (lifecycle cfg req (pre ++ [AEmit ev]) w0).2 in
  let wf := (lifecycle cfg req (pre ++ AEmit ev :: post) w0).2 in
  ∃ entry,
    build_entry c (res w1) (now w1) = Normal entry
    ∧ (lifecycle cfg req (pre ++ AEmit ev :: post) w0).1 = Normal tt
    ∧ armed c w1
    ∧ count is_entry (trace w1) = 0%nat
    ∧ others_only (listeners w2)
    ∧ others_only (listeners wf)
    ∧ count is_entry (trace wf) = 1%nat
    ∧ EEntry entry ∈ trace wf
    ∧ count is_emission (trace wf)
      = (if delivered_message c entry (res w1) is Some _ then 1 else 0)%nat.
Proof.
  intros Hs Hpre w0 c.
  destruct (handle_request_registers cfg req w0 Hs)
    as (wa & da & Ha & Hla & Hna & Hneta & _ & Hta & Hqa).
  destruct (run_script_quiet pre wa Hpre) as (w1 & d1 & H1 & Hl1 & Hn1 & Ht1 & Hq1).
  assert (Harm : armed c w1).
  { exists (listeners w0). split; [apply initial_others|]. now rewrite Hl1, Hla. }
  destruct (emit_armed ev c w1 Harm)
    as (entry & q & d & w2 & Hb & He & Hr2 & Hnow2 & Hnet2 & Hl2 & Ht2 & Hq2 & Hc1 & Hc2).
  destruct (run_script_others post w2 Hl2) as (wf & df & Hf & Hlf & Htf & Hqf).
  assert (E1 : lifecycle cfg req pre w0 = (Normal tt, w1))
    by now rewrite lifecycle_unfold, Ha.
  assert (E2 : lifecycle cfg req (pre ++ [AEmit ev]) w0 = (Normal tt, w2)).
  { rewrite lifecycle_unfold, Ha, run_script_app, H1. simpl. munfold. now rewrite He. }
  assert (Ef : lifecycle cfg req (pre ++ AEmit ev :: post) w0 = (Normal tt, wf)).
  { rewrite lifecycle_unfold, Ha, run_script_app, H1. simpl. munfold. now rewrite He. }
  cbv zeta. rewrite E1, E2, Ef. simpl.
  assert (Hw1 : trace w1 = da ++ d1) by (rewrite Ht1, Hta; reflexivity).
  assert (Hwf : trace wf = (da ++ d1) ++ q ++ EEntry entry :: d ++ df).
  { rewrite Htf, Ht2, Hw1. rewrite <- !app_assoc. reflexivity. }
  destruct (quiet_counts (da ++ d1)) as (Qa1 & Qa2 & _); [now apply Forall_app|].
  destruct (quiet_counts q Hq2) as (Qq1 & Qq2 & _).
  destruct (quiet_counts df Hqf) as (Qf1 & Qf2 & _).
  exists entry. repeat split; try assumption.
  1: now rewrite Hw1.
  all: rewrite count_app in Qa1, Qa2.
  - rewrite Hwf, !count_app, count_cons, count_app. simpl. lia.
  - rewrite Hwf. rewrite !elem_of_app. right; right. apply elem_of_cons. now left.
  - rewrite Hwf, !count_app, count_cons, count_app. simpl. lia.
Qed.


(** C1, as the code has it. For every request on a path that is not
    exempt, on a fresh response, and every script in which a completion
    event fires: the first event, [finish] or [close], runs [onFinish]
    once; exactly one entry is built in the whole life of the request,
    from the response and the clock at that moment; right after the event,
    and ever after, no [onFinish] listener is registered, so a second
    event builds nothing. The entry is emitted at most once: once when a
    message reaches the delivery branch, and not at all when the skip
    predicate answers a truthy value or the predicate or the formatter
    throws. *)
Theorem one_entry_per_lifecycle (cfg : config) (req : request)
    (others : list (evname * nat)) (clk : clock) (rt : runtime)
    (pre post : list action) (ev : evname) :
  shouldSkipPath (request_url req) (Some (skipPaths cfg)) = false →
  Forall (λ a, is_emit a = false) pre →
  let w0 := initial_world others clk rt in
  let c := mk_closure cfg req clk in
  let w1 := (lifecycle cfg req pre w0).2 in
  let w2 := (lifecycle cfg req (pre ++ [AEmit ev]) w0).2 in
  let wf := (lifecycle cfg req (pre ++ AEmit ev :: post) w0).2 in
  ∃ entry,
    build_entry c (res w1) (now w1) = Normal entry
    ∧ (lifecycle cfg req (pre ++ AEmit ev :: post) w0).1 = Normal tt
    ∧ armed c w1
    ∧ count is_entry (trace w1) = 0%nat
    ∧ others_only (listeners w2)
    ∧ others_only (listeners wf)
    ∧ count is_entry (trace wf) = 1%nat
    ∧ EEntry entry ∈ trace wf
    ∧ count is_emission (trace wf)
      = (if delivered_message c entry (res w1) is Some _ then 1 else 0)%nat.
Proof. exact (first_event_spec cfg req others clk rt pre post ev). Qed.

Lemma one_entry_witness :
  count is_entry
    (trace (lifecycle default_config sample_request
              [ASetStatus 201; AEmit finish; AEmit close]
              (initial_world [(finish, 7%nat)] sample_clock sample_runtime)).2) = 1%nat
  ∧ count is_emission
      (trace (lifecycle default_config sample_request
                [ASetStatus 201; AEmit finish; AEmit close]
                (initial_world [(finish, 7%nat)] sample_clock sample_runtime)).2) = 1%nat.
Proof.
  destruct (one_entry_per_lifecycle default_config sample_request [(finish, 7%nat)]
              sample_clock sample_runtime [ASetStatus 201] [AEmit close] finish)
    as (entry & Hb & _ & _ & _ & _ & _ & H1 & _ & H2).
  - reflexivity.
  - repeat constructor.
  - cbv zeta in *. split; [exact H1|].
    etransitivity; [exact H2|].
    vm_compute in Hb. injection Hb as <-. vm_compute. reflexivity.
Defined.

(** The claim as written fails when the skip predicate holds: the entry is
    built, and nothing is emitted. *)
Lemma one_entry_counterexample :
  shouldSkipPath (request_url sample_request)
    (Some (skipPaths (with_skip (λ _ _ _, Normal (VBool true)) default_config))) = false
  ∧ count is_entry
      (trace (lifecycle (with_skip (λ _ _ _, Normal (VBool true)) default_config)
                sample_request [AEmit finish]
                (initial_world [] sample_clock sample_runtime)).2) = 1%nat
  ∧ count is_emission
      (trace (lifecycle (with_skip (λ _ _ _, Normal (VBool true)) default_config)
                sample_request [AEmit finish]
                (initial_world [] sample_clock sample_runtime)).2) = 0%nat.
Proof. vm_compute. repeat split. Qed.

Example lifecycle_sample :
  trace (lifecycle default_config sample_request [ASetStatus 404; AEmit close; AEmit finish]
           (initial_world [] sample_clock sample_runtime)).2
  = [ENext;
     EEntry [("time", VStr "2024-11-02T08:00:00.000Z"); ("requestId", VStr "abc-1");
             ("method", VStr "GET"); ("url", VStr "/status/abc"); ("status", VNum 404);
             ("duration", VNum 12); ("ip", VStr "10.0.0.7");
             ("userAgent", VStr "curl/8.0"); ("contentLength", VUndefined)];
     ELogger (VStr "2024-11-02T08:00:00.000Z GET /status/abc 404 12ms - 10.0.0.7")].
Proof. vm_compute. reflexivity. Qed.


(** ** Exceptions stay inside the handler *)

(** C9. [onFinish] is total and always completes normally: whatever the
    [try] block throws is caught and handed to [console.error], the
    response is left as it was, and both listeners are removed in every
    case. In particular a throwing skip predicate, a throwing formatter
    and a throwing sink each end in a report to [console.error] and a
    normal completion. *)
Theorem onFinish_contains_exceptions (c : closure) (w : world) :
  (onFinish c w).1 = Normal tt
  ∧ res (onFinish c w).2 = res w
  ∧ (armed c w → others_only (listeners (onFinish c w).2))
  ∧ (∀ e w1, onFinish_body c w = (Throw e, w1) →
       onFinish c w = (Normal tt, unregister (add_trace [EConsoleError e] w1)))
  ∧ (∀ entry, build_entry c (res w) (now w) = Normal entry →
       (∀ sk e, skip (cl_cfg c) = Some sk → sk entry (cl_req c) (res w) = Throw e →
          onFinish c w
          = (Normal tt, add_trace [EEntry entry; EConsoleError e] (unregister w)))
       ∧ (∀ fmt e, skip (cl_cfg c) = None → format (cl_cfg c) = Some fmt →
            fmt entry = Throw e →
            onFinish c w
            = (Normal tt, add_trace [EEntry entry; EConsoleError e] (unregister w)))
       ∧ (∀ m e, skip (cl_cfg c) = None → format_message (cl_cfg c) entry = Normal m →
            remote_configured (cl_cfg c) = false → logger (cl_cfg c) m = Throw e →
            onFinish c w
            = (Normal tt,
               add_trace [EEntry entry; ELogger m; EConsoleError e] (unregister w)))).
Proof.
  split; [|split; [|split; [|split]]].
  - now rewrite onFinish_unfold.
  - destruct (onFinish_spec c w) as (entry & d & _ & -> & _). reflexivity.
  - intros Harm. destruct (onFinish_spec c w) as (entry & d & _ & -> & _). simpl.
    now apply (unregister_armed c).
  - intros e w1 Hb. now rewrite onFinish_unfold, Hb.
  - intros entry Hentry. split; [|split].
    + intros sk e Hsk He. rewrite onFinish_unfold.
      unfold onFinish_body. munfold. rewrite Hentry, Hsk. simpl. rewrite He.
      unfold unregister, add_trace; simpl. now rewrite <- !app_assoc.
    + intros fmt e Hsk Hf He. rewrite onFinish_unfold.
      unfold onFinish_body, format_message. munfold. rewrite Hentry, Hsk, Hf. simpl.
      rewrite He. unfold unregister, add_trace; simpl. now rewrite <- !app_assoc.
    + intros m e Hsk Hf Hr He. rewrite onFinish_unfold.
      unfold onFinish_body, deliver. munfold. rewrite Hentry, Hsk. simpl.
      rewrite Hf, Hr. simpl. rewrite He. unfold unregister, add_trace; simpl.
      now rewrite <- !app_assoc.
Qed.

Lemma onFinish_contains_exceptions_witness :
  (lifecycle (with_format (λ _, Throw (VStr "formatter failed")) default_config)
     sample_request [AEmit finish]
     (initial_world [] sample_clock sample_runtime)).1 = Normal tt
  ∧ onFinish (mk_closure (with_format (λ _, Throw (VStr "formatter failed")) default_config)
                sample_request sample_clock)
      (initial_world [] sample_clock sample_runtime)
    = (Normal tt,
       add_trace
         [EEntry [("time", VStr "2024-11-02T08:00:00.000Z"); ("requestId", VStr "abc-1");
                  ("method", VStr "GET"); ("url", VStr "/status/abc"); ("status", VNum 200);
                  ("duration", VNum 12); ("ip", VStr "10.0.0.7");
                  ("userAgent", VStr "curl/8.0"); ("contentLength", VUndefined)];
          EConsoleError (VStr "formatter failed")]
         (unregister (initial_world [] sample_clock sample_runtime))).
Proof.
  split; [vm_compute; reflexivity|].
  eapply (onFinish_contains_exceptions
            (mk_closure (with_format (λ _, Throw (VStr "formatter failed")) default_config)
               sample_request sample_clock)
            (initial_world [] sample_clock sample_runtime)).
  - vm_compute. reflexivity.
  - reflexivity.
  - reflexivity.
  - reflexivity.
Defined.

(** ** Exempt paths *)

Lemma startsWith_spec (url p : string) :
  startsWith url p = true ↔ ∃ rest, url = p +:+ rest.
Proof.
  revert url; induction p as [|c p IH]; intros [|d u]; simpl.
  - split; [intros _; eexists; reflexivity | reflexivity].
  - split; [intros _; eexists; reflexivity | reflexivity].
  - split; [discriminate | intros (rest & H); discriminate H].
  - destruct (Ascii.eqb_spec c d) as [->|Hne].
    + rewrite IH. split; intros (rest & H); exists rest.
      * now rewrite append_cons, H.
      * rewrite append_cons in H. now injection H.
    + split; [discriminate|]. intros (rest & H). rewrite append_cons in H.
      injection H as H1 H2. congruence.
Qed.

Lemma rule_matches_spec (url : string) (r : rule) :
  rule_matches url r = true ↔ rule_applies url r.
Proof.
  destruct r as [p|test|v]; simpl.
  - apply startsWith_spec.
  - reflexivity.
  - split; [discriminate | contradiction].
Qed.

Lemma skip_loop_spec (url : string) (rules : list rule) :
  (skip_loop url rules).1 = true ↔ ∃ r, r ∈ rules ∧ rule_matches url r = true.
Proof.
  induction rules as [|r rest IH]; simpl.
  - split; [discriminate | intros (r & Hr & _); now apply elem_of_nil in Hr].
  - destruct (rule_matches url r) eqn:E; simpl.
    + split; [intros _; exists r; split; [left|assumption] | reflexivity].
    + destruct (skip_loop url rest) as [b n]; simpl in *. rewrite IH.
      split; intros (x & Hx & Hm).
      * exists x. split; [now right | assumption].
      * apply elem_of_cons in Hx as [->|Hx]; [congruence | now exists x].
Qed.

Lemma skip_loop_short_circuit (url : string) (pre post : list rule) (r : rule) :
  Forall (λ x, rule_matches url x = false) pre → rule_matches url r = true →
  skip_loop url (pre ++ r :: post) = (true, S (length pre)).
Proof.
  intros Hpre Hr. induction Hpre as [|x pre Hx _ IH]; simpl.
  - now rewrite Hr.
  - now rewrite Hx, IH.
Qed.

Lemma shouldSkipPath_loop (url : string) (rules : list rule) :
  shouldSkipPath url (Some rules) = (skip_loop url rules).1.
Proof. destruct rules; reflexivity. Qed.

(** C2. [shouldSkipPath] answers [true] exactly when some rule applies
    to the path, by literal prefix or by the test of a pattern; it answers
    [false] for an empty or absent rule list; the loop stops at the first
    rule that applies. For a request on an exempt path the handler calls
    [next] and registers nothing: whatever happens to the response later,
    no entry is built, the local sink and [postToRemote] are never called
    and no network request is made. *)
Theorem exempt_paths_untouched (url : string) (rules : list rule) :
  (shouldSkipPath url (Some rules) = true ↔ ∃ r, r ∈ rules ∧ rule_applies url r)
  ∧ shouldSkipPath url (Some []) = false
  ∧ shouldSkipPath url None = false
  ∧ (∀ pre r post,
       rules = pre ++ r :: post →
       Forall (λ x, ¬ rule_applies url x) pre → rule_applies url r →
       skip_loop url rules = (true, S (length pre)))
  ∧ (∀ cfg req others clk rt script,
       skipPaths cfg = rules → request_url req = url →
       shouldSkipPath url (Some rules) = true →
       let run := lifecycle cfg req script (initial_world others clk rt) in
       run.1 = Normal tt
       ∧ ENext ∈ trace run.2
       ∧ others_only (listeners run.2)
       ∧ count is_entry (trace run.2) = 0%nat
       ∧ count is_emission (trace run.2) = 0%nat
       ∧ count is_network (trace run.2) = 0%nat).
Proof.
  split; [|split; [reflexivity|split; [reflexivity|split]]].
  - rewrite shouldSkipPath_loop, skip_loop_spec.
    split; intros (r & Hr & Hm); exists r; (split; [assumption|]);
      now apply rule_matches_spec.
  - intros pre r post -> Hpre Hr. apply skip_loop_short_circuit.
    + eapply Forall_impl; [exact Hpre|]. intros x Hx. simpl in Hx.
      destruct (rule_matches url x) eqn:E; [|reflexivity].
      exfalso. apply Hx. now apply rule_matches_spec.
    + now apply rule_matches_spec.
  - intros cfg req others clk rt script Hrules Hurl Hskip run.
    subst rules url.
    destruct (handle_request_exempt cfg req (initial_world others clk rt) Hskip)
      as (w1 & d1 & H1 & Hl1 & Ht1 & Hq1).
    assert (Ho : others_only (listeners w1)) by (rewrite Hl1; apply initial_others).
    destruct (run_script_others script w1 Ho) as (w2 & d2 & H2 & Hl2 & Ht2 & Hq2).
    assert (E : run = (Normal tt, w2)).
    { unfold run. now rewrite lifecycle_unfold, H1. }
    rewrite E; simpl.
    assert (Ht : trace w2 = (d1 ++ [ENext]) ++ d2) by (rewrite Ht2, Ht1; reflexivity).
    assert (Hq : Forall (λ e, is_quiet e = true) ((d1 ++ [ENext]) ++ d2)).
    { apply Forall_app; split; [apply Forall_app; split|]; try assumption.
      repeat constructor. }
    destruct (quiet_counts _ Hq) as (Q1 & Q2 & Q3).
    rewrite Ht. repeat split; try assumption.
    rewrite !elem_of_app. left; right. now apply list_elem_of_singleton.
Qed.

Lemma exempt_paths_witness :
  skip_loop "/health" [RString "/api"; RString "/health"; RRegExp (λ _, true)]
  = (true, 2%nat)
  ∧ count is_entry
      (trace (lifecycle (with_skipPaths [RString "/health"] default_config) health_request
                [AEmit finish; AEmit close]
                (initial_world [] sample_clock sample_runtime)).2) = 0%nat
  ∧ count is_emission
      (trace (lifecycle (with_skipPaths [RString "/health"] default_config) health_request
                [AEmit finish; AEmit close]
                (initial_world [] sample_clock sample_runtime)).2) = 0%nat.
Proof.
  split.
  - destruct (exempt_paths_untouched "/health"
                [RString "/api"; RString "/health"; RRegExp (λ _, true)])
      as (_ & _ & _ & H & _).
    apply (H [RString "/api"] (RString "/health") [RRegExp (λ _, true)]).
    + reflexivity.
    + constructor; [|constructor]. intros (rest & H'). discriminate H'.
    + exists "". reflexivity.
  - destruct (exempt_paths_untouched "/health" [RString "/health"])
      as (_ & _ & _ & _ & H).
    specialize (H (with_skipPaths [RString "/health"] default_config) health_request
                  [] sample_clock sample_runtime [AEmit finish; AEmit close]
                  eq_refl eq_refl eq_refl).
    cbv zeta in H. destruct H as (_ & _ & _ & H1 & H2 & _). split; assumption.
Defined.


(** ** The request identifier *)




Lemma limitSize_empty_absent_witness :
  ∃ entry,
    build_entry (mk_closure (with_includeBody default_config) anonymous_request sample_clock)
      fresh_response sample_clock = Normal entry
    ∧ obj_get "requestBody" entry = Some VUndefined.
Proof.
  destruct (limitSize_empty_absent 2048) as (_ & _ & _ & H).
  destruct (H (mk_closure (with_includeBody default_config) anonymous_request sample_clock)
              fresh_response sample_clock eq_refl eq_refl eq_refl)
    as (entry & H1 & H2 & _).
  exists entry. split; assumption.
Defined.


(** ** Base64 *)

Ltac n_divmod := intros; zify; Z.to_euclidean_division_equations; lia.

Lemma list_ind3 {A} (P : list A → Prop) :
  P [] → (∀ a, P [a]) → (∀ a b, P [a; b]) →
  (∀ a b c r, P r → P (a :: b :: c :: r)) →
  ∀ l, P l.
Proof.
  intros H0 H1 H2 H3 l.
  assert (H : ∀ n l, (length l ≤ n)%nat → P l).
  { clear l. induction n as [|n IH]; intros [|a [|b [|c r]]] Hl; simpl in Hl; auto; try lia.
    apply H3. apply IH. lia. }
  apply (H (length l)). lia.
Qed.

Lemma sextet_char (n : N) :
  (n < 64)%N →
  b64url_value (url_char (b64_char n)) = Some n
  ∧ Ascii.eqb (b64_char n) "=" = false.
Proof.
  intros Hn. rewrite <- (N2Nat.id n). assert (Hk : (N.to_nat n < 64)%nat) by lia.
  revert Hk. generalize (N.to_nat n) as k. clear n Hn. intros k Hk.
  do 64 (destruct k as [|k]; [vm_compute; split; reflexivity|]). lia.
Qed.

Lemma strip_padding_cons (c : ascii) (s : string) :
  Ascii.eqb c "=" = false → strip_padding (String c s) = String c (strip_padding s).
Proof. intros H. simpl. rewrite H. now destruct (strip_padding s). Qed.

Lemma url_safe_cons (c : ascii) (s : string) :
  Ascii.eqb c "=" = false → url_safe (String c s) = String (url_char c) (url_safe s).
Proof.
  intros H. unfold url_safe. rewrite strip_padding_cons by assumption. reflexivity.
Qed.

Lemma url_safe_sextet (n : N) (s : string) :
  (n < 64)%N →
  url_safe (String (b64_char n) s) = String (url_char (b64_char n)) (url_safe s).
Proof. intros Hn. apply url_safe_cons. now apply sextet_char. Qed.

Lemma s1_lt (x : N) : (x < 256 → x / 4 < 64)%N.
Proof. n_divmod. Qed.
Lemma s2_lt (x y : N) : (x < 256 → y < 256 → x mod 4 * 16 + y / 16 < 64)%N.
Proof. n_divmod. Qed.
Lemma s2'_lt (x : N) : (x < 256 → x mod 4 * 16 < 64)%N.
Proof. n_divmod. Qed.
Lemma s3_lt (y z : N) : (y < 256 → z < 256 → y mod 16 * 4 + z / 64 < 64)%N.
Proof. n_divmod. Qed.
Lemma s3'_lt (y : N) : (y < 256 → y mod 16 * 4 < 64)%N.
Proof. n_divmod. Qed.
Lemma s4_lt (z : N) : (z < 256 → z mod 64 < 64)%N.
Proof. n_divmod. Qed.

Lemma byte1 (x y : N) :
  (x < 256 → y < 256 → x / 4 * 4 + (x mod 4 * 16 + y / 16) / 16 = x)%N.
Proof. n_divmod. Qed.
Lemma byte1' (x : N) : (x < 256 → x / 4 * 4 + (x mod 4 * 16) / 16 = x)%N.
Proof. n_divmod. Qed.
Lemma byte2 (x y z : N) :
  (x < 256 → y < 256 → z < 256 →
   (x mod 4 * 16 + y / 16) mod 16 * 16 + (y mod 16 * 4 + z / 64) / 4 = y)%N.
Proof. n_divmod. Qed.
Lemma byte2' (x y : N) :
  (x < 256 → y < 256 →
   (x mod 4 * 16 + y / 16) mod 16 * 16 + (y mod 16 * 4) / 4 = y)%N.
Proof. n_divmod. Qed.
Lemma byte3 (y z : N) :
  (y < 256 → z < 256 → (y mod 16 * 4 + z / 64) mod 4 * 64 + z mod 64 = z)%N.
Proof. n_divmod. Qed.

Ltac sextet_bound :=
  first [apply s1_lt | apply s2_lt | apply s2'_lt | apply s3_lt
        | apply s3'_lt | apply s4_lt]; apply N_ascii_bounded.

Ltac sextet_rw :=
  repeat match goal with
  | |- context [url_safe (String (b64_char ?n) ?s)] =>
      rewrite (url_safe_sextet n s)
        by sextet_bound
  end.

Ltac sextet_val :=
  repeat match goal with
  | |- context [b64url_value (url_char (b64_char ?n))] =>
      rewrite (proj1 (sextet_char n ltac:(sextet_bound)))
  end.

(** What [enc] produces reads back as the bytes that went in. *)
Lemma base64url_roundtrip (bs : list ascii) :
  b64url_decode (url_safe (base64 bs)) = Some bs.
Proof.
  induction bs as [|a|a b|a b c r IH] using list_ind3.
  - reflexivity.
  - cbn [base64]. sextet_rw. change (url_safe "==") with "". cbn [b64url_decode].
    sextet_val. rewrite byte1' by apply N_ascii_bounded.
    now rewrite ascii_N_embedding.
  - cbn [base64]. sextet_rw. change (url_safe "=") with "". cbn [b64url_decode].
    sextet_val. rewrite byte1, byte2' by apply N_ascii_bounded.
    now rewrite !ascii_N_embedding.
  - cbn [base64]. sextet_rw. cbn [b64url_decode]. sextet_val. rewrite IH.
    rewrite byte1, byte2, byte3 by apply N_ascii_bounded.
    now rewrite !ascii_N_embedding.
Qed.

Lemma sextet_is_url (n : N) : (n < 64)%N → is_b64url_char (url_char (b64_char n)) = true.
Proof. intros Hn. unfold is_b64url_char. now rewrite (proj1 (sextet_char n Hn)). Qed.

Ltac sextet_url :=
  repeat match goal with
  | |- context [is_b64url_char (url_char (b64_char ?n))] =>
      rewrite (sextet_is_url n)
        by sextet_bound
  end.

(** Every character of it is in the URL-safe alphabet: no [+], [/], [=]. *)
Lemma base64url_alphabet (bs : list ascii) :
  all_chars is_b64url_char (url_safe (base64 bs)) = true.
Proof.
  induction bs as [|a|a b|a b c r IH] using list_ind3.
  - reflexivity.
  - cbn [base64]. sextet_rw. change (url_safe "==") with "". cbn [all_chars].
    sextet_url. reflexivity.
  - cbn [base64]. sextet_rw. change (url_safe "=") with "". cbn [all_chars].
    sextet_url. reflexivity.
  - cbn [base64]. sextet_rw. cbn [all_chars]. sextet_url. now rewrite IH.
Qed.

Lemma url_char_not_special (c : ascii) :
  is_b64url_char c = true →
  Ascii.eqb c "." = false ∧ Ascii.eqb c "+" = false
  ∧ Ascii.eqb c "/" = false ∧ Ascii.eqb c "=" = false.
Proof.
  destruct c as [[] [] [] [] [] [] [] []]; vm_compute; intros H;
    first [discriminate H | repeat split].
Qed.

Lemma split_dots_segment (s : string) :
  all_chars is_b64url_char s = true → split_dots s = [s].
Proof.
  induction s as [|c s IH]; simpl; [reflexivity|].
  intros H. apply andb_true_iff in H as [Hc Hs].
  destruct (url_char_not_special c Hc) as (-> & _). now rewrite IH.
Qed.

Lemma split_dots_app (s rest : string) :
  all_chars is_b64url_char s = true →
  split_dots (s +:+ "." +:+ rest) = s :: split_dots rest.
Proof.
  induction s as [|c s IH]; intros H.
  - reflexivity.
  - simpl in H. apply andb_true_iff in H as [Hc Hs].
    destruct (url_char_not_special c Hc) as (Hd & _).
    rewrite append_cons. simpl. rewrite Hd, IH by assumption. reflexivity.
Qed.

Lemma split_dots_three (a b c : string) :
  all_chars is_b64url_char a = true → all_chars is_b64url_char b = true →
  all_chars is_b64url_char c = true →
  split_dots ((a +:+ "." +:+ b) +:+ "." +:+ c) = [a; b; c].
Proof.
  intros Ha Hb Hc. rewrite !append_assoc.
  rewrite !split_dots_app by assumption. now rewrite split_dots_segment.
Qed.

(** ** The token creator *)

Lemma obj_get_spread (k : string) (o src : obj) :
  NoDup (obj_keys src) →
  obj_get k (obj_spread o src)
  = match obj_get k src with
    | Some v => Some v
    | None => obj_get k o
    end.
Proof.
  unfold obj_spread. revert o. induction src as [|[k1 v1] r IH]; intros o Hnd; simpl.
  - reflexivity.
  - simpl in Hnd. apply NoDup_cons in Hnd as [Hk1 Hnd].
    rewrite IH by assumption.
    destruct (String.eqb_spec k k1) as [->|Hne].
    + apply obj_get_None in Hk1. rewrite Hk1. apply obj_get_set_eq.
    + destruct (obj_get k r); [reflexivity|]. apply obj_get_set_ne. congruence.
Qed.

Lemma enc_header :
  enc jwt_header = Normal "eyJhbGciOiJIUzI1NiIsInR5cCI6IkpXVCJ9"
  ∧ JSON_stringify (VObj jwt_header) = Normal (Some (dq "{'alg':'HS256','typ':'JWT'}")).
Proof. split; vm_compute; reflexivity. Qed.

Lemma enc_spec (o : obj) (text : string) :
  JSON_stringify (VObj o) = Normal (Some text) →
  ∃ seg, enc o = Normal seg
         ∧ all_chars is_b64url_char seg = true
         ∧ b64url_decode seg = Some (utf8 text).
Proof.
  intros H. unfold enc. rewrite H. simpl.
  eexists; split; [reflexivity|]. split; [apply base64url_alphabet | apply base64url_roundtrip].
Qed.

Section SignerProps.

Variable hmac_sha256 : list ascii → list ascii → list ascii.

(** C6, as the code has it. For claims with distinct keys whose payload
    [JSON.stringify] accepts, [generateJwt] returns three segments joined
    by dots, each made only of characters of the unpadded URL-safe base64
    alphabet, so that splitting at the dots gives them back. The first
    decodes to the JSON text of the header with [alg] HS256 and [typ] JWT,
    the second to the JSON text of the payload, the third to the HMAC of
    the first two segments joined by a dot, keyed by the secret. The payload
    holds every claim, except that a positive expiry replaces a claim named
    [exp]; [iat] is the clock in whole seconds unless the claims carry their
    own [iat]; with a positive expiry [exp] is the clock in whole seconds
    plus the expiry. The token depends on the clock only through its whole
    seconds. *)
Theorem generateJwt_spec (env : gmap string string) (now_ms : Z)
    (claims : obj) (secret : option string) (expiresInSeconds : option Z)
    (text : string) :
  NoDup (obj_keys claims) →
  JSON_stringify (VObj (jwt_body claims expiresInSeconds (now_ms `div` 1000)))
  = Normal (Some text) →
  let body := jwt_body claims expiresInSeconds (now_ms `div` 1000) in
  ∃ h p s,
    generateJwt hmac_sha256 env now_ms (Some claims) secret expiresInSeconds
    = Normal ((h +:+ "." +:+ p) +:+ "." +:+ s)
    ∧ split_dots ((h +:+ "." +:+ p) +:+ "." +:+ s) = [h; p; s]
    ∧ all_chars is_b64url_char h = true
    ∧ all_chars is_b64url_char p = true
    ∧ all_chars is_b64url_char s = true
    ∧ b64url_decode h = Some (utf8 (dq "{'alg':'HS256','typ':'JWT'}"))
    ∧ b64url_decode p = Some (utf8 text)
    ∧ b64url_decode s
      = Some (hmac_sha256 (utf8 (resolve_secret env secret)) (utf8 (h +:+ "." +:+ p)))
    ∧ (∀ k v, obj_get k claims = Some v →
         k ≠ "exp" ∨ ¬ (∃ e, expiresInSeconds = Some e ∧ 0 < e) →
         obj_get k body = Some v)
    ∧ (obj_get "iat" claims = None →
         obj_get "iat" body = Some (VNum (now_ms `div` 1000)))
    ∧ (∀ e, expiresInSeconds = Some e → 0 < e →
         obj_get "exp" body = Some (VNum (now_ms `div` 1000 + e)))
    ∧ (∀ now_ms', now_ms' `div` 1000 = now_ms `div` 1000 →
         generateJwt hmac_sha256 env now_ms' (Some claims) secret expiresInSeconds
         = generateJwt hmac_sha256 env now_ms (Some claims) secret expiresInSeconds).
Proof.
  intros Hnd Htext body.
  destruct (enc_spec _ _ (proj2 enc_header)) as (h & Hh & Hha & Hhd).
  destruct (enc_spec _ _ Htext) as (p & Hp & Hpa & Hpd).
  set (s := url_safe (base64 (hmac_sha256 (utf8 (resolve_secret env secret))
                                (utf8 (h +:+ "." +:+ p))))).
  exists h, p, s.
  assert (Hs : all_chars is_b64url_char s = true) by apply base64url_alphabet.
  split; [|split; [|split; [|split; [|split; [|split; [|split; [|split]]]]]]].
  - unfold generateJwt. simpl default. rewrite Hh, Hp. reflexivity.
  - now apply split_dots_three.
  - exact Hha.
  - exact Hpa.
  - exact Hs.
  - exact Hhd.
  - exact Hpd.
  - apply base64url_roundtrip.
  - assert (Hspread : ∀ k, obj_get k (obj_spread [("iat", VNum (now_ms `div` 1000))] claims)
                     = match obj_get k claims with
                       | Some v => Some v
                       | None => obj_get k [("iat", VNum (now_ms `div` 1000))]
                       end)
      by (intros k; now apply obj_get_spread).
    split; [|split; [|split]].
    + intros k v Hk Hor. unfold body, jwt_body.
      destruct expiresInSeconds as [e|]; [destruct (0 <? e) eqn:E|].
      * destruct Hor as [Hne|Hno].
        -- rewrite obj_get_set_ne by congruence. now rewrite Hspread, Hk.
        -- exfalso. apply Hno. exists e. split; [reflexivity | now apply Z.ltb_lt].
      * now rewrite Hspread, Hk.
      * now rewrite Hspread, Hk.
    + intros Hk. unfold body, jwt_body.
      destruct expiresInSeconds as [e|]; [destruct (0 <? e)|];
        [rewrite obj_get_set_ne by discriminate| |]; now rewrite Hspread, Hk.
    + intros e -> He. unfold body, jwt_body. apply Z.ltb_lt in He. rewrite He.
      apply obj_get_set_eq.
    + intros now_ms' Heq. unfold generateJwt. now rewrite Heq.
Qed.

End SignerProps.

Lemma generateJwt_witness :
  ∃ h p s,
    generateJwt (λ _ _, []) ∅ 1730534400123 (Some [("sub", VStr "user-123")])
      (Some "s3cret") (Some 3600)
    = Normal ((h +:+ "." +:+ p) +:+ "." +:+ s)
    ∧ split_dots ((h +:+ "." +:+ p) +:+ "." +:+ s) = [h; p; s]
    ∧ b64url_decode p
      = Some (utf8 (dq "{'iat':1730534400,'sub':'user-123','exp':1730538000}")).
Proof.
  destruct (generateJwt_spec (λ _ _, []) ∅ 1730534400123 [("sub", VStr "user-123")]
              (Some "s3cret") (Some 3600)
              (dq "{'iat':1730534400,'sub':'user-123','exp':1730538000}"))
    as (h & p & s & H1 & H2 & _ & _ & _ & _ & H3 & _).
  - compute_done.
  - vm_compute. reflexivity.
  - exists h, p, s. repeat split; assumption.
Defined.

(** The claim as written fails for claims that carry [exp] (the computed
    expiry replaces it) or [iat] (it replaces the clock reading, and the
    expiry is still counted from the clock), and for claims that
    [JSON.stringify] rejects, where no token is produced. *)
Lemma generateJwt_counterexample :
  (obj_get "exp" [("exp", VNum 5)] = Some (VNum 5)
   ∧ obj_get "exp" (jwt_body [("exp", VNum 5)] (Some 60) (1000500 `div` 1000))
     = Some (VNum 1060))
  ∧ (obj_get "iat" (jwt_body [("iat", VNum 7)] (Some 60) (1000500 `div` 1000))
     = Some (VNum 7)
     ∧ obj_get "exp" (jwt_body [("iat", VNum 7)] (Some 60) (1000500 `div` 1000))
       = Some (VNum 1060))
  ∧ generateJwt (λ _ _, []) ∅ 1000500 (Some [("n", VBigInt 1)]) (Some "s") None
    = Throw (TypeError "Do not know how to serialize a BigInt").
Proof. vm_compute. repeat split. Qed.

(** * Further properties *)

(** ** The encoding of the token segments *)

(** X1. The segment encoding loses nothing: decoding the unpadded URL-safe
    text of a byte sequence gives the bytes back, so two byte sequences with
    the same encoding are equal. *)
Theorem enc_bytes_roundtrip (bs bs' : list ascii) :
  b64url_decode (url_safe (base64 bs)) = Some bs
  ∧ (url_safe (base64 bs) = url_safe (base64 bs') → bs = bs').
Proof.
  split; [apply base64url_roundtrip|].
  intros H. pose proof (base64url_roundtrip bs) as H1.
  rewrite H, base64url_roundtrip in H1. now injection H1.
Qed.

Lemma url_safe_length_sextet (n : N) (s : string) :
  (n < 64)%N →
  String.length (url_safe (String (b64_char n) s)) = S (String.length (url_safe s)).
Proof. intros Hn. now rewrite url_safe_sextet. Qed.

(** X2. Length of the encoding: the base64 text of n bytes has
    4 * ceil(n / 3) characters, and once the padding is stripped the segment
    has ceil(4 * n / 3) characters. *)
Theorem enc_length (bs : list ascii) :
  String.length (base64 bs) = (4 * ((length bs + 2) / 3))%nat
  ∧ String.length (url_safe (base64 bs)) = ((4 * length bs + 2) / 3)%nat.
Proof.
  induction bs as [|a|a b|a b c r [IH1 IH2]] using list_ind3.
  - split; reflexivity.
  - split; [reflexivity|]. cbn [base64]. sextet_rw. reflexivity.
  - split; [reflexivity|]. cbn [base64]. sextet_rw. reflexivity.
  - split.
    + cbn [base64 String.length length]. rewrite IH1.
      replace (S (S (S (length r))) + 2)%nat with ((length r + 2) + 1 * 3)%nat by lia.
      rewrite Nat.div_add by lia. lia.
    + cbn [base64]. sextet_rw. cbn [String.length length]. rewrite IH2.
      replace (4 * S (S (S (length r))) + 2)%nat with ((4 * length r + 2) + 4 * 3)%nat by lia.
      rewrite Nat.div_add by lia. lia.
Qed.

(** ** The token creator *)

Lemma JSON_stringify_obj_some (o : obj) (t : option string) :
  JSON_stringify (VObj o) = Normal t → ∃ text, t = Some text.
Proof.
  simpl. match goal with |- context [cbind ?c _] => destruct c end; simpl.
  - intros [= <-]. eauto.
  - discriminate.
Qed.

Lemma enc_outcome (o : obj) :
  match JSON_stringify (VObj o) with
  | Normal (Some text) => enc o = Normal (url_safe (base64 (utf8 text)))
  | Normal None => False
  | Throw e => enc o = Throw e
  end.
Proof.
  unfold enc. destruct (JSON_stringify (VObj o)) as [[text|]|e] eqn:E; try reflexivity.
  apply JSON_stringify_obj_some in E as (text & H). discriminate H.
Qed.

Section SignerFurther.

Variable hmac_sha256 : list ascii → list ascii → list ascii.

(** X3. For a claims object and an options object, [generateJwt] fails in
    two ways only: [JSON.stringify] throws on the payload (a BigInt among
    the claims), which is then what [generateJwt] throws, or else the
    secret is neither absent nor a text and [createHmac] throws a
    TypeError. In every other case it returns a token; the environment
    cannot make it fail. *)
Theorem generateJwt_outcome (env : gmap string string) (now_ms : Z)
    (claims : option obj) (expiresInSeconds : option Z) :
  let body := jwt_body (default [] claims) expiresInSeconds (now_ms `div` 1000) in
  (∀ (secret : option string) e,
     generateJwt hmac_sha256 env now_ms claims secret expiresInSeconds = Throw e
     ↔ JSON_stringify (VObj body) = Throw e)
  ∧ (∀ secret : option string,
       (∃ token, generateJwt hmac_sha256 env now_ms claims secret expiresInSeconds
                 = Normal token)
       ↔ ∃ text, JSON_stringify (VObj body) = Normal (Some text))
  ∧ (∀ (secret : value) e,
       generateJwt_with hmac_sha256 env now_ms claims secret expiresInSeconds = Throw e
       ↔ JSON_stringify (VObj body) = Throw e
         ∨ ((∃ text, JSON_stringify (VObj body) = Normal (Some text))
            ∧ usable_secret secret = false
            ∧ e = TypeError "[ERR_INVALID_ARG_TYPE]: The key argument must be of type string"))
  ∧ (∀ secret : value,
       (∃ token, generateJwt_with hmac_sha256 env now_ms claims secret expiresInSeconds
                 = Normal token)
       ↔ (∃ text, JSON_stringify (VObj body) = Normal (Some text))
         ∧ usable_secret secret = true).
Proof.
  intros body.
  assert (Htyped : ∀ secret : option string,
    match JSON_stringify (VObj body) with
    | Normal (Some text) =>
        ∃ token, generateJwt hmac_sha256 env now_ms claims secret expiresInSeconds
                 = Normal token
    | Normal None => False
    | Throw e => generateJwt hmac_sha256 env now_ms claims secret expiresInSeconds = Throw e
    end).
  { intros secret. unfold generateJwt. rewrite (proj1 enc_header). simpl cbind.
    fold body. pose proof (enc_outcome body) as H.
    destruct (JSON_stringify (VObj body)) as [[text|]|e0]; [|contradiction|];
      rewrite H; simpl; eauto. }
  assert (Hother : ∀ secret : value, usable_secret secret = false →
    match JSON_stringify (VObj body) with
    | Normal (Some text) =>
        generateJwt_with hmac_sha256 env now_ms claims secret expiresInSeconds
        = Throw (TypeError "[ERR_INVALID_ARG_TYPE]: The key argument must be of type string")
    | Normal None => False
    | Throw e => generateJwt_with hmac_sha256 env now_ms claims secret expiresInSeconds
                 = Throw e
    end).
  { intros secret Hu. pose proof (enc_outcome body) as H.
    destruct secret; try discriminate Hu; unfold generateJwt_with;
      rewrite (proj1 enc_header); simpl cbind; fold body;
      (destruct (JSON_stringify (VObj body)) as [[text|]|e0]; [|contradiction|];
       rewrite H; reflexivity). }
  split; [|split; [|split]].
  - intros secret e. specialize (Htyped secret).
    destruct (JSON_stringify (VObj body)) as [[text|]|e0]; [|contradiction|].
    + destruct Htyped as (t & ->). split; discriminate.
    + rewrite Htyped. split; intros [= ->]; reflexivity.
  - intros secret. specialize (Htyped secret).
    destruct (JSON_stringify (VObj body)) as [[text|]|e0]; [|contradiction|].
    + split; eauto.
    + rewrite Htyped. split; [intros (t & Ht); discriminate Ht | intros (t & Ht); discriminate Ht].
  - intros secret e. destruct (usable_secret secret) eqn:Hu.
    + assert (Hg : ∃ s, generateJwt_with hmac_sha256 env now_ms claims secret expiresInSeconds
                        = generateJwt hmac_sha256 env now_ms claims s expiresInSeconds).
      { destruct secret; try discriminate Hu; eexists; reflexivity. }
      destruct Hg as (s & ->). specialize (Htyped s).
      destruct (JSON_stringify (VObj body)) as [[text|]|e0]; [|contradiction|].
      * destruct Htyped as (t & ->). split; [discriminate|].
        intros [H|(_ & H & _)]; discriminate H.
      * rewrite Htyped. split; [intros [= ->]; now left|].
        intros [[= ->]|((t & Ht) & _)]; [reflexivity | discriminate Ht].
    + specialize (Hother secret Hu).
      destruct (JSON_stringify (VObj body)) as [[text|]|e0]; [|contradiction|];
        rewrite Hother.
      * split; [intros [= <-]; right; eauto|].
        intros [H|(_ & _ & ->)]; [discriminate H | reflexivity].
      * split; [intros [= ->]; now left|].
        intros [[= ->]|((t & Ht) & _)]; [reflexivity | discriminate Ht].
  - intros secret. destruct (usable_secret secret) eqn:Hu.
    + assert (Hg : ∃ s, generateJwt_with hmac_sha256 env now_ms claims secret expiresInSeconds
                        = generateJwt hmac_sha256 env now_ms claims s expiresInSeconds).
      { destruct secret; try discriminate Hu; eexists; reflexivity. }
      destruct Hg as (s & ->). specialize (Htyped s).
      destruct (JSON_stringify (VObj body)) as [[text|]|e0]; [|contradiction|].
      * split; eauto.
      * rewrite Htyped. split; [intros (t & Ht); discriminate Ht|].
        intros [(t & Ht) _]; discriminate Ht.
    + specialize (Hother secret Hu).
      destruct (JSON_stringify (VObj body)) as [[text|]|e0]; [|contradiction|];
        rewrite Hother; (split; [intros (t & Ht); discriminate Ht|]);
        intros [_ H]; discriminate H.
Qed.

(** X4. The default secret: with no secret argument the token is signed with
    JWT_SECRET of the environment when that is a non-empty text, and with
    dev-secret otherwise; the secret changes nothing but the third segment of
    the token. *)
Theorem generateJwt_secret (env : gmap string string) (now_ms : Z)
    (claims : option obj) (expiresInSeconds : option Z) :
  (truthy_str (env !! "JWT_SECRET") = false →
   generateJwt hmac_sha256 env now_ms claims None expiresInSeconds
   = generateJwt hmac_sha256 env now_ms claims (Some "dev-secret") expiresInSeconds)
  ∧ (∀ s, env !! "JWT_SECRET" = Some s → s ≠ "" →
     generateJwt hmac_sha256 env now_ms claims None expiresInSeconds
     = generateJwt hmac_sha256 env now_ms claims (Some s) expiresInSeconds)
  ∧ (∀ s1 s2 t1 t2,
       generateJwt hmac_sha256 env now_ms claims (Some s1) expiresInSeconds = Normal t1 →
       generateJwt hmac_sha256 env now_ms claims (Some s2) expiresInSeconds = Normal t2 →
       ∃ h p g1 g2, split_dots t1 = [h; p; g1] ∧ split_dots t2 = [h; p; g2]).
Proof.
  split; [|split].
  - intros H. unfold generateJwt, resolve_secret, or_str. now rewrite H.
  - intros s Hs Hne. unfold generateJwt, resolve_secret, or_str.
    rewrite Hs. simpl. destruct (String.eqb_spec s ""); [congruence|]. reflexivity.
  - intros s1 s2 t1 t2. unfold generateJwt. rewrite (proj1 enc_header). simpl cbind.
    set (body := jwt_body (default [] claims) expiresInSeconds (now_ms `div` 1000)).
    pose proof (enc_outcome body) as H.
    destruct (JSON_stringify (VObj body)) as [[text|]|e0]; [|contradiction|];
      rewrite H; simpl; [|discriminate].
    intros [= <-] [= <-]. eexists _, _, _, _.
    split; apply split_dots_three;
      first [apply base64url_alphabet | vm_compute; reflexivity].
Qed.

End SignerFurther.

Lemma generateJwt_secret_witness :
  generateJwt (λ _ _, []) {[ "JWT_SECRET" := "k1" ]} 1000 None None None
  = generateJwt (λ _ _, []) {[ "JWT_SECRET" := "k1" ]} 1000 None (Some "k1") None.
Proof.
  apply (generateJwt_secret (λ _ _, []) {[ "JWT_SECRET" := "k1" ]} 1000 None None).
  - reflexivity.
  - discriminate.
Defined.

Example generateJwt_with_sample :
  generateJwt_with (λ _ _, []) ∅ 1000 None (VNum 5) None
  = Throw (TypeError "[ERR_INVALID_ARG_TYPE]: The key argument must be of type string")
  ∧ generateJwt_with (λ _ _, []) ∅ 1000 (Some [("n", VBigInt 1)]) VNull None
    = Throw (TypeError "Do not know how to serialize a BigInt").
Proof. vm_compute. split; reflexivity. Qed.

(** Key order of the payload *)

Lemma obj_keys_set_insert (k kb : string) (v : value) (o : obj) (ka kr : list string) :
  obj_keys o = ka ++ kb :: kr →
  k ∉ ka → (∀ k', k' ∈ ka → key_before k k' = false) →
  k ≠ kb → key_before k kb = true →
  obj_keys (obj_set k v o) = ka ++ k :: kb :: kr.
Proof.
  intros Hk Hn Hb Hne Hkb. unfold obj_keys in Hk.
  apply fmap_app_inv in Hk as (a & r' & Ha & Hr & ->).
  symmetry in Hr. apply fmap_cons_inv in Hr as ([kb' vb] & r & Hkb' & Hr & ->).
  simpl in Hkb'. subst kb' ka kr.
  rewrite obj_set_insert by assumption.
  unfold obj_keys. rewrite map_app. reflexivity.
Qed.

Lemma obj_spread_snoc (o src : obj) (k : string) (v : value) :
  obj_spread o (src ++ [(k, v)]) = obj_set k v (obj_spread o src).
Proof. unfold obj_spread. now rewrite fold_left_app. Qed.

Lemma own_properties_snoc (s : obj) (k : string) (v : value) :
  own_properties (s ++ [(k, v)]) →
  own_properties s ∧ (k ∉ obj_keys s)
  ∧ ∀ k', k' ∈ obj_keys s → key_before k k' = false.
Proof.
  intros [Hnd Ho]. rewrite obj_keys_app in Hnd, Ho. simpl in Hnd, Ho.
  apply NoDup_app in Hnd as (Hs & Hd & _).
  apply keys_ordered_app in Ho as (Hos & _ & Hx).
  split; [split; assumption|split].
  - intros Hin. apply (Hd k Hin). apply elem_of_cons; now left.
  - intros k' Hk'. apply Hx; [assumption | apply elem_of_cons; now left].
Qed.

(** The keys of [{ iat: v, ...claims }]: the array indices of the claims,
    then [iat], then the other names of the claims. *)
Lemma obj_keys_spread_iat (v0 : value) (src : obj) :
  own_properties src →
  obj_keys (obj_spread [("iat", v0)] src)
  = filter (λ k, is_Some (array_index k)) (obj_keys src)
    ++ "iat" :: filter (λ k, array_index k = None ∧ k ≠ "iat") (obj_keys src).
Proof.
  induction src as [|[k v] s IH] using rev_ind; intros Ho; [reflexivity|].
  apply own_properties_snoc in Ho as (Hs & Hk & Hb).
  specialize (IH Hs). rewrite obj_spread_snoc, obj_keys_app, !filter_app. simpl.
  destruct (array_index k) as [n|] eqn:Ek.
  - assert (Hall : ∀ x, x ∈ obj_keys s → is_Some (array_index x)).
    { intros x Hx. specialize (Hb x Hx). unfold key_before in Hb. rewrite Ek in Hb.
      destruct (array_index x); [eauto | discriminate Hb]. }
    assert (F1 : filter (λ k, is_Some (array_index k)) (obj_keys s) = obj_keys s).
    { clear - Hall. induction (obj_keys s) as [|x l IHl]; [reflexivity|].
      rewrite filter_cons_True by (apply Hall; apply elem_of_cons; now left).
      f_equal. apply IHl. intros y Hy. apply Hall. apply elem_of_cons; now right. }
    assert (F2 : filter (λ k, array_index k = None ∧ k ≠ "iat") (obj_keys s) = []).
    { clear - Hall. induction (obj_keys s) as [|x l IHl]; [reflexivity|].
      rewrite filter_cons_False.
      - apply IHl. intros y Hy. apply Hall. apply elem_of_cons; now right.
      - intros [Hx _]. destruct (Hall x) as [m Hm]; [apply elem_of_cons; now left|].
        congruence. }
    rewrite F1, F2 in IH. rewrite F1, F2.
    rewrite filter_cons_True by (rewrite Ek; eauto).
    rewrite filter_cons_False by (rewrite Ek; intros [H _]; discriminate H).
    rewrite !filter_nil. simpl. rewrite <- app_assoc. simpl.
    apply (obj_keys_set_insert k "iat" v _ (obj_keys s) []); auto.
    + intros ->. discriminate Ek.
    + unfold key_before. rewrite Ek. reflexivity.
  - rewrite filter_cons_False by (rewrite Ek; intros [m Hm]; discriminate Hm).
    rewrite filter_nil, app_nil_r.
    rewrite obj_keys_set_name by assumption. rewrite IH.
    destruct (decide (k = "iat")) as [->|Hne].
    + rewrite bool_decide_eq_true_2 by (apply elem_of_app; right; apply elem_of_cons; now left).
      rewrite filter_cons_False by (intros [_ H]; now apply H).
      rewrite filter_nil, app_nil_r. reflexivity.
    + rewrite bool_decide_eq_false_2.
      * rewrite filter_cons_True by (split; assumption).
        rewrite filter_nil. rewrite <- app_assoc. reflexivity.
      * rewrite elem_of_app, elem_of_cons, !list_elem_of_filter. intros [[_ H]|[H|[_ H]]]; auto.
Qed.

(** X5. Field order of the payload, for the own properties of a claims
    object: the array indices among the claims come first, then iat, then
    the other claims in their order (a claim named iat takes the place of
    iat), and exp is added at the end for a positive expiry unless the
    claims have an exp, whose place is kept. With no positive expiry an exp
    of the claims is passed through unchanged. *)
Theorem jwt_body_keys (claims : obj) (expiresInSeconds : option Z) (nowSec : Z) :
  own_properties claims →
  let positive := match expiresInSeconds with Some e => 0 <? e | None => false end in
  let indices := filter (λ k, is_Some (array_index k)) (obj_keys claims) in
  let names := filter (λ k, array_index k = None ∧ k ≠ "iat") (obj_keys claims) in
  obj_keys (jwt_body claims expiresInSeconds nowSec)
  = indices ++ "iat" :: names
    ++ (if positive && negb (bool_decide ("exp" ∈ obj_keys claims)) then ["exp"] else [])
  ∧ (positive = false →
     obj_get "exp" (jwt_body claims expiresInSeconds nowSec) = obj_get "exp" claims).
Proof.
  intros Ho positive indices names.
  assert (Hb : obj_keys (obj_spread [("iat", VNum nowSec)] claims) = indices ++ "iat" :: names)
    by now apply obj_keys_spread_iat.
  assert (Hin : "exp" ∈ indices ++ "iat" :: names ↔ "exp" ∈ obj_keys claims).
  { unfold indices, names.
    rewrite elem_of_app, elem_of_cons, !list_elem_of_filter. split.
    - intros [[_ H]|[H|[_ H]]]; [assumption | discriminate H | assumption].
    - intros H. right; right. split; [split; [reflexivity | discriminate] | assumption]. }
  split.
  - unfold jwt_body. fold positive.
    destruct expiresInSeconds as [e|]; simpl in positive; subst positive.
    + destruct (0 <? e); simpl.
      * rewrite obj_keys_set_name by reflexivity. rewrite Hb.
        destruct (decide ("exp" ∈ obj_keys claims)) as [H|H].
        -- rewrite !bool_decide_eq_true_2; [| assumption | now apply Hin].
           simpl. now rewrite app_nil_r.
        -- rewrite !bool_decide_eq_false_2; [| assumption | now rewrite Hin].
           simpl. now rewrite <- app_assoc.
      * rewrite Hb. now rewrite app_nil_r.
    + simpl. rewrite Hb. now rewrite app_nil_r.
  - intros Hp. unfold jwt_body.
    assert (Hbody : obj_get "exp" (obj_spread [("iat", VNum nowSec)] claims)
                    = obj_get "exp" claims).
    { rewrite obj_get_spread by apply Ho. destruct (obj_get "exp" claims); reflexivity. }
    destruct expiresInSeconds as [e|]; [|exact Hbody].
    simpl in Hp. subst positive. rewrite Hp. exact Hbody.
Qed.

Lemma jwt_body_keys_witness :
  obj_keys (jwt_body [("7", VStr "x"); ("sub", VStr "u"); ("iat", VNum 5)] (Some 60) 1000)
  = ["7"; "iat"; "sub"; "exp"].
Proof.
  apply (proj1 (jwt_body_keys [("7", VStr "x"); ("sub", VStr "u"); ("iat", VNum 5)]
                  (Some 60) 1000 ltac:(split; [compute_done | reflexivity]))).
Defined.

(** ** The redactor, further *)







(** X7. For the own properties of an object: when it has no property
    named __proto__ and there is no name to redact (an absent or an empty
    list), the result is a copy equal to the input; the result never has an
    own property named __proto__; and whatever the names, a value of the
    result is either the marker or the value of the input at that key. *)
Theorem redactObjectKeys_no_names (o : obj) :
  own_properties o →
  ("__proto__" ∉ obj_keys o →
   redactObjectKeys (Some o) None = o ∧ redactObjectKeys (Some o) (Some []) = o)
  ∧ (∀ keys, "__proto__" ∉ obj_keys (redactObjectKeys (Some o) keys))
  ∧ (∀ keys k v, obj_get k (redactObjectKeys (Some o) keys) = Some v →
       v = VStr "[REDACTED]" ∨ obj_get k o = Some v).
Proof.
  intros Ho.
  assert (Hid : ∀ keys, "__proto__" ∉ obj_keys o → lowered_set keys = ∅ →
                redactObjectKeys (Some o) keys = o).
  { intros keys Hp He. rewrite redactObjectKeys_map by assumption. rewrite He.
    rewrite <- (map_id o) at 2. apply map_ext. intros [k v]. reflexivity. }
  split; [intros Hp; split; apply Hid; auto|split].
  - intros keys. apply obj_get_None.
    rewrite redactObjectKeys_filter by assumption.
    rewrite obj_get_map, obj_get_filter_proto. reflexivity.
  - intros keys k v. rewrite redactObjectKeys_filter by assumption.
    rewrite obj_get_map, obj_get_filter_proto.
    destruct (String.eqb k "__proto__"); [discriminate|].
    destruct (obj_get k o) as [v0|]; simpl; [|discriminate].
    unfold redact_value. destruct (bool_decide _); intros [= <-]; auto.
Qed.

Lemma redactObjectKeys_no_names_witness :
  redactObjectKeys (Some [("authorization", VStr "Bearer x")]) None
  = [("authorization", VStr "Bearer x")].
Proof.
  assert (Ho : own_properties [("authorization", VStr "Bearer x")])
    by (split; [compute_done | reflexivity]).
  assert (Hp : "__proto__" ∉ obj_keys [("authorization", VStr "Bearer x")])
    by compute_done.
  exact (proj1 (proj1 (redactObjectKeys_no_names _ Ho) Hp)).
Defined.

(** ** The truncator, further *)

Lemma str_slice_negative (s : string) (max : Z) :
  max < 0 → str_slice s 0 max = str_take (Z.to_nat (str_length s + max)) s.
Proof.
  intros Hm. unfold str_slice, slice_pos.
  pose proof (str_length_nonneg s) as Hl.
  replace (0 <? 0) with false by reflexivity.
  destruct (max <? 0) eqn:E; [|apply Z.ltb_ge in E; lia].
  rewrite (Z.min_l 0) by lia. simpl. f_equal. lia.
Qed.

(** X8. A truncated text keeps the first max characters and is
    max + 16 + (number of digits of the elided count) characters long. So the
    result is longer than max by at least 16, and a text that exceeds max by at
    most 16 characters comes out no shorter than it went in. *)
Theorem limitSize_truncated_length (v : value) (max : Z) (s : string) :
  to_text v = Normal (Some s) → 0 ≤ max < str_length s →
  ∃ r, limitSize v max = Normal (VStr r)
       ∧ str_take (Z.to_nat max) r = str_take (Z.to_nat max) s
       ∧ str_length r = max + 16 + str_length (show_Z (str_length s - max))
       ∧ max + 16 ≤ str_length r
       ∧ (str_length s ≤ max + 16 → str_length s ≤ str_length r).
Proof.
  intros Ht Hm. rewrite (limitSize_over v max s Ht Hm). eexists; split; [reflexivity|].
  assert (Hk : String.length (str_take (Z.to_nat max) s) = Z.to_nat max).
  { apply str_take_length. unfold str_length in Hm. lia. }
  assert (Hlen : str_length (str_take (Z.to_nat max) s +:+ "...("
                             +:+ show_Z (str_length s - max) +:+ " more bytes)")
                 = max + 16 + str_length (show_Z (str_length s - max))).
  { unfold str_length. rewrite !length_append, Hk. simpl String.length. lia. }
  pose proof (str_length_nonneg (show_Z (str_length s - max))) as Hd.
  split; [|split; [exact Hlen|split; lia]].
  clear Hlen. generalize ("...(" +:+ show_Z (str_length s - max) +:+ " more bytes)").
  intros tail. revert Hk. generalize (Z.to_nat max). intros n. clear.
  revert s. induction n as [|n IH]; intros [|c s] Hk; simpl in *; try reflexivity; try lia.
  f_equal. apply IH. lia.
Qed.

Lemma limitSize_truncated_length_witness :
  ∃ r, limitSize (VStr "0123456789") 9 = Normal (VStr r) ∧ 10 ≤ str_length r.
Proof.
  destruct (limitSize_truncated_length (VStr "0123456789") 9 "0123456789")
    as (r & H1 & _ & _ & _ & H2).
  - reflexivity.
  - vm_compute. split; [discriminate | reflexivity].
  - exists r. split; [exact H1|]. apply H2. vm_compute. discriminate.
Defined.

(** X9. With a negative threshold every non-empty text is truncated:
    slice(0, max) drops the last |max| characters, and the marker counts
    length + |max| characters, more than the text has; when the text has at
    most |max| characters only the marker is left. *)
Theorem limitSize_negative_threshold (v : value) (max : Z) (s : string) :
  to_text v = Normal (Some s) → s ≠ "" → max < 0 →
  limitSize v max
  = Normal (VStr (str_take (Z.to_nat (str_length s + max)) s +:+ "...("
                  +:+ show_Z (str_length s - max) +:+ " more bytes)"))
  ∧ str_length s < str_length s - max
  ∧ (str_length s ≤ - max →
     limitSize v max
     = Normal (VStr ("...(" +:+ show_Z (str_length s - max) +:+ " more bytes)"))).
Proof.
  intros Ht Hne Hm. pose proof (str_length_nonneg s) as Hl.
  assert (E : limitSize v max
              = Normal (VStr (str_take (Z.to_nat (str_length s + max)) s +:+ "...("
                              +:+ show_Z (str_length s - max) +:+ " more bytes)"))).
  { unfold limitSize. rewrite Ht. simpl.
    destruct (String.eqb_spec s ""); [congruence|]. simpl.
    destruct (str_length s >? max) eqn:G.
    - now rewrite str_slice_negative.
    - rewrite Z.gtb_ltb in G. apply Z.ltb_ge in G. lia. }
  split; [exact E|split; [lia|]].
  intros Hle. rewrite E. replace (Z.to_nat (str_length s + max)) with O by lia.
  reflexivity.
Qed.

Lemma limitSize_negative_threshold_witness :
  limitSize (VStr "hello") (-2) = Normal (VStr "hel...(7 more bytes)").
Proof.
  destruct (limitSize_negative_threshold (VStr "hello") (-2) "hello") as (H & _).
  - reflexivity.
  - discriminate.
  - reflexivity.
  - rewrite H. vm_compute. reflexivity.
Defined.

(** ** The safe serializer *)

(** Induction on values that reaches the elements of arrays and the
    property values of objects. *)

Lemma value_ind_nested (P : value → Prop) :
  P VUndefined → P VNull → (∀ b, P (VBool b)) → (∀ n, P (VNum n)) →
  (∀ n, P (VBigInt n)) → (∀ s, P (VStr s)) →
  (∀ xs, Forall P xs → P (VArr xs)) →
  (∀ ps, Forall (λ kv, P kv.2) ps → P (VObj ps)) →
  P VFun →
  ∀ v, P v.
Proof.
  intros Hu Hn Hb Hz Hbig Hs Ha Ho Hf.
  fix IH 1. intros [| |b|n|n|s|xs|ps|].
  - exact Hu.
  - exact Hn.
  - apply Hb.
  - apply Hz.
  - apply Hbig.
  - apply Hs.
  - apply Ha. induction xs as [|x r IHr]; constructor; [apply IH | exact IHr].
  - apply Ho. induction ps as [|[k x] r IHr]; constructor; [apply IH | exact IHr].
  - exact Hf.
Qed.

(** The clone is clean, prints like the original, and is its own clone. *)

Lemma JSON_clone_spec (v w : value) :
  JSON_parse_stringify v = Normal w →
  json_clean w = true
  ∧ JSON_stringify w = JSON_stringify v
  ∧ JSON_parse_stringify w = Normal w.
Proof.
  revert w. induction v as [| |b|n|n|s|xs IH|ps IH|] using value_ind_nested;
    intros w H; simpl in H; try discriminate H;
    try (injection H as <-; repeat split; reflexivity).
  - (* arrays *)
    match type of H with cbind ?c _ = _ => destruct c as [ys|e] eqn:E end;
      [|discriminate H].
    simpl in H. injection H as <-. simpl.
    match goal with
    | |- _ ∧ cbind ?a _ = cbind ?b _ ∧ cbind ?c _ = _ =>
        assert (Heq : forallb json_clean ys = true ∧ a = b ∧ c = Normal ys)
    end; [|destruct Heq as (H1 & H2 & H3); now rewrite H1, H2, H3].
    revert ys E. induction IH as [|x r Hx _ IHr]; intros ys E.
    + injection E as <-. repeat split; reflexivity.
    + destruct (is_unserializable x) eqn:Ux.
      * simpl in E.
        match type of E with cbind ?c _ = _ => destruct c as [ys'|e] eqn:E' end;
          [|discriminate E].
        simpl in E. injection E as <-.
        destruct (IHr ys' eq_refl) as (H1 & H2 & H3).
        simpl. rewrite H1, H2, H3.
        destruct x; try discriminate Ux; repeat split; reflexivity.
      * destruct (JSON_parse_stringify x) as [y|e] eqn:Ey; [|discriminate E].
        simpl in E.
        match type of E with cbind ?c _ = _ => destruct c as [ys'|e] eqn:E' end;
          [|discriminate E].
        simpl in E. injection E as <-.
        destruct (IHr ys' eq_refl) as (H1 & H2 & H3).
        destruct (Hx y eq_refl) as (G1 & G2 & G3).
        simpl. rewrite H1, H2, H3, G1, G2, G3.
        assert (Uy : is_unserializable y = false) by (destruct y; try discriminate G1; reflexivity).
        rewrite Uy. repeat split; reflexivity.
  - (* objects *)
    match type of H with cbind ?c _ = _ => destruct c as [qs|e] eqn:E end;
      [|discriminate H].
    simpl in H. injection H as <-. simpl.
    match goal with
    | |- _ ∧ cbind ?a _ = cbind ?b _ ∧ cbind ?c _ = _ =>
        assert (Heq : forallb (λ kv, json_clean kv.2) qs = true ∧ a = b ∧ c = Normal qs)
    end; [|destruct Heq as (H1 & H2 & H3); now rewrite H1, H2, H3].
    revert qs E. induction IH as [|[k x] r Hx _ IHr]; intros qs E.
    + injection E as <-. repeat split; reflexivity.
    + simpl in Hx. destruct (is_unserializable x) eqn:Ux.
      * destruct (IHr qs E) as (H1 & H2 & H3).
        split; [exact H1|split; [|exact H3]]. rewrite H2.
        destruct x; try discriminate Ux; simpl;
          match goal with |- _ = cbind ?m _ => destruct m; reflexivity end.
      * destruct (JSON_parse_stringify x) as [y|e] eqn:Ey; [|discriminate E].
        simpl in E.
        match type of E with cbind ?c _ = _ => destruct c as [qs'|e] eqn:E' end;
          [|discriminate E].
        simpl in E. injection E as <-.
        destruct (IHr qs' eq_refl) as (H1 & H2 & H3).
        destruct (Hx y eq_refl) as (G1 & G2 & G3).
        simpl. rewrite H1, H2, H3, G1, G2, G3.
        assert (Uy : is_unserializable y = false) by (destruct y; try discriminate G1; reflexivity).
        rewrite Uy. repeat split; reflexivity.
Qed.

Lemma JSON_clean_fixed (v : value) :
  json_clean v = true → JSON_parse_stringify v = Normal v.
Proof.
  induction v as [| |b|n|n|s|xs IH|ps IH|] using value_ind_nested;
    intros H; simpl in H; try discriminate H; try reflexivity.
  - simpl.
    match goal with |- cbind ?c _ = _ => assert (E : c = Normal xs) end;
      [|now rewrite E].
    induction IH as [|x r Hx _ IHr]; [reflexivity|].
    simpl in H. apply andb_true_iff in H as [Hc Hr].
    assert (Ux : is_unserializable x = false) by (destruct x; try discriminate Hc; reflexivity).
    rewrite Ux, (Hx Hc), (IHr Hr). reflexivity.
  - simpl.
    match goal with |- cbind ?c _ = _ => assert (E : c = Normal ps) end;
      [|now rewrite E].
    induction IH as [|[k x] r Hx _ IHr]; [reflexivity|].
    simpl in H, Hx. apply andb_true_iff in H as [Hc Hr].
    assert (Ux : is_unserializable x = false) by (destruct x; try discriminate Hc; reflexivity).
    rewrite Ux, (Hx Hc), (IHr Hr). reflexivity.
Qed.

(** X10. [safeSerialize] never throws and is idempotent. Its result is
    undefined, or a value made of null, booleans, numbers, texts, arrays and
    objects only that has the JSON text of the input; a value that is already
    of this kind is returned unchanged, and a value with no JSON text, or on
    which JSON.stringify throws, gives undefined. *)
Theorem safeSerialize_spec (v : value) :
  ∃ w, safeSerialize v = Normal w
       ∧ safeSerialize w = Normal w
       ∧ (w = VUndefined ∨ (json_clean w = true ∧ JSON_stringify w = JSON_stringify v))
       ∧ (json_clean v = true → w = v)
       ∧ (is_unserializable v = true → w = VUndefined)
       ∧ ((∃ e, JSON_stringify v = Throw e) → w = VUndefined).
Proof.
  destruct (JSON_parse_stringify v) as [w|e] eqn:E.
  - destruct (JSON_clone_spec v w E) as (Hc & Hp & Hf).
    exists w.
    assert (Hs : safeSerialize v = Normal w).
    { unfold safeSerialize. destruct v; try (now rewrite E); discriminate E. }
    assert (Hw : safeSerialize w = Normal w).
    { unfold safeSerialize. destruct w; try (now rewrite Hf); reflexivity. }
    split; [exact Hs|split; [exact Hw|split; [right; split; assumption|split; [|split]]]].
    + intros Hv. rewrite (JSON_clean_fixed v Hv) in E. now injection E.
    + intros Hu. destruct v; try discriminate Hu; discriminate E.
    + intros (e & He). rewrite <- Hp in He.
      exfalso. clear - Hc He. revert e He.
      induction w as [| |b|n|n|s|xs IH|ps IH|] using value_ind_nested;
        intros e He; simpl in Hc, He; try discriminate; try (destruct b; discriminate).
      * match type of He with cbind ?c _ = _ => destruct c as [ss|e'] eqn:Es end;
          [discriminate He|]. clear He.
        revert e' Es. induction IH as [|x r Hx _ IHr]; intros e' Es; [discriminate Es|].
        simpl in Hc. apply andb_true_iff in Hc as [Hcx Hcr].
        destruct (JSON_stringify x) as [o|ex] eqn:Ex; [|now apply (Hx Hcx ex)].
        simpl in Es.
        match type of Es with cbind ?c _ = _ => destruct c as [ss|e''] eqn:Es' end;
          [discriminate Es|]. now apply (IHr Hcr e'').
      * match type of He with cbind ?c _ = _ => destruct c as [ss|e'] eqn:Es end;
          [discriminate He|]. clear He.
        revert e' Es. induction IH as [|[k x] r Hx _ IHr]; intros e' Es; [discriminate Es|].
        simpl in Hc, Hx. apply andb_true_iff in Hc as [Hcx Hcr].
        destruct (JSON_stringify x) as [o|ex] eqn:Ex; [|now apply (Hx Hcx ex)].
        simpl in Es.
        match type of Es with cbind ?c _ = _ => destruct c as [ss|e''] eqn:Es' end;
          [discriminate Es|]. now apply (IHr Hcr e'').
  - exists VUndefined.
    assert (Hs : safeSerialize v = Normal VUndefined).
    { unfold safeSerialize. destruct v; try (now rewrite E); reflexivity. }
    split; [exact Hs|split; [reflexivity|split; [now left|split; [|split; reflexivity]]]].
    intros Hv. rewrite (JSON_clean_fixed v Hv) in E. discriminate E.
Qed.

Example safeSerialize_sample :
  safeSerialize (VObj [("a", VArr [VNum 1; VUndefined; VFun]); ("f", VFun); ("s", VStr "x")])
  = Normal (VObj [("a", VArr [VNum 1; VNull; VNull]); ("s", VStr "x")])
  ∧ safeSerialize (VObj [("n", VBigInt 5)]) = Normal VUndefined.
Proof. split; reflexivity. Qed.

(** ** The entry *)

(** X11. The entry is always built, with the fields time, requestId, method,
    url, status, duration, ip, userAgent, contentLength in this order, followed
    by requestHeaders when includeHeaders is set and by requestBody when
    includeBody is set; status, url and time are the status of the response,
    the original URL and the time of the clock. *)
Theorem build_entry_shape (c : closure) (r : response) (clk : clock) :
  ∃ entry,
    build_entry c r clk = Normal entry
    ∧ obj_keys entry
      = base_keys
        ++ (if includeHeaders (cl_cfg c) then ["requestHeaders"] else [])
        ++ (if includeBody (cl_cfg c) then ["requestBody"] else [])
    ∧ obj_get "status" entry = Some (VNum (statusCode r))
    ∧ obj_get "url" entry = Some (VStr (cl_originalUrl c))
    ∧ obj_get "time" entry = Some (VStr (now_iso clk)).
Proof.
  unfold build_entry. cbv zeta.
  destruct (includeBody (cl_cfg c)).
  - destruct (safeSerialize_total (body (cl_req c))) as (v' & ->).
    unfold cbind at 1.
    destruct (limitSize_total v' (maxBodyLength (cl_cfg c))) as (b & -> & _).
    unfold cbind. eexists; split; [reflexivity|].
    destruct (includeHeaders (cl_cfg c)); repeat split; reflexivity.
  - eexists; split; [reflexivity|].
    destruct (includeHeaders (cl_cfg c)); repeat split; reflexivity.
Qed.

(** X12. For a headers object with no property named __proto__: with
    includeHeaders the entry carries a copy of the request headers, the same
    names in the same order, where the headers named by redactKeys (up to
    letter case) hold the marker and the others their value; without
    includeHeaders the entry has no requestHeaders field. *)
Theorem entry_headers_redacted (c : closure) (r : response) (clk : clock) :
  own_properties (headers (cl_req c)) →
  "__proto__" ∉ obj_keys (headers (cl_req c)) →
  ∃ entry,
    build_entry c r clk = Normal entry
    ∧ if includeHeaders (cl_cfg c) then
        ∃ hs,
          obj_get "requestHeaders" entry = Some (VObj hs)
          ∧ obj_keys hs = obj_keys (headers (cl_req c))
          ∧ (∀ k v, obj_get k (headers (cl_req c)) = Some v →
               ci_match k (redactKeys (cl_cfg c)) →
               obj_get k hs = Some (VStr "[REDACTED]"))
          ∧ (∀ k v, obj_get k (headers (cl_req c)) = Some v →
               ¬ ci_match k (redactKeys (cl_cfg c)) →
               obj_get k hs = Some v)
      else obj_get "requestHeaders" entry = None.
Proof.
  intros Ho Hp. unfold build_entry. cbv zeta.
  set (hs := redactObjectKeys (Some (headers (cl_req c))) (Some (redactKeys (cl_cfg c)))).
  assert (Hh : obj_keys hs = obj_keys (headers (cl_req c))
               ∧ (∀ k v, obj_get k (headers (cl_req c)) = Some v →
                    ci_match k (redactKeys (cl_cfg c)) →
                    obj_get k hs = Some (VStr "[REDACTED]"))
               ∧ (∀ k v, obj_get k (headers (cl_req c)) = Some v →
                    ¬ ci_match k (redactKeys (cl_cfg c)) →
                    obj_get k hs = Some v)).
  { unfold hs. rewrite redactObjectKeys_map by assumption. split; [|split].
    - unfold obj_keys. now rewrite map_map.
    - intros k v Hk Hm. rewrite obj_get_map, Hk. simpl. unfold redact_value.
      rewrite bool_decide_eq_true_2; [reflexivity|]. now apply lowered_set_spec.
    - intros k v Hk Hm. rewrite obj_get_map, Hk. simpl. unfold redact_value.
      rewrite bool_decide_eq_false_2; [reflexivity|]. now rewrite lowered_set_spec. }
  destruct (includeBody (cl_cfg c)).
  - destruct (safeSerialize_total (body (cl_req c))) as (v' & ->).
    unfold cbind at 1.
    destruct (limitSize_total v' (maxBodyLength (cl_cfg c))) as (b & -> & _).
    unfold cbind. eexists; split; [reflexivity|].
    destruct (includeHeaders (cl_cfg c)); [|reflexivity].
    exists hs. split; [reflexivity | exact Hh].
  - eexists; split; [reflexivity|].
    destruct (includeHeaders (cl_cfg c)); [|reflexivity].
    exists hs. split; [reflexivity | exact Hh].
Qed.

Lemma entry_headers_redacted_witness :
  ∃ entry hs,
    build_entry (mk_closure (with_includeHeaders default_config) login_request sample_clock)
      fresh_response sample_clock = Normal entry
    ∧ obj_get "requestHeaders" entry = Some (VObj hs)
    ∧ obj_get "Authorization" hs = Some (VStr "[REDACTED]").
Proof.
  destruct (entry_headers_redacted
              (mk_closure (with_includeHeaders default_config) login_request sample_clock)
              fresh_response sample_clock) as (entry & He & H).
  - split; [compute_done | reflexivity].
  - compute_done.
  - change (includeHeaders _) with true in H. destruct H as (hs & H1 & _ & H2 & _).
    exists entry, hs. split; [exact He|split; [exact H1|]].
    apply (H2 "Authorization" (VStr "Bearer abc")); [reflexivity|].
    exists "authorization". split; [|reflexivity].
    change (redactKeys _) with default_redactKeys. unfold default_redactKeys.
    apply elem_of_cons. now left.
Defined.

(** X13. redactKeys does not reach the body: with includeBody, a JSON body
    whose text is not empty and within maxBodyLength is recorded verbatim as
    requestBody, a password field included. *)
Theorem entry_body_not_redacted (c : closure) (r : response) (clk : clock)
    (text : string) :
  includeBody (cl_cfg c) = true →
  json_clean (body (cl_req c)) = true →
  to_text (body (cl_req c)) = Normal (Some text) →
  text ≠ "" →
  str_length text ≤ maxBodyLength (cl_cfg c) →
  ∃ entry,
    build_entry c r clk = Normal entry
    ∧ obj_get "requestBody" entry = Some (VStr text).
Proof.
  intros Hb Hc Ht Hne Hle. unfold build_entry. cbv zeta. rewrite Hb.
  assert (Hs : safeSerialize (body (cl_req c)) = Normal (body (cl_req c))).
  { unfold safeSerialize. rewrite (JSON_clean_fixed _ Hc).
    destruct (body (cl_req c)); try reflexivity; discriminate Hc. }
  rewrite Hs. unfold cbind at 1.
  rewrite (limitSize_under _ _ text Ht Hne Hle). unfold cbind.
  eexists; split; [reflexivity|]. apply obj_get_set_eq.
Qed.

Lemma entry_body_not_redacted_witness :
  ∃ entry,
    build_entry (mk_closure (with_includeBody default_config) login_request sample_clock)
      fresh_response sample_clock = Normal entry
    ∧ obj_get "requestBody" entry = Some (VStr (dq "{'password':'p@ss'}")).
Proof.
  apply (entry_body_not_redacted
           (mk_closure (with_includeBody default_config) login_request sample_clock)
           fresh_response sample_clock (dq "{'password':'p@ss'}")).
  - reflexivity.
  - reflexivity.
  - vm_compute. reflexivity.
  - discriminate.
  - vm_compute. discriminate.
Defined.

(** ** The life of a request, in more detail *)

Lemma emissions_app (a b : list effect) : emissions (a ++ b) = emissions a ++ emissions b.
Proof. apply filter_app. Qed.

Lemma network_requests_app (a b : list effect) :
  network_requests (a ++ b) = network_requests a ++ network_requests b.
Proof. apply filter_app. Qed.

Lemma quiet_filters (d : list effect) :
  Forall (λ e, is_quiet e = true) d → emissions d = [] ∧ network_requests d = [].
Proof.
  intros H. induction H as [|e d He _ [IH1 IH2]]; [split; reflexivity|].
  unfold emissions, network_requests in *. rewrite !filter_cons, IH1, IH2.
  destruct e; try discriminate He; split; reflexivity.
Qed.

Lemma network_filters (d : list effect) :
  Forall (λ e, is_network e = true) d → emissions d = [] ∧ network_requests d = d.
Proof.
  intros H. induction H as [|e d He _ [IH1 IH2]]; [split; reflexivity|].
  unfold emissions, network_requests in *. rewrite !filter_cons, IH1, IH2.
  destruct e; try discriminate He; split; reflexivity.
Qed.

(** The delivery branch: one emission, then at most one network request,
    and none in local mode. *)

Lemma deliver_effects (cfg : config) (m : value) (entry : obj) (w : world) :
  ∃ r d,
    deliver cfg m entry w = (r, add_trace (emission_of cfg m entry :: d) w)
    ∧ Forall (λ e, is_network e = true) d
    ∧ (length d ≤ 1)%nat
    ∧ (remote_configured cfg = false → d = [] ∧ r = logger cfg m)
    ∧ (remote_configured cfg = true → r = Normal tt).
Proof.
  unfold deliver, emission_of. destruct (remote_configured cfg) eqn:E.
  - set (u := default "" (remoteLogUrl cfg)). set (t := default "" (authToken cfg)).
    destruct (postToRemote_spec u t (VObj (remote_payload cfg m entry))
                (add_trace [EPostToRemote u t (remote_payload cfg m entry)] w))
      as (d & Hd & Hnet & Hlen).
    exists (Normal tt), d. munfold.
    fold (add_trace [EPostToRemote u t (remote_payload cfg m entry)] w).
    rewrite Hd, add_trace_add. simpl.
    repeat split; try assumption; discriminate.
  - exists (logger cfg m), []. munfold.
    split; [reflexivity|split; [constructor|split; [simpl; lia|split]]].
    + intros _. split; reflexivity.
    + discriminate.
Qed.

(** What [onFinish] adds to the trace. *)

Lemma onFinish_emissions (c : closure) (w : world) :
  ∃ entry d,
    build_entry c (res w) (now w) = Normal entry
    ∧ onFinish c w = (Normal tt, add_trace d (unregister w))
    ∧ emissions d
      = match delivered_message c entry (res w) with
        | Some m => [emission_of (cl_cfg c) m entry]
        | None => []
        end
    ∧ (length (network_requests d) ≤ 1)%nat
    ∧ (remote_configured (cl_cfg c) = false → network_requests d = []).
Proof.
  destruct (build_entry_total c (res w) (now w)) as (entry & Hb & _).
  exists entry.
  rewrite onFinish_unfold. unfold onFinish_body, delivered_message. munfold.
  rewrite Hb. fold (add_trace [EEntry entry] w).
  assert (Hfin : ∀ m,
    ∃ d,
      (let (r, w1) := deliver (cl_cfg c) m entry (add_trace [EEntry entry] w) in
       match r with
       | Normal _ => w1
       | Throw e => add_trace [EConsoleError e] w1
       end) = add_trace d w
      ∧ emissions d = [emission_of (cl_cfg c) m entry]
      ∧ (length (network_requests d) ≤ 1)%nat
      ∧ (remote_configured (cl_cfg c) = false → network_requests d = [])).
  { intros m.
    destruct (deliver_effects (cl_cfg c) m entry (add_trace [EEntry entry] w))
      as (r & d & Hd & Hnet & Hlen & Hloc & _).
    rewrite Hd. destruct (network_filters d Hnet) as [F1 F2].
    assert (Hem : emissions [emission_of (cl_cfg c) m entry]
                  = [emission_of (cl_cfg c) m entry]
                  ∧ network_requests [emission_of (cl_cfg c) m entry] = []).
    { unfold emission_of. destruct (remote_configured (cl_cfg c)); split; reflexivity. }
    destruct Hem as [G1 G2].
    destruct r as [[]|e].
    - exists (EEntry entry :: emission_of (cl_cfg c) m entry :: d).
      rewrite add_trace_add. split; [reflexivity|].
      change (EEntry entry :: emission_of (cl_cfg c) m entry :: d)
        with ([EEntry entry] ++ [emission_of (cl_cfg c) m entry] ++ d).
      rewrite !emissions_app, !network_requests_app, F1, F2, G1, G2. simpl.
      split; [reflexivity|split; [exact Hlen|]]. intros Hr. now destruct (Hloc Hr).
    - exists (EEntry entry :: emission_of (cl_cfg c) m entry :: d ++ [EConsoleError e]).
      rewrite !add_trace_add. split; [reflexivity|].
      change (EEntry entry :: emission_of (cl_cfg c) m entry :: d ++ [EConsoleError e])
        with ([EEntry entry] ++ [emission_of (cl_cfg c) m entry] ++ d ++ [EConsoleError e]).
      rewrite !emissions_app, !network_requests_app, F1, F2, G1, G2. simpl.
      rewrite app_nil_r.
      split; [reflexivity|split; [exact Hlen|]]. intros Hr. now destruct (Hloc Hr). }
  assert (Hnone : ∀ d, emissions d = [] → network_requests d = [] →
    emissions d = [] ∧ (length (network_requests d) ≤ 1)%nat
    ∧ (remote_configured (cl_cfg c) = false → network_requests d = [])).
  { intros d H1 H2. rewrite H1, H2. repeat split. simpl; lia. }
  destruct (skip (cl_cfg c)) as [sk|]; simpl.
  - destruct (sk entry (cl_req c) (res w)) as [v|e]; simpl.
    + destruct (truthy v); simpl.
      * exists [EEntry entry]. split; [reflexivity|split; [reflexivity|]]. now apply Hnone.
      * destruct (format_message (cl_cfg c) entry) as [m|e]; simpl.
        -- destruct (Hfin m) as (d & Hd & H). exists d. rewrite Hd.
           split; [reflexivity|split; [reflexivity|exact H]].
        -- exists [EEntry entry; EConsoleError e]. rewrite add_trace_add.
           split; [reflexivity|split; [reflexivity|]]. now apply Hnone.
    + exists [EEntry entry; EConsoleError e]. rewrite add_trace_add.
      split; [reflexivity|split; [reflexivity|]]. now apply Hnone.
  - destruct (format_message (cl_cfg c) entry) as [m|e]; simpl.
    + destruct (Hfin m) as (d & Hd & H). exists d. rewrite Hd.
      split; [reflexivity|split; [reflexivity|exact H]].
    + exists [EEntry entry; EConsoleError e]. rewrite add_trace_add.
      split; [reflexivity|split; [reflexivity|]]. now apply Hnone.
Qed.

Lemma unregister_armed_eq (c : closure) (w : world) (ls : list (evname * listener)) :
  others_only ls →
  listeners w = ls ++ [(finish, L_onFinish c); (close, L_onFinish c)] →
  listeners (unregister w) = ls.
Proof.
  intros Hls Hl. unfold unregister; simpl. rewrite Hl.
  rewrite (remove_last_app _ ls [(close, L_onFinish c)] (finish, L_onFinish c))
    by reflexivity.
  rewrite (remove_last_app _ ls [] (close, L_onFinish c)) by reflexivity.
  now rewrite app_nil_r.
Qed.

Lemma emit_armed_run (ev : evname) (c : closure) (w : world)
    (ls : list (evname * listener)) :
  others_only ls →
  listeners w = ls ++ [(finish, L_onFinish c); (close, L_onFinish c)] →
  ∃ q, Forall (λ e, is_quiet e = true) q ∧ emit ev w = onFinish c (add_trace q w).
Proof.
  intros Hls Hl. unfold emit. munfold. rewrite Hl, filter_app, map_app, call_all_app.
  destruct (call_all_others (filter (λ p, evname_eqb p.1 ev = true) ls) w)
    as (q & Hq & Hquiet); [now apply others_only_filter|].
  rewrite Hq. exists q. split; [exact Hquiet|].
  assert (Hsnap : map snd (filter (λ p : evname * listener, evname_eqb p.1 ev = true)
                             [(finish, L_onFinish c); (close, L_onFinish c)])
                  = [L_onFinish c]) by (destruct ev; reflexivity).
  rewrite Hsnap. simpl. munfold.
  destruct (onFinish c (add_trace q w)) as [[[]|e] w']; reflexivity.
Qed.

Lemma run_action_keeps_others (a : action) (w : world) :
  others_only (listeners w) →
  ∃ w' d, run_action a w = (Normal tt, w')
          ∧ listeners w' = listeners w ∧ net w' = net w
          ∧ trace w' = trace w ++ d ∧ Forall (λ e, is_quiet e = true) d.
Proof.
  intros H. destruct (is_emit a) eqn:Ha.
  - destruct a as [ev| | | |]; try discriminate Ha. simpl.
    destruct (emit_others ev w H) as (d & Hd & Hq).
    exists (add_trace d w), d. repeat split; assumption.
  - now apply run_action_quiet.
Qed.

Lemma run_script_keeps_others (s : list action) (w : world) :
  others_only (listeners w) →
  ∃ w' d, run_script s w = (Normal tt, w')
          ∧ listeners w' = listeners w ∧ net w' = net w
          ∧ trace w' = trace w ++ d ∧ Forall (λ e, is_quiet e = true) d.
Proof.
  revert w. induction s as [|a s IH]; intros w H; simpl.
  - exists w, []. rewrite app_nil_r. repeat split; constructor.
  - destruct (run_action_keeps_others a w H) as (w1 & d1 & H1 & Hl1 & Hn1 & Ht1 & Hq1).
    destruct (IH w1) as (w2 & d2 & H2 & Hl2 & Hn2 & Ht2 & Hq2); [now rewrite Hl1|].
    exists w2, (d1 ++ d2). munfold. rewrite H1, H2.
    repeat split; try congruence.
    + now rewrite Ht2, Ht1, app_assoc.
    + now apply Forall_app.
Qed.

(** The life of an instrumented request, effect by effect: quiet effects,
    then the effects of the one run of [onFinish] at the first event, then
    quiet effects. *)

Lemma first_event_trace (cfg : config) (req : request)
    (others : list (evname * nat)) (clk : clock) (rt : runtime)
    (pre post : list action) (ev : evname) :
  shouldSkipPath (request_url req) (Some (skipPaths cfg)) = false →
  Forall (λ a, is_emit a = false) pre →
  let w0 := initial_world others clk rt in
  let c := mk_closure cfg req clk in
  ∃ w1 wq d wf q0 qf,
    lifecycle cfg req pre w0 = (Normal tt, w1)
    ∧ trace w1 = q0 ∧ Forall (λ e, is_quiet e = true) q0
    ∧ listeners w1 = listeners w0 ++ [(finish, L_onFinish c); (close, L_onFinish c)]
    ∧ res wq = res w1 ∧ now wq = now w1 ∧ net wq = rt
    ∧ onFinish c wq = (Normal tt, add_trace d (unregister wq))
    ∧ lifecycle cfg req (pre ++ AEmit ev :: post) w0 = (Normal tt, wf)
    ∧ trace wf = trace wq ++ d ++ qf
    ∧ Forall (λ e, is_quiet e = true) (trace wq)
    ∧ Forall (λ e, is_quiet e = true) qf
    ∧ listeners wf = listeners w0.
Proof.
  intros Hs Hpre w0 c.
  destruct (handle_request_registers cfg req w0 Hs)
    as (wa & da & Ha & Hla & Hna & Hneta & _ & Hta & Hqa).
  destruct (run_script_quiet pre wa Hpre) as (w1 & d1 & H1 & Hl1 & Hn1 & Ht1 & Hq1).
  assert (Hl : listeners w1
               = listeners w0 ++ [(finish, L_onFinish c); (close, L_onFinish c)])
    by now rewrite Hl1, Hla.
  destruct (emit_armed_run ev c w1 (listeners w0) (initial_others others clk rt) Hl)
    as (q & Hq & He).
  destruct (onFinish_spec c (add_trace q w1)) as (entry & d & _ & Hf & _).
  set (wq := add_trace q w1) in *.
  set (w2 := add_trace (EEntry entry :: d) (unregister wq)) in *.
  assert (Hl2 : listeners w2 = listeners w0).
  { unfold w2. simpl. apply (unregister_armed_eq c wq); [apply (initial_others others clk rt) | exact Hl]. }
  destruct (run_script_keeps_others post w2) as (wf & df & Hrf & Hlf & Hnf & Htf & Hqf).
  { rewrite Hl2. apply (initial_others others clk rt). }
  assert (Hq0 : Forall (λ e, is_quiet e = true) (trace w1)).
  { rewrite Ht1, Hta. simpl. now apply Forall_app. }
  exists w1, wq, (EEntry entry :: d), wf, (trace w1), df.
  split; [now rewrite lifecycle_unfold, Ha|].
  split; [reflexivity|split; [exact Hq0|split; [exact Hl|]]].
  split; [reflexivity|split; [reflexivity|split]].
  { unfold wq. simpl. now rewrite Hn1, Hneta. }
  split; [exact Hf|split].
  { rewrite lifecycle_unfold, Ha, run_script_app, H1. simpl. munfold.
    rewrite He, Hf. fold w2. now rewrite Hrf. }
  split; [rewrite Htf; unfold w2; simpl; now rewrite <- app_assoc|].
  split; [unfold wq; simpl; now apply Forall_app|].
  split; [exact Hqf | now rewrite Hlf].
Qed.

Lemma build_entry_fields (c : closure) (r : response) (clk : clock) :
  ∃ entry,
    build_entry c r clk = Normal entry
    ∧ obj_get "time" entry = Some (VStr (now_iso clk))
    ∧ obj_get "method" entry = Some (VStr (method (cl_req c)))
    ∧ obj_get "url" entry = Some (VStr (cl_originalUrl c))
    ∧ obj_get "status" entry = Some (VNum (statusCode r))
    ∧ obj_get "duration" entry = Some (VNum (elapsed_ms clk))
    ∧ obj_get "ip" entry = Some (cl_ip c).
Proof.
  unfold build_entry. cbv zeta.
  destruct (includeBody (cl_cfg c)).
  - destruct (safeSerialize_total (body (cl_req c))) as (v' & ->).
    unfold cbind at 1.
    destruct (limitSize_total v' (maxBodyLength (cl_cfg c))) as (b & -> & _).
    unfold cbind. eexists; split; [reflexivity|].
    destruct (includeHeaders (cl_cfg c)); repeat split; reflexivity.
  - eexists; split; [reflexivity|].
    destruct (includeHeaders (cl_cfg c)); repeat split; reflexivity.
Qed.

Lemma add_trace_inj (d d' : list effect) (w : world) :
  add_trace d w = add_trace d' w → d = d'.
Proof.
  unfold add_trace. intros H. injection H as H. now apply app_inv_head in H.
Qed.

(** X14. For an instrumented request whose response fires an event, the whole
    lifecycle hands over at most one message: the call of postToRemote in
    remote mode, the call of the logger otherwise, and nothing when skip
    answers truthy or when skip or format throws. At most one network request
    is made, none in local mode, and the logger is never called in remote
    mode. *)
Theorem lifecycle_emissions (cfg : config) (req : request)
    (others : list (evname * nat)) (clk : clock) (rt : runtime)
    (pre post : list action) (ev : evname) :
  shouldSkipPath (request_url req) (Some (skipPaths cfg)) = false →
  Forall (λ a, is_emit a = false) pre →
  let w0 := initial_world others clk rt in
  let c := mk_closure cfg req clk in
  let w1 := (lifecycle cfg req pre w0).2 in
  let wf := (lifecycle cfg req (pre ++ AEmit ev :: post) w0).2 in
  ∃ entry,
    build_entry c (res w1) (now w1) = Normal entry
    ∧ emissions (trace wf)
      = match delivered_message c entry (res w1) with
        | Some m => [emission_of cfg m entry]
        | None => []
        end
    ∧ (length (network_requests (trace wf)) ≤ 1)%nat
    ∧ (remote_configured cfg = false → network_requests (trace wf) = [])
    ∧ (remote_configured cfg = true → ∀ m, ELogger m ∉ trace wf).
Proof.
  intros Hs Hpre w0 c.
  destruct (first_event_trace cfg req others clk rt pre post ev Hs Hpre)
    as (w1 & wq & d & wf & q0 & qf & E1 & _ & _ & _ & Hr & Hn & _ & Hf & Ef & Ht & Hq & Hqf & _).
  fold w0 c in E1, Ef, Hf. cbv zeta. rewrite E1, Ef. simpl.
  destruct (onFinish_emissions c wq) as (entry & d' & Hb & Hf' & Hem & Hlen & Hloc).
  rewrite Hf in Hf'. injection Hf' as Hd. apply app_inv_head in Hd. subst d'.
  rewrite Hr, Hn in Hb. rewrite Hr in Hem.
  destruct (quiet_filters _ Hq) as [Q1 Q2]. destruct (quiet_filters _ Hqf) as [Q3 Q4].
  assert (Hemw : emissions (trace wf) = emissions d).
  { rewrite Ht, !emissions_app, Q1, Q3. simpl. apply app_nil_r. }
  assert (Hnw : network_requests (trace wf) = network_requests d).
  { rewrite Ht, !network_requests_app, Q2, Q4. simpl. apply app_nil_r. }
  exists entry. split; [exact Hb|split; [now rewrite Hemw|split; [now rewrite Hnw|split]]].
  - intros Hr'. rewrite Hnw. now apply Hloc.
  - intros Hrem m Hin.
    assert (Hin' : ELogger m ∈ emissions (trace wf)).
    { unfold emissions. apply list_elem_of_filter. split; [reflexivity | exact Hin]. }
    rewrite Hemw, Hem in Hin'.
    destruct (delivered_message c entry (res w1)) as [m'|].
    + apply list_elem_of_singleton in Hin'. unfold emission_of in Hin'.
      change (cl_cfg c) with cfg in Hin'. rewrite Hrem in Hin'. discriminate Hin'.
    + now apply elem_of_nil in Hin'.
Qed.

Lemma lifecycle_emissions_witness :
  ∃ entry,
    build_entry (mk_closure default_config sample_request sample_clock)
      (res (lifecycle default_config sample_request [ASetStatus 200]
              (initial_world [] sample_clock sample_runtime)).2)
      (now (lifecycle default_config sample_request [ASetStatus 200]
              (initial_world [] sample_clock sample_runtime)).2) = Normal entry
    ∧ emissions (trace (lifecycle default_config sample_request
                          ([ASetStatus 200] ++ AEmit finish :: [AEmit close])
                          (initial_world [] sample_clock sample_runtime)).2)
      = match delivered_message (mk_closure default_config sample_request sample_clock) entry
                (res (lifecycle default_config sample_request [ASetStatus 200]
                        (initial_world [] sample_clock sample_runtime)).2) with
        | Some m => [emission_of default_config m entry]
        | None => []
        end
    ∧ (length (network_requests
         (trace (lifecycle default_config sample_request
                   ([ASetStatus 200] ++ AEmit finish :: [AEmit close])
                   (initial_world [] sample_clock sample_runtime)).2)) ≤ 1)%nat
    ∧ (remote_configured default_config = false →
       network_requests
         (trace (lifecycle default_config sample_request
                   ([ASetStatus 200] ++ AEmit finish :: [AEmit close])
                   (initial_world [] sample_clock sample_runtime)).2) = [])
    ∧ (remote_configured default_config = true →
       ∀ m, ELogger m ∉
         trace (lifecycle default_config sample_request
                  ([ASetStatus 200] ++ AEmit finish :: [AEmit close])
                  (initial_world [] sample_clock sample_runtime)).2).
Proof.
  apply (lifecycle_emissions default_config sample_request [] sample_clock sample_runtime
           [ASetStatus 200] [AEmit close] finish).
  - reflexivity.
  - repeat constructor.
Defined.

(** ** Exemption rules, further *)

Lemma skip_loop_app (url : string) (a b : list rule) :
  (skip_loop url (a ++ b)).1 = (skip_loop url a).1 || (skip_loop url b).1.
Proof.
  induction a as [|r a IH]; simpl; [reflexivity|].
  destruct (rule_matches url r); [reflexivity|].
  destruct (skip_loop url (a ++ b)), (skip_loop url a). exact IH.
Qed.

(** X15. Exemption rules add up: a list exempts a path exactly when one of its
    parts does. A text rule exempts every path that starts with it, the empty
    text exempts every path, and a rule that is neither a text nor a pattern is
    ignored. *)
Theorem shouldSkipPath_rules (url : string) (a b : list rule) :
  shouldSkipPath url (Some (a ++ b))
  = shouldSkipPath url (Some a) || shouldSkipPath url (Some b)
  ∧ (∀ p rest, shouldSkipPath (p +:+ rest) (Some [RString p]) = true)
  ∧ shouldSkipPath url (Some [RString ""]) = true
  ∧ (∀ v, shouldSkipPath url (Some (ROther v :: a)) = shouldSkipPath url (Some a)).
Proof.
  split; [|split; [|split]].
  - rewrite !shouldSkipPath_loop. apply skip_loop_app.
  - intros p rest. simpl. replace (startsWith (p +:+ rest) p) with true; [reflexivity|].
    symmetry. apply startsWith_spec. now exists rest.
  - simpl. destruct url; reflexivity.
  - intros v. rewrite !shouldSkipPath_loop. simpl. now destruct (skip_loop url a).
Qed.

(** ** The request handler, further *)




(** X18. A response that fires neither finish nor close is never logged: no
    entry, no emission and no network request, whatever else happens to the
    response, and the two listeners stay registered. *)
Theorem no_event_no_entry (cfg : config) (req : request)
    (others : list (evname * nat)) (clk : clock) (rt : runtime) (s : list action) :
  shouldSkipPath (request_url req) (Some (skipPaths cfg)) = false →
  Forall (λ a, is_emit a = false) s →
  let w0 := initial_world others clk rt in
  let run := lifecycle cfg req s w0 in
  run.1 = Normal tt
  ∧ Forall (λ e, is_quiet e = true) (trace run.2)
  ∧ emissions (trace run.2) = []
  ∧ network_requests (trace run.2) = []
  ∧ listeners run.2
    = listeners w0 ++ [(finish, L_onFinish (mk_closure cfg req clk));
                       (close, L_onFinish (mk_closure cfg req clk))].
Proof.
  intros Hs Hq w0 run.
  destruct (handle_request_registers cfg req w0 Hs)
    as (wa & da & Ha & Hla & _ & _ & _ & Hta & Hqa).
  destruct (run_script_quiet s wa Hq) as (w1 & d1 & H1 & Hl1 & _ & Ht1 & Hq1).
  assert (E : run = (Normal tt, w1)) by (unfold run; now rewrite lifecycle_unfold, Ha).
  rewrite E. simpl.
  assert (Hall : Forall (λ e, is_quiet e = true) (trace w1)).
  { rewrite Ht1, Hta. simpl. now apply Forall_app. }
  destruct (quiet_filters _ Hall) as [F1 F2].
  repeat split; try assumption. now rewrite Hl1, Hla.
Qed.

Lemma no_event_no_entry_witness :
  emissions (trace (lifecycle default_config sample_request
                      [ASetStatus 500; ASetHeader "content-length" (VNum 12); AFlushHeaders]
                      (initial_world [] sample_clock sample_runtime)).2) = [].
Proof.
  apply (no_event_no_entry default_config sample_request [] sample_clock sample_runtime
           [ASetStatus 500; ASetHeader "content-length" (VNum 12); AFlushHeaders]).
  - reflexivity.
  - repeat constructor.
Defined.

(** X19. The entry is built at the first completion event, not when the
    request arrives: its status, time and duration are the status of the
    response and the clock at that moment, and the default line is
    time, method, url, status, duration followed by ms, a dash and the ip, of
    these values. *)
Theorem entry_reads_final_state (cfg : config) (req : request)
    (others : list (evname * nat)) (clk : clock) (rt : runtime)
    (pre post : list action) (ev : evname) (n : Z) (clk' : clock) :
  shouldSkipPath (request_url req) (Some (skipPaths cfg)) = false →
  Forall (λ a, is_emit a = false) pre →
  let w0 := initial_world others clk rt in
  let wf := (lifecycle cfg req (pre ++ [ASetStatus n; ATick clk'] ++ AEmit ev :: post) w0).2 in
  ∃ entry,
    EEntry entry ∈ trace wf
    ∧ obj_get "status" entry = Some (VNum n)
    ∧ obj_get "time" entry = Some (VStr (now_iso clk'))
    ∧ obj_get "duration" entry = Some (VNum (elapsed_ms clk'))
    ∧ obj_get "url" entry = Some (VStr (request_url req))
    ∧ obj_get "ip" entry = Some (request_ip req)
    ∧ default_line entry
      = now_iso clk' +:+ " " +:+ method req +:+ " " +:+ request_url req +:+ " "
        +:+ show_Z n +:+ " " +:+ show_Z (elapsed_ms clk') +:+ "ms - "
        +:+ ToString (request_ip req).
Proof.
  intros Hs Hpre w0 wf.
  assert (Hpre' : Forall (λ a, is_emit a = false) (pre ++ [ASetStatus n; ATick clk'])).
  { apply Forall_app. split; [exact Hpre | repeat constructor]. }
  destruct (first_event_spec cfg req others clk rt (pre ++ [ASetStatus n; ATick clk'])
              post ev Hs Hpre')
    as (entry & Hb & _ & _ & _ & _ & _ & _ & Hin & _).
  cbv zeta in Hb, Hin. fold w0 in Hb, Hin. rewrite <- app_assoc in Hin. fold wf in Hin.
  exists entry. split; [exact Hin|].
  destruct (handle_request_registers cfg req w0 Hs) as (wa & da & Ha & _).
  destruct (run_script_quiet pre wa Hpre) as (w1 & d1 & H1 & _).
  assert (E : lifecycle cfg req (pre ++ [ASetStatus n; ATick clk']) w0
              = (Normal tt,
                 {| res := {| statusCode := n; res_headers := res_headers (res w1);
                              headersSent := headersSent (res w1) |};
                    listeners := listeners w1; now := clk'; net := net w1;
                    trace := trace w1 |})).
  { rewrite lifecycle_unfold, Ha, run_script_app, H1. reflexivity. }
  rewrite E in Hb. simpl in Hb.
  match type of Hb with build_entry ?c ?r ?k = _ =>
    destruct (build_entry_fields c r k) as (entry' & Hb' & F1 & F2 & F3 & F4 & F5 & F6) end.
  rewrite Hb in Hb'. injection Hb' as <-. simpl in F1, F2, F3, F4, F5, F6.
  repeat split; try assumption.
  unfold default_line. rewrite F1, F2, F3, F4, F5, F6. reflexivity.
Qed.

Lemma entry_reads_final_state_witness :
  ∃ entry,
    EEntry entry
    ∈ trace (lifecycle default_config sample_request
               ([] ++ [ASetStatus 404; ATick sample_clock] ++ AEmit close :: [])
               (initial_world [] sample_clock sample_runtime)).2
    ∧ default_line entry = "2024-11-02T08:00:00.000Z GET /status/abc 404 12ms - 10.0.0.7".
Proof.
  destruct (entry_reads_final_state default_config sample_request [] sample_clock
              sample_runtime [] [] close 404 sample_clock)
    as (entry & H1 & _ & _ & _ & _ & _ & H2).
  - reflexivity.
  - constructor.
  - exists entry. split; [exact H1|]. rewrite H2. vm_compute. reflexivity.
Defined.

(** X20. The middleware adds its two listeners after those already on the
    response and removes exactly its own: after the first event the listeners
    of the response are those it had before, in their order. *)
Theorem other_listeners_survive (cfg : config) (req : request)
    (others : list (evname * nat)) (clk : clock) (rt : runtime)
    (pre post : list action) (ev : evname) :
  shouldSkipPath (request_url req) (Some (skipPaths cfg)) = false →
  Forall (λ a, is_emit a = false) pre →
  let w0 := initial_world others clk rt in
  listeners (lifecycle cfg req pre w0).2
  = map (λ p, (p.1, L_other p.2)) others
    ++ [(finish, L_onFinish (mk_closure cfg req clk));
        (close, L_onFinish (mk_closure cfg req clk))]
  ∧ listeners (lifecycle cfg req (pre ++ AEmit ev :: post) w0).2
    = map (λ p, (p.1, L_other p.2)) others.
Proof.
  intros Hs Hpre w0.
  destruct (first_event_trace cfg req others clk rt pre post ev Hs Hpre)
    as (w1 & wq & d & wf & q0 & qf & E1 & _ & _ & Hl1 & _ & _ & _ & _ & Ef & _ & _ & _ & Hlf).
  fold w0 in E1, Ef, Hlf, Hl1. rewrite E1, Ef. simpl. split; assumption.
Qed.

Lemma other_listeners_survive_witness :
  listeners (lifecycle default_config sample_request ([] ++ AEmit finish :: [AEmit close])
               (initial_world [(close, 3%nat)] sample_clock sample_runtime)).2
  = [(close, L_other 3)].
Proof.
  apply (other_listeners_survive default_config sample_request [(close, 3%nat)]
           sample_clock sample_runtime [] [AEmit close] finish).
  - reflexivity.
  - constructor.
Defined.

(** ** Options and the environment *)

Lemma toLowerCase_empty (s : string) : toLowerCase s = "" ↔ s = "".
Proof. destruct s; simpl; split; congruence. Qed.

Lemma truthy_lower (s : string) :
  truthy (VStr (toLowerCase s)) = truthy (VStr s).
Proof. destruct s; reflexivity. Qed.

Lemma truthy_env_default (o : option string) :
  truthy (VStr (toLowerCase (default "" (or_str o (Some ""))))) = truthy_str o.
Proof.
  rewrite truthy_lower. unfold or_str. destruct o as [s|]; simpl; [|reflexivity].
  destruct (String.eqb_spec s ""); simpl; [reflexivity|].
  destruct (String.eqb_spec s ""); [contradiction | reflexivity].
Qed.

Lemma truthy_or_none (o : option string) : truthy_str (or_str o None) = truthy_str o.
Proof. unfold or_str. destruct (truthy_str o) eqn:E; [exact E | reflexivity]. Qed.

(** X21. Remote mode is decided by four settings. With none of them among
    the options it is on exactly when LOG_API_URL, LOG_API_TOKEN, LOG_STACK
    and LOG_PACKAGE are all non-empty in the environment. Each option that
    is given wins over the environment and is taken as it is, without
    lower-casing, so an empty text among the four options turns remote mode
    off whatever the environment says. Each option that is absent is read
    from the environment, where an empty variable counts as unset; stack,
    package and level are then lower-cased, and the level defaults to
    info. *)
Theorem remote_mode_settings (env : gmap string string) (opts : options) :
  (opt_remoteLogUrl opts = None → opt_authToken opts = None →
   opt_remoteStack opts = None → opt_remotePackage opts = None →
   remote_configured (resolve_options env opts)
   = truthy_str (env !! "LOG_API_URL") && truthy_str (env !! "LOG_API_TOKEN")
     && truthy_str (env !! "LOG_STACK") && truthy_str (env !! "LOG_PACKAGE"))
  ∧ (opt_remoteLogUrl opts = Some "" ∨ opt_authToken opts = Some ""
     ∨ opt_remoteStack opts = Some "" ∨ opt_remotePackage opts = Some "" →
     remote_configured (resolve_options env opts) = false)
  ∧ ((∀ u, opt_remoteLogUrl opts = Some u →
        remoteLogUrl (resolve_options env opts) = Some u)
     ∧ (∀ t, opt_authToken opts = Some t →
          authToken (resolve_options env opts) = Some t)
     ∧ (∀ s, opt_remoteStack opts = Some s →
          remoteStack (resolve_options env opts) = s)
     ∧ (∀ p, opt_remotePackage opts = Some p →
          remotePackage (resolve_options env opts) = p)
     ∧ (∀ l, opt_defaultLevel opts = Some l →
          defaultLevel (resolve_options env opts) = l)
     ∧ (∀ i, opt_logClientId opts = Some i →
          logClientId (resolve_options env opts) = Some i))
  ∧ ((opt_remoteLogUrl opts = None →
        remoteLogUrl (resolve_options env opts)
        = if truthy_str (env !! "LOG_API_URL") then env !! "LOG_API_URL" else None)
     ∧ (opt_authToken opts = None →
          authToken (resolve_options env opts)
          = if truthy_str (env !! "LOG_API_TOKEN") then env !! "LOG_API_TOKEN" else None)
     ∧ (opt_remoteStack opts = None →
          remoteStack (resolve_options env opts)
          = toLowerCase (default "" (env !! "LOG_STACK")))
     ∧ (opt_remotePackage opts = None →
          remotePackage (resolve_options env opts)
          = toLowerCase (default "" (env !! "LOG_PACKAGE")))
     ∧ (opt_defaultLevel opts = None →
          defaultLevel (resolve_options env opts)
          = if truthy_str (env !! "LOG_LEVEL")
            then toLowerCase (default "" (env !! "LOG_LEVEL")) else "info")
     ∧ (opt_logClientId opts = None →
          logClientId (resolve_options env opts)
          = if truthy_str (env !! "LOG_CLIENT_ID") then env !! "LOG_CLIENT_ID" else None)).
Proof.
  assert (Hlow : ∀ o : option string,
            toLowerCase (default "" (or_str o (Some ""))) = toLowerCase (default "" o)).
  { intros o. f_equal. unfold or_str. destruct o as [s|]; simpl; [|reflexivity].
    destruct (String.eqb_spec s ""); simpl; [now subst | reflexivity]. }
  split; [|split; [|split]].
  - intros H1 H2 H3 H4. unfold remote_configured, resolve_options.
    cbn [remoteLogUrl authToken remoteStack remotePackage].
    rewrite H1, H2, H3, H4. now rewrite !truthy_or_none, !truthy_env_default.
  - unfold remote_configured, resolve_options; simpl.
    intros [H|[H|[H|H]]]; rewrite H; simpl;
      rewrite ?andb_false_r, ?andb_false_l; reflexivity.
  - repeat split; intros x H; simpl; now rewrite H.
  - repeat split; intros H; simpl; rewrite H; try apply Hlow; try reflexivity.
    unfold or_str. destruct (truthy_str (env !! "LOG_LEVEL")) eqn:E; simpl; [|reflexivity].
    destruct (env !! "LOG_LEVEL"); [reflexivity | discriminate E].
Qed.

Lemma remote_mode_settings_witness :
  remote_configured
    (resolve_options
       {[ "LOG_API_URL" := "http://logs.example/ingest"; "LOG_API_TOKEN" := "tok";
          "LOG_STACK" := "Backend"; "LOG_PACKAGE" := "url-shortener" ]}
       no_options) = true.
Proof.
  rewrite (proj1 (remote_mode_settings
    {[ "LOG_API_URL" := "http://logs.example/ingest"; "LOG_API_TOKEN" := "tok";
       "LOG_STACK" := "Backend"; "LOG_PACKAGE" := "url-shortener" ]} no_options)
    eq_refl eq_refl eq_refl eq_refl).
  vm_compute. reflexivity.
Defined.

(** ** Remote delivery, further *)

(** X22. [postToRemote] never throws and hands over at most one request,
    which is determined in every case. A payload on which [JSON.stringify]
    throws gives none. Where [fetch] exists it is called once with the URL,
    the body, the content type application/json and the token as bearer
    authorization. Where it is missing, one [node:http(s)] request with
    these headers and [content-length], the length of the body in UTF-8, is
    sent when the URL parses, the payload has a JSON text and the
    authorization value is a header text, and none otherwise. *)
Theorem postToRemote_request (url token : string) (payload : value) (w : world) :
  ∃ d,
    postToRemote url token payload w = (Normal tt, add_trace d w)
    ∧ (length d ≤ 1)%nat
    ∧ ((∃ e, JSON_stringify payload = Throw e) → d = [])
    ∧ (∀ body, JSON_stringify payload = Normal body → has_fetch (net w) = true →
         d = [EFetch url (remote_headers token) body])
    ∧ (∀ body, JSON_stringify payload = Normal body → has_fetch (net w) = false →
         d = match body with
             | Some b =>
                 if URL_ok (net w) url && is_header_text ("Bearer " +:+ token)
                 then [EHttpRequest url (http_headers token b) b]
                 else []
             | None => []
             end)
    ∧ (obj_get "authorization" (remote_headers token) = Some (VStr ("Bearer " +:+ token))
       ∧ obj_get "content-type" (remote_headers token) = Some (VStr "application/json"))
    ∧ (∀ b, obj_get "authorization" (http_headers token b)
            = Some (VStr ("Bearer " +:+ token))
            ∧ obj_get "content-type" (http_headers token b)
              = Some (VStr "application/json")
            ∧ obj_get "content-length" (http_headers token b)
              = Some (VNum (Z.of_nat (length (utf8 b))))).
Proof.
  unfold postToRemote. munfold.
  destruct (JSON_stringify payload) as [body|e]; simpl.
  - destruct (has_fetch (net w)) eqn:Hf; simpl.
    + exists [EFetch url (remote_headers token) body].
      split; [destruct (fetch_result (net w)) as [[]|]; reflexivity|].
      split; [simpl; lia|].
      split; [intros (e & He); discriminate He|].
      split; [intros b' [= <-] _; reflexivity|].
      split; [intros b' _ H; discriminate H|].
      split; [split; reflexivity | intros b; repeat split].
    + assert (Hd : ∃ d,
        (let (c, w') :=
           (if URL_ok (net w) url
            then match body with
                 | Some b =>
                     if is_header_text ("Bearer " +:+ token)
                     then λ w0 : world,
                            (Normal tt,
                             {| res := res w0; listeners := listeners w0; now := now w0;
                                net := net w0;
                                trace := trace w0 ++ [EHttpRequest url (http_headers token b) b] |})
                     else λ w0 : world, (Throw (TypeError "[ERR_INVALID_CHAR]"), w0)
                 | None =>
                     λ w0 : world,
                       (Throw (TypeError "The string argument must be of type string"), w0)
                 end
            else λ w0 : world, (Throw (TypeError "Invalid URL"), w0)) w in
         match c with
         | Normal a => (Normal a, w')
         | Throw _ => (Normal tt, w')
         end) = (Normal tt, add_trace d w)
        ∧ d = match body with
              | Some b =>
                  if URL_ok (net w) url && is_header_text ("Bearer " +:+ token)
                  then [EHttpRequest url (http_headers token b) b]
                  else []
              | None => []
              end).
      { destruct (URL_ok (net w) url);
          [destruct body as [b|]; [destruct (is_header_text ("Bearer " +:+ token))|]|];
          simpl.
        - eexists; split; reflexivity.
        - exists []. now rewrite add_trace_nil.
        - exists []. now rewrite add_trace_nil.
        - exists []. rewrite add_trace_nil. split; [reflexivity|]. now destruct body. }
      destruct Hd as (d & Hrun & Hd). exists d.
      split; [exact Hrun|].
      split; [rewrite Hd; destruct body; [destruct (_ && _)|]; simpl; lia|].
      split; [intros (e & He); discriminate He|].
      split; [intros b' _ H; discriminate H|].
      split; [intros b' [= <-] _; exact Hd|].
      split; [split; reflexivity | intros b; repeat split].
  - exists []. rewrite add_trace_nil. split; [reflexivity|].
    split; [simpl; lia|]. split; [reflexivity|].
    split; [intros b H; discriminate H|].
    split; [intros b H; discriminate H|].
    split; [split; reflexivity | intros b; repeat split].
Qed.

(** X23. [sendLog] does nothing and answers false when LOG_API_URL or
    LOG_API_TOKEN is missing or empty. Otherwise it calls postToRemote once
    with these two and answers true; in the payload the fields of extra
    override stack, level, package and message, logId is LOG_CLIENT_ID or else
    the logId of extra, stack and level are lower-cased and level defaults to
    info. *)
Theorem sendLog_effects (env : gmap string string)
    (stack level pkg message : value) (extra : obj) (w : world) :
  (truthy_str (env !! "LOG_API_URL") && truthy_str (env !! "LOG_API_TOKEN") = false →
   sendLog env stack level pkg message extra w = (Normal (VBool false), w))
  ∧ (∀ u t, env !! "LOG_API_URL" = Some u → u ≠ "" →
       env !! "LOG_API_TOKEN" = Some t → t ≠ "" →
       NoDup (obj_keys extra) →
       ∃ payload d,
         sendLog env stack level pkg message extra w
         = (Normal (VBool true), add_trace (EPostToRemote u t payload :: d) w)
         ∧ Forall (λ e, is_network e = true) d ∧ (length d ≤ 1)%nat
         ∧ obj_get "logId" payload
           = Some (vor (of_opt_str (env !! "LOG_CLIENT_ID")) (of_opt (obj_get "logId" extra)))
         ∧ (∀ k v, k ≠ "logId" → obj_get k extra = Some v → obj_get k payload = Some v)
         ∧ (obj_get "stack" extra = None →
            obj_get "stack" payload
            = Some (VStr (toLowerCase (ToString (vor stack (VStr ""))))))
         ∧ (obj_get "level" extra = None →
            obj_get "level" payload
            = Some (VStr (toLowerCase (ToString (vor level (VStr "info"))))))
         ∧ (obj_get "package" extra = None →
            obj_get "package" payload = Some (VStr (ToString (vor pkg (VStr "")))))
         ∧ (obj_get "message" extra = None →
            obj_get "message" payload = Some (VStr (ToString (vor message (VStr "")))))).
Proof.
  split.
  - intros H. unfold sendLog. apply andb_false_iff in H.
    destruct (truthy_str (env !! "LOG_API_URL")); simpl.
    + destruct H as [H|H]; [discriminate H|]. rewrite H. reflexivity.
    + reflexivity.
  - intros u t Hu Hune Ht Htne Hnd. unfold sendLog. rewrite Hu, Ht. simpl.
    destruct (String.eqb_spec u ""); [contradiction|].
    destruct (String.eqb_spec t ""); [contradiction|]. simpl.
    match goal with |- context [EPostToRemote u t ?p] => set (payload := p) end.
    munfold.
    destruct (postToRemote_spec u t (VObj payload) (add_trace [EPostToRemote u t payload] w))
      as (d & Hd & Hnet & Hlen).
    fold (add_trace [EPostToRemote u t payload] w). rewrite Hd.
    exists payload, d. rewrite add_trace_add. split; [reflexivity|].
    split; [exact Hnet|split; [exact Hlen|]].
    split; [apply obj_get_set_eq|].
    split.
    { intros k v Hk He. unfold payload. rewrite obj_get_set_ne by congruence.
      rewrite obj_get_spread by assumption. now rewrite He. }
    repeat split; intros He; unfold payload; rewrite obj_get_set_ne by discriminate;
      rewrite obj_get_spread by assumption; rewrite He; reflexivity.
Qed.

Lemma sendLog_effects_witness :
  sendLog ∅ (VStr "backend") (VStr "error") (VStr "handler") (VStr "boom") []
    (initial_world [] sample_clock sample_runtime)
  = (Normal (VBool false), initial_world [] sample_clock sample_runtime).
Proof.
  apply (sendLog_effects ∅ (VStr "backend") (VStr "error") (VStr "handler") (VStr "boom") []
           (initial_world [] sample_clock sample_runtime)).
  reflexivity.
Defined.

(** ** The identifier generator *)

Lemma digit36_roundtrip (n : N) : (n < 36)%N → digit36_value (digit36 n) = Some n.
Proof.
  intros Hn. rewrite <- (N2Nat.id n). assert (Hk : (N.to_nat n < 36)%nat) by lia.
  revert Hk. generalize (N.to_nat n) as k. clear n Hn. intros k Hk.
  do 36 (destruct k as [|k]; [vm_compute; reflexivity|]). lia.
Qed.

Lemma base36_go_parse (fuel : nat) :
  ∀ n acc, (n < 36 ^ N.of_nat fuel)%N →
    ∃ p, ∀ k, parse36_go (base36_go fuel n acc) k = parse36_go acc (k * p + n)%N.
Proof.
  induction fuel as [|f IH]; intros n acc Hn.
  - simpl in Hn. assert (n = 0%N) by lia. subst n. exists 1%N. intros k. simpl.
    f_equal. lia.
  - cbn [base36_go]. destruct (n <? 36)%N eqn:E.
    + apply N.ltb_lt in E. exists 36%N. intros k. cbn [parse36_go].
      rewrite N.mod_small by assumption. rewrite digit36_roundtrip by assumption.
      reflexivity.
    + apply N.ltb_ge in E.
      assert (Hq : (n / 36 < 36 ^ N.of_nat f)%N).
      { apply N.Div0.div_lt_upper_bound.
        replace (N.of_nat (S f)) with (N.succ (N.of_nat f)) in Hn by lia.
        rewrite N.pow_succ_r' in Hn. exact Hn. }
      destruct (IH (n / 36)%N (String (digit36 (n mod 36)) acc) Hq) as (p & Hp).
      exists (p * 36)%N. intros k. rewrite Hp. cbn [parse36_go].
      rewrite digit36_roundtrip by (apply N.mod_lt; lia).
      f_equal. pose proof (N.div_mod n 36 ltac:(lia)) as Hdm. lia.
Qed.

Lemma size_nat_bound (n : N) : (n < 36 ^ N.of_nat (S (N.size_nat n)))%N.
Proof.
  assert (H2 : (n < 2 ^ N.of_nat (S (N.size_nat n)))%N).
  { destruct n as [|p]; [reflexivity|]. simpl N.size_nat.
    induction p as [p IH|p IH|]; simpl Pos.size_nat.
    - replace (N.of_nat (S (S (Pos.size_nat p)))) with (N.succ (N.of_nat (S (Pos.size_nat p)))) by lia.
      rewrite N.pow_succ_r'. lia.
    - replace (N.of_nat (S (S (Pos.size_nat p)))) with (N.succ (N.of_nat (S (Pos.size_nat p)))) by lia.
      rewrite N.pow_succ_r'. lia.
    - reflexivity. }
  eapply N.lt_le_trans; [exact H2|]. apply N.pow_le_mono_l. lia.
Qed.

Lemma base36_go_nonempty (fuel : nat) (n : N) (acc : string) :
  base36_go (S fuel) n acc ≠ "".
Proof.
  revert n acc. induction fuel as [|f IH]; intros n acc; cbn [base36_go].
  - destruct (n <? 36)%N; discriminate.
  - destruct (n <? 36)%N; [discriminate|]. apply IH.
Qed.

(** X24. toString(36) is injective on the natural numbers, since reading the
    digits back gives the number; so with the same random part, two timestamps
    give the same default identifier only when they are equal. *)
Theorem toString36_roundtrip (n : N) :
  parse36 (toString36 n) = Some n
  ∧ (∀ m, toString36 m = toString36 n → m = n)
  ∧ (∀ random36 t1 t2, 0 ≤ t1 → 0 ≤ t2 →
       defaultIdGenerator random36 t1 = defaultIdGenerator random36 t2 → t1 = t2).
Proof.
  assert (Hrt : ∀ n, parse36 (toString36 n) = Some n).
  { intros m. unfold toString36, parse36.
    destruct (base36_go_parse (S (N.size_nat m)) m "" (size_nat_bound m)) as (p & Hp).
    pose proof (base36_go_nonempty (N.size_nat m) m "") as Hne.
    destruct (base36_go (S (N.size_nat m)) m "") eqn:E; [contradiction|].
    rewrite Hp. simpl. reflexivity. }
  assert (Hinj : ∀ m n, toString36 m = toString36 n → m = n).
  { intros m k H. pose proof (Hrt m) as Hm. rewrite H, Hrt in Hm. now injection Hm. }
  split; [apply Hrt|split; [intros m; apply Hinj|]].
  intros r t1 t2 H1 H2 H. unfold defaultIdGenerator in H.
  apply (inj (String.app _)) in H. apply Hinj in H. lia.
Qed.

Example defaultIdGenerator_sample :
  defaultIdGenerator "0.4fzyo82mvyr" 1730534400000 = "4fzyo82mvyrm2zvi0w0".
Proof. vm_compute. reflexivity. Qed.

(** ** The server's use of the middleware *)

(** X25. backend/server.js installs the middleware with includeHeaders and
    includeBody only, after express.json(), which hands a request it
    rejects (a malformed JSON body, say) to the error handlers, so that the
    middleware never sees it. When LOG_API_URL is not set, every request
    that reaches the middleware and whose response fires an event, /health
    included, is logged as exactly one default line on console.log, with no
    network request, and its entry carries requestBody and the request
    headers redacted by the default list. *)
Theorem server_logs_every_request (env : gmap string string) (req : request)
    (others : list (evname * nat)) (clk : clock) (rt : runtime)
    (pre post : list action) (ev : evname) :
  env !! "LOG_API_URL" = None →
  Forall (λ a, is_emit a = false) pre →
  let cfg := resolve_options env server_options in
  let w0 := initial_world others clk rt in
  let w1 := (lifecycle cfg req pre w0).2 in
  let wf := (lifecycle cfg req (pre ++ AEmit ev :: post) w0).2 in
  ∃ entry,
    build_entry (mk_closure cfg req clk) (res w1) (now w1) = Normal entry
    ∧ emissions (trace wf) = [ELogger (VStr (default_line entry))]
    ∧ network_requests (trace wf) = []
    ∧ obj_get "requestHeaders" entry
      = Some (VObj (redactObjectKeys (Some (headers req)) (Some default_redactKeys)))
    ∧ "requestBody" ∈ obj_keys entry.
Proof.
  intros Henv Hpre cfg w0 w1 wf.
  assert (Hs : shouldSkipPath (request_url req) (Some (skipPaths cfg)) = false)
    by reflexivity.
  assert (Hloc : remote_configured cfg = false).
  { unfold remote_configured, cfg, resolve_options. cbn [remoteLogUrl opt_remoteLogUrl server_options].
    rewrite Henv. reflexivity. }
  destruct (first_event_trace cfg req others clk rt pre post ev Hs Hpre)
    as (w1' & wq & d & wf' & q0 & qf & E1 & _ & _ & _ & Hr & Hn & _ & Hf & Ef & Ht & Hq & Hqf & _).
  fold w0 in E1, Ef. subst w1 wf. rewrite E1, Ef. cbn [snd].
  destruct (onFinish_emissions (mk_closure cfg req clk) wq)
    as (entry & d' & Hb & Hf' & Hem & _ & Hnet).
  rewrite Hf in Hf'. injection Hf' as Hd. apply app_inv_head in Hd. subst d'.
  rewrite Hr, Hn in Hb. rewrite Hr in Hem.
  destruct (quiet_filters _ Hq) as [Q1 Q2]. destruct (quiet_filters _ Hqf) as [Q3 Q4].
  exists entry. split; [exact Hb|].
  split; [|split].
  - rewrite Ht, !emissions_app, Q1, Q3, Hem. simpl.
    unfold emission_of. change (cl_cfg (mk_closure cfg req clk)) with cfg.
    rewrite Hloc. reflexivity.
  - rewrite Ht, !network_requests_app, Q2, Q4. simpl. rewrite app_nil_r.
    apply Hnet. exact Hloc.
  - revert Hb. unfold build_entry. cbv zeta.
    change (includeBody (cl_cfg (mk_closure cfg req clk))) with true.
    change (includeHeaders (cl_cfg (mk_closure cfg req clk))) with true.
    cbv iota.
    destruct (safeSerialize_total (body (cl_req (mk_closure cfg req clk)))) as (v' & ->).
    unfold cbind at 1.
    destruct (limitSize_total v' (maxBodyLength (cl_cfg (mk_closure cfg req clk))))
      as (b & -> & _).
    unfold cbind. intros [= <-]. split; [reflexivity|].
    cbn. set_solver.
Qed.

Lemma server_logs_every_request_witness :
  ∃ entry,
    build_entry (mk_closure (resolve_options ∅ server_options) health_request sample_clock)
      (res (lifecycle (resolve_options ∅ server_options) health_request [ASetStatus 200]
              (initial_world [] sample_clock sample_runtime)).2)
      (now (lifecycle (resolve_options ∅ server_options) health_request [ASetStatus 200]
              (initial_world [] sample_clock sample_runtime)).2) = Normal entry
    ∧ emissions (trace (lifecycle (resolve_options ∅ server_options) health_request
                          ([ASetStatus 200] ++ AEmit finish :: [AEmit close])
                          (initial_world [] sample_clock sample_runtime)).2)
      = [ELogger (VStr (default_line entry))]
    ∧ network_requests (trace (lifecycle (resolve_options ∅ server_options) health_request
                          ([ASetStatus 200] ++ AEmit finish :: [AEmit close])
                          (initial_world [] sample_clock sample_runtime)).2) = []
    ∧ obj_get "requestHeaders" entry
      = Some (VObj (redactObjectKeys (Some (headers health_request)) (Some default_redactKeys)))
    ∧ "requestBody" ∈ obj_keys entry.
Proof.
  apply (server_logs_every_request ∅ health_request [] sample_clock sample_runtime
           [ASetStatus 200] [AEmit close] finish).
  - reflexivity.
  - repeat constructor.
Defined.
